(** * Pique: a promise queue for JavaScript

    A shallow embedding of [pique.js] (the unbundled module and the copy
    inside the webpack bundle) together with the part of the ES2015 promise
    machinery the module relies on, and the properties of the queue stated
    in the specification.

    Modelling choices.
    - The module variable [LocalPromise] is the field of a [world]; every
      queue instance lives in the same world and reads that one variable.
    - A promise is a heap cell with a state and a list of reactions; [then]
      callbacks never run during the call that registers them, they are put
      on a job queue and run by a later [Tick].
    - Promise addresses are tagged with the allocation site of the source
      that creates them: the future handed to the caller ([Future]), the
      promise created inside the driver's callback ([Inner]) and the links
      of the [_globalPromise] chain ([Link]).
    - A unit of work is described by what it does with its two handles:
      the calls it makes while it is invoked, whether it then throws, and the
      calls it makes later, from a timer or an I/O callback ([Timer]).
    - A value passed to a handle may be a thenable ([VThenable]). A future
      that is resolved with one follows it ([Following]) and settles when
      the thenable answers ([answers]), which can be at any later time.
    - A link that is resolved with the promise of the driver's callback
      adopts it in the same step; the host takes one more job for that. The
      order of the calls is the same; the number of jobs of a run is not
      the host's. *)

From stdpp Require Import base list strings.
From Stdlib Require Import ZArith Lia.

Set Default Proof Using "Type".
Open Scope Z_scope.
Open Scope nat_scope.

(** ** Values, promises, units of work *)

Inductive value :=
| VUndefined
| VTrue
| VNum (n : Z)
| VStr (s : string)
| VError (name message : string)
| VThenable (t : nat).

(** A promise constructor is identified by its name (["Promise"] for the
    host's own, ["lie"] for the library the tests configure). *)
Definition ctor := string.

Inductive pid :=
| Future (n : nat)
| Inner (n : nat)
| Link (n : nat).

(** A promise that was resolved with a thenable is [Following] it: it is
    not settled yet, its resolving functions no longer do anything, and it
    settles as and when the thenable answers. *)
Inductive pstate :=
| Pending
| Fulfilled (v : value)
| Rejected (reason : value)
| Following (t : nat).

(** What [resolve(v)] makes of a pending promise. *)
Definition resolution (v : value) : pstate :=
  match v with VThenable t => Following t | _ => Fulfilled v end.

(** The two functions a promise constructor hands to its executor. *)
Inductive resolver :=
| ResolveOf (p : pid)
| RejectOf (p : pid).

Definition target (r : resolver) : pid :=
  match r with ResolveOf p => p | RejectOf p => p end.

(** What is waiting on a promise: the driver's [then] callback (with the
    promise [then] returned), or a promise that was resolved with this one. *)
Inductive reaction :=
| ThenStep (derived : pid)
| Adopt (derived : pid).

Record promise := {
  p_ctor : ctor;
  p_state : pstate;
  p_reactions : list reaction
}.

Inductive job :=
| RunStep (derived : pid)
| Pass (derived : pid) (st : pstate).

Inductive kind := Succeed | Fail.

(** [promiseFunction]: the callback submitted to the queue. *)
Record promiseFunction := {
  sync : list (kind * value);
  throws : option value;
  async : list (kind * value)
}.

(** The object literal [{ fn, localResolve, localReject }]. *)
Record entry := {
  fn : promiseFunction;
  localResolve : resolver;
  localReject : resolver
}.

(** The closure returned by [finishPromise]. *)
Record finish := {
  localFn : resolver;
  globalResolveFn : resolver
}.

(** What is recorded in the trace: a unit was invoked, a handle was called,
    a promise was resolved ([Settled p st]: fulfilled, rejected, or made to
    follow a thenable). *)
Inductive obs :=
| Invoked (e : entry)
| Called (f : finish) (v : value)
| Settled (p : pid) (st : pstate).

(** The fields of a [Pique] object. *)
Record Pique := {
  _globalPromise : pid;
  _promiseFunctionArray : list entry
}.

(** A queue instance with the promises it created, the jobs waiting for
    them, the handles given to the units invoked so far and the trace of
    what has been observed. *)
Record store := {
  self : Pique;
  futures : list promise;
  inners : list promise;
  links : list promise;
  jobs : list job;
  issued : list (promiseFunction * finish * finish);
  log : list obs
}.

#[global] Instance value_eq_dec : EqDecision value.
Proof. solve_decision. Defined.

#[global] Instance pid_eq_dec : EqDecision pid.
Proof. solve_decision. Defined.

#[global] Instance pstate_eq_dec : EqDecision pstate.
Proof. solve_decision. Defined.

#[global] Instance resolver_eq_dec : EqDecision resolver.
Proof. solve_decision. Defined.

#[global] Instance kind_eq_dec : EqDecision kind.
Proof. solve_decision. Defined.

#[global] Instance promiseFunction_eq_dec : EqDecision promiseFunction.
Proof. solve_decision. Defined.

#[global] Instance entry_eq_dec : EqDecision entry.
Proof. solve_decision. Defined.

#[global] Instance finish_eq_dec : EqDecision finish.
Proof. solve_decision. Defined.

(** ** Field updates *)

Definition set_self (f : Pique -> Pique) (s : store) : store :=
  {| self := f (self s); futures := futures s; inners := inners s;
     links := links s; jobs := jobs s; issued := issued s; log := log s |}.

Definition set_futures (f : list promise -> list promise) (s : store) : store :=
  {| self := self s; futures := f (futures s); inners := inners s;
     links := links s; jobs := jobs s; issued := issued s; log := log s |}.

Definition set_inners (f : list promise -> list promise) (s : store) : store :=
  {| self := self s; futures := futures s; inners := f (inners s);
     links := links s; jobs := jobs s; issued := issued s; log := log s |}.

Definition set_links (f : list promise -> list promise) (s : store) : store :=
  {| self := self s; futures := futures s; inners := inners s;
     links := f (links s); jobs := jobs s; issued := issued s; log := log s |}.

Definition set_jobs (f : list job -> list job) (s : store) : store :=
  {| self := self s; futures := futures s; inners := inners s;
     links := links s; jobs := f (jobs s); issued := issued s; log := log s |}.

Definition set_issued
    (f : list (promiseFunction * finish * finish) ->
         list (promiseFunction * finish * finish)) (s : store) : store :=
  {| self := self s; futures := futures s; inners := inners s;
     links := links s; jobs := jobs s; issued := f (issued s); log := log s |}.

Definition set_log (f : list obs -> list obs) (s : store) : store :=
  {| self := self s; futures := futures s; inners := inners s;
     links := links s; jobs := jobs s; issued := issued s; log := f (log s) |}.

Definition emit (o : obs) : store -> store := set_log (fun l => l ++ [o]).

Definition enqueue (js : list job) : store -> store :=
  set_jobs (fun q => q ++ js).

(** ** The promise heap *)

Definition cell (p : pid) (s : store) : option promise :=
  match p with
  | Future n => futures s !! n
  | Inner n => inners s !! n
  | Link n => links s !! n
  end.

Definition set_cell (p : pid) (c : promise) : store -> store :=
  match p with
  | Future n => set_futures (fun h => <[n := c]> h)
  | Inner n => set_inners (fun h => <[n := c]> h)
  | Link n => set_links (fun h => <[n := c]> h)
  end.

Definition pending (c : ctor) : promise :=
  {| p_ctor := c; p_state := Pending; p_reactions := [] |}.

(** The job a reaction turns into once its promise has settled. A [then]
    callback without a rejection handler passes a rejection on. *)
Definition schedule (st : pstate) (r : reaction) : job :=
  match r with
  | ThenStep d =>
      match st with Fulfilled _ => RunStep d | _ => Pass d st end
  | Adopt d => Pass d st
  end.

(** The cell of a pending promise once [st] has taken effect on it, and
    the jobs this makes: a promise that starts following a thenable keeps
    its reactions waiting. *)
Definition settled_cell (st : pstate) (c : promise) : promise :=
  {| p_ctor := p_ctor c; p_state := st;
     p_reactions := match st with Following _ => p_reactions c | _ => [] end |}.

Definition reaction_jobs (st : pstate) (c : promise) : list job :=
  match st with
  | Following _ => []
  | _ => map (schedule st) (p_reactions c)
  end.

(** The resolving functions are a no-op on a promise that is not pending. *)
Definition settle (p : pid) (st : pstate) (s : store) : store :=
  match cell p s with
  | Some c =>
      match p_state c with
      | Pending =>
          emit (Settled p st)
            (enqueue (reaction_jobs st c) (set_cell p (settled_cell st c) s))
      | _ => s
      end
  | None => s
  end.

(** [resolve(v)] and [reject(v)]: only [resolve] looks into its argument. *)
Definition call_resolver (r : resolver) (v : value) : store -> store :=
  match r with
  | ResolveOf p => settle p (resolution v)
  | RejectOf p => settle p (Rejected v)
  end.

(** ** Computations that may throw *)

Definition M (A : Type) : Type := store -> (A + value) * store.

Definition ret {A} (a : A) : M A := fun s => (inl a, s).

Definition throw {A} (e : value) : M A := fun s => (inr e, s).

Definition bind {A B} (m : M A) (k : A -> M B) : M B :=
  fun s =>
    match m s with
    | (inl a, s') => k a s'
    | (inr e, s') => (inr e, s')
    end.

Definition lift (f : store -> store) : M unit := fun s => (inl tt, f s).

Definition gets {A} (f : store -> A) : M A := fun s => (inl (f s), s).

Notation "'let*' x ':=' m 'in' k" := (bind m (fun x => k))
  (at level 10, x name, m at level 100, k at level 200).

Notation "m ';;' k" := (bind m (fun _ => k))
  (at level 100, right associativity).

Inductive site := FutureSite | InnerSite.

Definition alloc (k : site) (c : promise) : M pid :=
  fun s =>
    match k with
    | FutureSite =>
        (inl (Future (length (futures s))), set_futures (fun h => h ++ [c]) s)
    | InnerSite =>
        (inl (Inner (length (inners s))), set_inners (fun h => h ++ [c]) s)
    end.

(** [new C(executor)]: the executor runs during the call; if it throws, the
    promise is rejected with what was thrown. *)
Definition new_promise (k : site) (c : ctor)
    (executor : resolver -> resolver -> M unit) : M pid :=
  fun s =>
    match alloc k (pending c) s with
    | (inl p, s1) =>
        match executor (ResolveOf p) (RejectOf p) s1 with
        | (inl _, s2) => (inl p, s2)
        | (inr e, s2) => (inl p, settle p (Rejected e) s2)
        end
    | (inr e, s1) => (inr e, s1)
    end.

(** [new LocalPromise(executor)], where [LocalPromise] may be undefined. *)
Definition new_LocalPromise (LocalPromise : option ctor) (k : site)
    (executor : resolver -> resolver -> M unit) : M pid :=
  match LocalPromise with
  | Some c => new_promise k c executor
  | None => throw (VError "TypeError" "LocalPromise is not a constructor")
  end.

(** [p.then(callback)] for the driver's callback: a new link of the chain,
    made by the constructor of [p]. *)
Definition then_ (p : pid) : M pid :=
  fun s =>
    match cell p s with
    | Some c =>
        let d := Link (length (links s)) in
        let s1 := set_links (fun h => h ++ [pending (p_ctor c)]) s in
        (inl d,
         match p_state c with
         | Pending =>
             set_cell p {| p_ctor := p_ctor c; p_state := Pending;
                           p_reactions := p_reactions c ++ [ThenStep d] |} s1
         | Following t =>
             set_cell p {| p_ctor := p_ctor c; p_state := Following t;
                           p_reactions := p_reactions c ++ [ThenStep d] |} s1
         | st => enqueue [schedule st (ThenStep d)] s1
         end)
    | None =>
        (inr (VError "TypeError" "Cannot read property 'then' of undefined"), s)
    end.

(** ** pique.js *)

(** [function finishPromise (localFn, globalResolveFn)] builds the closure;
    [call_finish] is its body: [localFn(value); globalResolveFn();]. *)
Definition finishPromise (localFn globalResolveFn : resolver) : finish :=
  {| localFn := localFn; globalResolveFn := globalResolveFn |}.

Definition call_finish (f : finish) (value : value) (s : store) : store :=
  call_resolver (globalResolveFn f) VUndefined
    (call_resolver (localFn f) value (emit (Called f value) s)).

Definition handle (resolve reject : finish) (k : kind) : finish :=
  match k with Succeed => resolve | Fail => reject end.

Definition run_calls (resolve reject : finish)
    (calls : list (kind * value)) (s : store) : store :=
  fold_left (fun s c => call_finish (handle resolve reject c.1) c.2 s) calls s.

(** [nextPromise.fn(resolve, reject)]. *)
Definition call_fn (e : entry) (resolve reject : finish) : M unit :=
  fun s =>
    let s1 := set_issued (fun l => l ++ [(fn e, resolve, reject)])
                (emit (Invoked e) s) in
    let s2 := run_calls resolve reject (sync (fn e)) s1 in
    match throws (fn e) with
    | Some x => (inr x, s2)
    | None => (inl tt, s2)
    end.

(** [self._promiseFunctionArray.shift()]. *)
Definition array_shift : M (option entry) :=
  fun s =>
    match _promiseFunctionArray (self s) with
    | [] => (inl None, s)
    | e :: rest =>
        (inl (Some e),
         set_self (fun q => {| _globalPromise := _globalPromise q;
                               _promiseFunctionArray := rest |}) s)
    end.

Definition set_globalPromise (g : pid) : M unit :=
  lift (set_self (fun q => {| _globalPromise := g;
                              _promiseFunctionArray := _promiseFunctionArray q |})).

Definition array_push (value : entry) : M unit :=
  lift (set_self (fun q =>
    {| _globalPromise := _globalPromise q;
       _promiseFunctionArray := _promiseFunctionArray q ++ [value] |})).

Definition array_unshift (value : entry) : M unit :=
  lift (set_self (fun q =>
    {| _globalPromise := _globalPromise q;
       _promiseFunctionArray := value :: _promiseFunctionArray q |})).

Section Methods.

(** The module variable, as read by the code below. *)
Variable LocalPromise : option ctor.

(** The callback given to [then] in [_changeQueue]. *)
Definition step : M pid :=
  new_LocalPromise LocalPromise InnerSite (fun globalResolve _ =>
    let* nextPromise := array_shift in
    match nextPromise with
    | Some nextPromise =>
        call_fn nextPromise
          (finishPromise (localResolve nextPromise) globalResolve)
          (finishPromise (localReject nextPromise) globalResolve)
    | None =>
        throw (VError "TypeError" "Cannot read property 'fn' of undefined")
    end).

Definition enqueue_step (fn : promiseFunction)
    (unshiftOrPushFn : entry -> M unit) : M pid :=
  new_LocalPromise LocalPromise FutureSite (fun localResolve localReject =>
    unshiftOrPushFn {| fn := fn; localResolve := localResolve;
                       localReject := localReject |} ;;
    let* g := gets (fun s => _globalPromise (self s)) in
    let* g' := then_ g in
    set_globalPromise g').

(** [Pique.prototype._changeQueue] of the unbundled module. *)
Definition _changeQueue (fn : promiseFunction)
    (unshiftOrPushFn : entry -> M unit) : M pid :=
  match LocalPromise with
  | None => throw (VError "Error" "A Promise library set by .configure")
  | Some _ => enqueue_step fn unshiftOrPushFn
  end.

(** [Pique.prototype._changeQueue] of the webpack bundle. *)
Definition _changeQueue_bundled (fn : promiseFunction)
    (unshiftOrPushFn : entry -> M unit) : M pid :=
  enqueue_step fn unshiftOrPushFn.

Definition push (fn : promiseFunction) : M pid :=
  _changeQueue fn array_push.

Definition unshift (fn : promiseFunction) : M pid :=
  _changeQueue fn array_unshift.

(** ** Jobs *)

(** A promise resolved with another promise follows it. *)
Definition follow (d i : pid) (s : store) : store :=
  match cell i s with
  | Some c =>
      match p_state c with
      | Pending =>
          set_cell i {| p_ctor := p_ctor c; p_state := Pending;
                        p_reactions := p_reactions c ++ [Adopt d] |} s
      | Following t =>
          set_cell i {| p_ctor := p_ctor c; p_state := Following t;
                        p_reactions := p_reactions c ++ [Adopt d] |} s
      | st => enqueue [Pass d st] s
      end
  | None => s
  end.

Definition run_job (j : job) (s : store) : store :=
  match j with
  | RunStep d =>
      match step s with
      | (inl i, s1) => follow d i s1
      | (inr e, s1) => settle d (Rejected e) s1
      end
  | Pass d st => settle d st s
  end.

Definition tick (s : store) : store :=
  match jobs s with
  | [] => s
  | j :: rest => run_job j (set_jobs (fun _ => rest) s)
  end.

End Methods.

(** The [n]-th invoked unit makes its late calls. *)
Definition timer (n : nat) (s : store) : store :=
  match issued s !! n with
  | Some (f, resolve, reject) => run_calls resolve reject (async f) s
  | None => s
  end.

Inductive event :=
| Push (fn : promiseFunction)
| Unshift (fn : promiseFunction)
| Tick
| Timer (n : nat).

Definition istep (LocalPromise : option ctor) (ev : event) (s : store) : store :=
  match ev with
  | Push fn => (push LocalPromise fn s).2
  | Unshift fn => (unshift LocalPromise fn s).2
  | Tick => tick LocalPromise s
  | Timer n => timer n s
  end.

Definition irun (evs : list (option ctor * event)) (s : store) : store :=
  fold_left (fun s x => istep x.1 x.2 s) evs s.

(** [function Pique ()]: the state of a queue built with constructor [c]. *)
Definition Pique_new (c : ctor) : store :=
  {| self := {| _globalPromise := Link 0; _promiseFunctionArray := [] |};
     futures := []; inners := [];
     links := [{| p_ctor := c; p_state := Fulfilled VTrue; p_reactions := [] |}];
     jobs := []; issued := []; log := [] |}.

(** ** Reading the trace *)

Definition invoked (l : list obs) : list entry :=
  omap (fun o => match o with Invoked e => Some e | _ => None end) l.

Definition executed (s : store) : list promiseFunction :=
  fn <$> invoked (log s).

Definition timeline (s : store) : list entry :=
  invoked (log s) ++ _promiseFunctionArray (self s).

(** ** The test suite's scenarios *)

Definition after (v : value) : promiseFunction :=
  {| sync := []; throws := None; async := [(Succeed, v)] |}.

Definition fail_after (v : value) : promiseFunction :=
  {| sync := []; throws := None; async := [(Fail, v)] |}.

Definition now (v : value) : promiseFunction :=
  {| sync := [(Succeed, v)]; throws := None; async := [] |}.

Definition fail_now (v : value) : promiseFunction :=
  {| sync := [(Fail, v)]; throws := None; async := [] |}.

Definition lie : option ctor := Some "lie"%string.

Definition on (c : option ctor) (evs : list event) :
    list (option ctor * event) :=
  (fun e => (c, e)) <$> evs.

(** ** The module and its instances *)

Record world := {
  LocalPromise : option ctor;
  queues : list store
}.

(** [var LocalPromise = global.Promise;] *)
Definition module_init (global_Promise : option ctor) : world :=
  {| LocalPromise := global_Promise; queues := [] |}.

(** [Pique.configure = function (promiseCtor) { LocalPromise = promiseCtor; }] *)
Definition configure (promiseCtor : option ctor) (w : world) : world :=
  {| LocalPromise := promiseCtor; queues := queues w |}.

(** [new Pique()]: [LocalPromise.resolve(true)] is evaluated first. *)
Definition new_Pique (w : world) : (nat + value) * world :=
  match LocalPromise w with
  | Some c =>
      (inl (length (queues w)),
       {| LocalPromise := LocalPromise w; queues := queues w ++ [Pique_new c] |})
  | None =>
      (inr (VError "TypeError" "Cannot read property 'resolve' of undefined"),
       w)
  end.

Inductive wevent :=
| Configure (promiseCtor : option ctor)
| New
| At (q : nat) (ev : event).

Definition wstep (ev : wevent) (w : world) : world :=
  match ev with
  | Configure c => configure c w
  | New => (new_Pique w).2
  | At q ev =>
      match queues w !! q with
      | Some s =>
          {| LocalPromise := LocalPromise w;
             queues := <[q := istep (LocalPromise w) ev s]> (queues w) |}
      | None => w
      end
  end.

Definition wrun (evs : list wevent) (w : world) : world :=
  fold_left (fun w ev => wstep ev w) evs w.

Definition is_configure (ev : wevent) : bool :=
  match ev with Configure _ => true | _ => false end.

(** ** The two copies of [_changeQueue] *)

(** Two results of a call agree when they leave the same store and either
    both return the same promise or both throw. *)
Definition same_behaviour (r1 r2 : (pid + value) * store) : Prop :=
  r1.2 = r2.2 /\
  match r1.1, r2.1 with
  | inl p1, inl p2 => p1 = p2
  | inr _, inr _ => True
  | _, _ => False
  end.

(** * The invariants, the trace and the scheduler *)

Definition new_entry (fn : promiseFunction) (s : store) : entry :=
  {| fn := fn; localResolve := ResolveOf (Future (length (futures s)));
     localReject := RejectOf (Future (length (futures s))) |}.

Definition insert_entry (front : bool) (e : entry) (l : list entry) :=
  if front then e :: l else l ++ [e].

Definition inserter (front : bool) : entry -> M unit :=
  if front then array_unshift else array_push.

(** The store after a submission, when the tail of the chain is the link
    [t] holding [g]. *)
Definition submitted (c : ctor) (front : bool) (fn : promiseFunction)
    (t : nat) (g : promise) (s : store) : store :=
  {| self := {| _globalPromise := Link (length (links s));
                _promiseFunctionArray :=
                  insert_entry front (new_entry fn s)
                    (_promiseFunctionArray (self s)) |};
     futures := futures s ++ [pending c];
     inners := inners s;
     links :=
       match p_state g with
       | Pending =>
           <[t := {| p_ctor := p_ctor g; p_state := Pending;
                     p_reactions :=
                       p_reactions g ++ [ThenStep (Link (length (links s)))] |}]>
             (links s ++ [pending (p_ctor g)])
       | Following t' =>
           <[t := {| p_ctor := p_ctor g; p_state := Following t';
                     p_reactions :=
                       p_reactions g ++ [ThenStep (Link (length (links s)))] |}]>
             (links s ++ [pending (p_ctor g)])
       | _ => links s ++ [pending (p_ctor g)]
       end;
     jobs :=
       match p_state g with
       | Pending | Following _ => jobs s
       | st => jobs s ++ [schedule st (ThenStep (Link (length (links s))))]
       end;
     issued := issued s;
     log := log s |}.

(** ** Field-wise description of [settle] *)

Definition settle_in (j : nat) (st : pstate) (h : list promise) : list promise :=
  match h !! j with
  | Some c =>
      match p_state c with
      | Pending => <[j := settled_cell st c]> h
      | _ => h
      end
  | None => h
  end.

Definition wake (st : pstate) (oc : option promise) : list job :=
  match oc with
  | Some c =>
      match p_state c with
      | Pending => reaction_jobs st c
      | _ => []
      end
  | None => []
  end.

Definition news (p : pid) (st : pstate) (oc : option promise) : list obs :=
  match oc with
  | Some c => match p_state c with Pending => [Settled p st] | _ => [] end
  | None => []
  end.

Definition quiet (c : promise) : Prop := p_reactions c = [].

Definition outcome (r : resolver) (v : value) : pstate :=
  match r with ResolveOf _ => resolution v | RejectOf _ => Rejected v end.

(** A handle of the unit whose future is [Future j] and whose driver step
    made [Inner i]. *)
Definition handle_for (j i : nat) (f : finish) : Prop :=
  target (localFn f) = Future j /\ globalResolveFn f = ResolveOf (Inner i).

Definition nonempty {A} (l : list A) : bool :=
  match l with [] => false | _ => true end.

(** ** Invariants *)

Definition future_of (e : entry) : pid := target (localResolve e).

Definition wf_entry (n : nat) (e : entry) : Prop :=
  exists j, j < n /\ localResolve e = ResolveOf (Future j) /\
            localReject e = RejectOf (Future j).

Definition handles_of (e : entry) (i : nat) :
    promiseFunction * finish * finish :=
  (fn e, finishPromise (localResolve e) (ResolveOf (Inner i)),
         finishPromise (localReject e) (ResolveOf (Inner i))).

Definition handles_ok (s : store) : Prop :=
  forall i x, issued s !! i = Some x ->
    exists e, invoked (log s) !! i = Some e /\ x = handles_of e i.

Record base (s : store) : Prop := {
  b_global : _globalPromise (self s) = Link (pred (length (links s)));
  b_links : length (links s) = S (length (timeline s));
  b_futures : length (futures s) = length (timeline s);
  b_quiet : Forall quiet (futures s);
  b_entries : Forall (wf_entry (length (futures s))) (timeline s);
  b_nodup : NoDup (future_of <$> timeline s);
  b_issued : length (issued s) = length (invoked (log s));
  b_inners : length (inners s) = length (invoked (log s));
  b_handles : handles_ok s
}.

Definition is_fulfilled (c : promise) : Prop := exists v, p_state c = Fulfilled v.

Definition chain (k : nat) (h : list promise) : Prop :=
  forall j c, h !! j = Some c ->
    if decide (j < k) then is_fulfilled c /\ quiet c
    else p_state c = Pending /\
         p_reactions c =
           if decide (S j < length h) then [ThenStep (Link (S j))] else [].

Definition passes_rejection (j : job) : Prop :=
  exists d r, j = Pass (Link d) (Rejected r).

Definition link_reactions (c : promise) : Prop :=
  Forall (fun r => exists j, r = ThenStep (Link j)) (p_reactions c).

Definition rejected (c : promise) : bool :=
  match p_state c with Rejected _ => true | _ => false end.

(** Some promise of the driver has been rejected. *)
Definition doomed (s : store) : Prop :=
  exists c, (c ∈ links s \/ c ∈ inners s) /\ rejected c = true.

Inductive phase (s : store) : Prop :=
| Idle :
    chain (length (links s)) (links s) ->
    length (links s) = S (length (issued s)) ->
    jobs s = [] ->
    Forall is_fulfilled (inners s) -> phase s
| Scheduled :
    chain (S (length (issued s))) (links s) ->
    S (length (issued s)) < length (links s) ->
    jobs s = [RunStep (Link (S (length (issued s))))] ->
    Forall is_fulfilled (inners s) -> phase s
| Running rest c :
    chain (length (issued s)) (links s) ->
    jobs s = [] ->
    inners s = rest ++ [c] -> Forall is_fulfilled rest ->
    p_state c = Pending ->
    p_reactions c = [Adopt (Link (length (issued s)))] ->
    (forall x, last (issued s) = Some x ->
       nonempty (sync x.1.1) = false /\ throws x.1.1 = None) -> phase s
| Resuming v :
    chain (length (issued s)) (links s) ->
    jobs s = [Pass (Link (length (issued s))) (Fulfilled v)] ->
    Forall is_fulfilled (inners s) -> phase s
| Dead :
    Forall passes_rejection (jobs s) ->
    Forall (fun c => p_state c <> Pending) (inners s) ->
    (forall c, links s !! pred (length (links s)) = Some c -> ~ is_fulfilled c) ->
    Forall link_reactions (links s) ->
    doomed s -> phase s.

Definition Inv (s : store) : Prop := base s /\ phase s.

(** The store at the moment the driver's callback hands [e] its handles. *)
Definition started (c : ctor) (e : entry) (rest : list entry) (s : store) :
    store :=
  {| self := {| _globalPromise := _globalPromise (self s);
                _promiseFunctionArray := rest |};
     futures := futures s;
     inners := inners s ++ [pending c];
     links := links s;
     jobs := jobs s;
     issued := issued s ++ [handles_of e (length (inners s))];
     log := log s ++ [Invoked e] |}.

Definition thrown (e : entry) (i : nat) (s : store) : store :=
  match throws (fn e) with
  | Some x => settle (Inner i) (Rejected x) s
  | None => s
  end.

Definition stepped (c : ctor) (e : entry) (rest : list entry) (s : store) :
    store :=
  thrown e (length (inners s))
    (run_calls (handles_of e (length (inners s))).1.2
               (handles_of e (length (inners s))).2
               (sync (fn e)) (started c e rest s)).

(** ** One driver step, field by field *)

Definition inner_state (e : entry) : pstate :=
  if nonempty (sync (fn e)) then Fulfilled VUndefined
  else match throws (fn e) with Some x => Rejected x | None => Pending end.

(** ** What the trace says *)

Definition calls_on (p : pid) (l : list obs) : list (resolver * value) :=
  omap (fun o =>
    match o with
    | Called f v =>
        if decide (target (localFn f) = p) then Some (localFn f, v) else None
    | _ => None
    end) l.

Definition reported_outcome (p : pid) (l : list obs) : pstate :=
  match calls_on p l with
  | [] => Pending
  | rv :: _ => outcome rv.1 rv.2
  end.

Definition observed (l : list obs) : list (pid * pstate) :=
  omap (fun o =>
    match o with
    | Settled (Future j) st => Some (Future j, st)
    | _ => None
    end) l.

Definition issued_handle (s : store) (f : finish) : Prop :=
  exists i x, issued s !! i = Some x /\ (f = x.1.2 \/ f = x.2).

Definition gated (l : list obs) : Prop :=
  forall l1 e l2, l = l1 ++ Invoked e :: l2 ->
    forall e0, e0 ∈ invoked l1 -> calls_on (future_of e0) l1 <> [].

Definition is_invoked (o : obs) : bool :=
  match o with Invoked _ => true | _ => false end.

Definition backstage (o : obs) : Prop :=
  match o with
  | Settled (Future _) _ => False
  | Settled _ _ => True
  | _ => False
  end.

Record traced (s : store) : Prop := {
  t_calls : forall f v, Called f v ∈ log s -> issued_handle s f;
  t_state : forall j c, futures s !! j = Some c ->
    p_state c = reported_outcome (Future j) (log s);
  t_reported : forall i e c, invoked (log s) !! i = Some e ->
    inners s !! i = Some c -> is_fulfilled c ->
    calls_on (future_of e) (log s) <> [];
  t_gated : gated (log s);
  t_order : (observed (log s)).*1 `prefix_of` future_of <$> invoked (log s);
  t_seen : forall j c, futures s !! j = Some c -> p_state c <> Pending ->
    (Future j, p_state c) ∈ observed (log s);
  t_values : forall j st, (Future j, st) ∈ observed (log s) ->
    exists c, futures s !! j = Some c /\ p_state c = st /\ st <> Pending
}.

Definition was_pending (oc : option promise) : bool :=
  match oc with
  | Some c => match p_state c with Pending => true | _ => false end
  | None => false
  end.

Definition Good (s : store) : Prop := base s /\ phase s /\ traced s.

(** ** Running the queue to completion *)

Definition reports (f : promiseFunction) : bool :=
  nonempty (sync f) ||
  match throws f with None => nonempty (async f) | Some _ => false end.

Definition awaiting (s : store) : bool := was_pending (last (inners s)).

Definition next_event (s : store) : option event :=
  match jobs s with
  | _ :: _ => Some Tick
  | [] => if awaiting s then Some (Timer (pred (length (issued s)))) else None
  end.

Fixpoint complete (lp : option ctor) (fuel : nat) (s : store) : store :=
  match fuel with
  | 0 => s
  | S n =>
      match next_event s with
      | Some ev => complete lp n (istep lp ev s)
      | None => s
      end
  end.

Definition alive (s : store) : bool :=
  negb (existsb rejected (links s ++ inners s)).

Definition weight (s : store) : nat :=
  3 * length (_promiseFunctionArray (self s)) +
  (if awaiting s then 2
   else match jobs s with Pass _ _ :: _ => 1 | _ => 0 end).

Definition unrejected (h : list promise) : Prop :=
  Forall (fun c => rejected c = false) h.

(** ** Runs in which an implementation is configured and every unit
    reports *)

Definition behaved_event (x : option ctor * event) : bool :=
  match x with
  | (None, _) => false
  | (Some _, Push f) => reports f
  | (Some _, Unshift f) => reports f
  | (Some _, _) => true
  end.

Definition behaved (evs : list (option ctor * event)) : bool :=
  forallb behaved_event evs.

Record Live (s : store) : Prop := {
  live_good : Good s;
  live_alive : alive s = true;
  live_reports : Forall (fun e => reports (fn e) = true) (timeline s)
}.

(** ** Order of execution *)

Definition submit (front : bool) (fn : promiseFunction) : event :=
  if front then Unshift fn else Push fn.

Definition precedes {A} (l : list A) (a b : A) : Prop :=
  exists l1 l2 l3, l = l1 ++ a :: l2 ++ b :: l3.

(** ** Failures do not reach the driver *)







(** ** Runs that only push *)

Definition pushed (evs : list (option ctor * event)) : list promiseFunction :=
  omap (fun x => match x with (Some _, Push f) => Some f | _ => None end) evs.


(** ** Which constructor built which promise *)

Definition ctors (s : store) : list ctor * list ctor * list ctor :=
  (p_ctor <$> futures s, p_ctor <$> inners s, p_ctor <$> links s).

(** * Further definitions *)

(** No call can change [p] any more: it is settled, or no such promise
    exists. *)
Definition final (p : pid) (s : store) : Prop :=
  forall c, cell p s = Some c -> p_state c <> Pending.

Definition built_with (c0 : ctor) (h : list promise) : Prop :=
  Forall (fun c => p_ctor c = c0) h.

(** [Pique.prototype.push] and [Pique.prototype.unshift] of the webpack
    bundle. *)
Definition push_bundled (LocalPromise : option ctor) (fn : promiseFunction) :
    M pid :=
  _changeQueue_bundled LocalPromise fn array_push.

Definition unshift_bundled (LocalPromise : option ctor)
    (fn : promiseFunction) : M pid :=
  _changeQueue_bundled LocalPromise fn array_unshift.

Definition istep_bundled (LocalPromise : option ctor) (ev : event)
    (s : store) : store :=
  match ev with
  | Push fn => (push_bundled LocalPromise fn s).2
  | Unshift fn => (unshift_bundled LocalPromise fn s).2
  | Tick => tick LocalPromise s
  | Timer n => timer n s
  end.

Definition irun_bundled (evs : list (option ctor * event)) (s : store) :
    store :=
  fold_left (fun s x => istep_bundled x.1 x.2 s) evs s.

(** The promise does not follow a thenable. *)
Definition not_following (c : promise) : Prop :=
  forall t, p_state c <> Following t.

(** No promise of the driver follows a thenable: the values of the units
    reach the futures only. *)
Definition calm (s : store) : Prop :=
  Forall not_following (links s) /\ Forall not_following (inners s).

(** Every promise that is no longer pending in [s] (it is settled, or it
    follows a thenable) is the same in [s']. *)
Definition keeps (s s' : store) : Prop :=
  forall p x, cell p s = Some x -> p_state x <> Pending -> cell p s' = Some x.

(** A unit is in flight and makes no call later on. *)
Definition stalled (s : store) : Prop :=
  awaiting s = true /\
  forall x, last (issued s) = Some x -> async x.1.1 = [].

(** A unit that throws [x] without calling a handle, and one that returns
    without ever calling one. *)
Definition throwing (x : value) : promiseFunction :=
  {| sync := []; throws := Some x; async := [] |}.

Definition silent : promiseFunction :=
  {| sync := []; throws := None; async := [] |}.

(** The units of the accepted [unshift] calls of a run, in the order of the
    calls. *)
Definition unshifted (evs : list (option ctor * event)) :
    list promiseFunction :=
  omap (fun x => match x with (Some _, Unshift f) => Some f | _ => None end)
       evs.

(** A run made of submissions only: no job runs and no unit calls a handle
    in between. *)
Definition only_submissions (evs : list (option ctor * event)) : bool :=
  forallb (fun x => match x.2 with Push _ | Unshift _ => true | _ => false end)
          evs.

(** ** Reports, thenables and the entries of a run *)

(** The state a pending future takes when its unit calls the success or the
    failure handle with [v]. *)
Definition report (k : kind) (v : value) : pstate :=
  match k with Succeed => resolution v | Fail => Rejected v end.

(** The outcome of a sequence of calls on the handles of one unit: that of
    the first call; none as long as there is no call. *)
Definition first_report (calls : list (kind * value)) : pstate :=
  match calls with [] => Pending | c :: _ => report c.1 c.2 end.

(** The futures after the unit of [e] has made [calls]: only the first
    call counts, and only on a future that is still pending. *)
Definition reported (e : entry) (calls : list (kind * value))
    (h : list promise) : list promise :=
  match calls, future_of e with
  | c :: _, Future j => settle_in j (report c.1 c.2) h
  | _, _ => h
  end.

(** The entry whose unit an event lets run: the head of the pending
    sequence for the driver's callback, the [i]-th invoked unit for its
    late calls. *)
Definition served (lp : option ctor) (ev : event) (s : store) : option entry :=
  match ev with
  | Tick =>
      match lp, jobs s with
      | Some _, RunStep _ :: _ => head (_promiseFunctionArray (self s))
      | _, _ => None
      end
  | Timer i => invoked (log s) !! i
  | _ => None
  end.

(** The calls a unit makes when an event lets it run: those of its body
    for the driver's callback, the late ones for a timer. *)
Definition calls_at (ev : event) (f : promiseFunction) : list (kind * value) :=
  match ev with Tick => sync f | Timer _ => async f | _ => [] end.

(** The futures after an event: a submission adds a pending one, built by
    the configured implementation; any other event changes at most the
    future of the entry it serves. *)
Definition futures_after (lp : option ctor) (ev : event) (s : store) :
    list promise :=
  match ev with
  | Push _ | Unshift _ =>
      match lp with Some c => futures s ++ [pending c] | None => futures s end
  | _ =>
      match served lp ev s with
      | Some e => reported e (calls_at ev (fn e)) (futures s)
      | None => futures s
      end
  end.

(** The promise follows the thenable [t]. *)
Definition follows (t : nat) (c : promise) : bool :=
  match p_state c with Following t' => bool_decide (t' = t) | _ => false end.

(** A cell after the thenable [t] has answered with [st]. *)
Definition answered (t : nat) (st : pstate) (c : promise) : promise :=
  if follows t c then settled_cell st c else c.

(** The thenable [t] answers the future [j]: it calls the success
    ([Succeed]) or the failure ([Fail]) function that [j] gave it when it
    began to follow [t]. The call counts only while [j] follows [t]. Only
    futures follow thenables: the values of the units reach nothing else. *)
Definition answers (t j : nat) (k : kind) (v : value) (s : store) : store :=
  match futures s !! j with
  | Some c =>
      if follows t c then
        emit (Settled (Future j) (report k v))
          (enqueue (reaction_jobs (report k v) c)
             (set_cell (Future j) (settled_cell (report k v) c) s))
      else s
  | None => s
  end.

(** What can happen to a queue: an event of the queue itself, or a
    thenable that answers a future. *)
Inductive xevent :=
| Of (x : option ctor * event)
| Answers (t j : nat) (k : kind) (v : value).

Definition xstep (x : xevent) (s : store) : store :=
  match x with
  | Of x => istep x.1 x.2 s
  | Answers t j k v => answers t j k v s
  end.

Definition xrun (xs : list xevent) (s : store) : store :=
  fold_left (fun s x => xstep x s) xs s.







(** The entries that are still pending have pending futures. *)
Definition unserved (s : store) : Prop :=
  Forall (fun e => exists x, cell (future_of e) s = Some x /\
                             p_state x = Pending)
         (_promiseFunctionArray (self s)).

(** The invariant of the states reached when thenables may answer. *)
Definition Sound (s : store) : Prop := Inv s /\ unserved s.




(** * Properties *)

(** ** The test suite's scenarios *)

Example enqueue_and_run_in_order :
  let s := irun (on lie [Push (after (VNum 10)); Push (fail_after (VNum 100));
                         Push (now (VNum 1000));
                         Tick; Timer 0; Tick; Tick; Timer 1;
                         Tick; Tick; Tick]) (Pique_new "lie") in
  executed s = [after (VNum 10); fail_after (VNum 100); now (VNum 1000)] /\
  p_state <$> futures s =
    [Fulfilled (VNum 10); Rejected (VNum 100); Fulfilled (VNum 1000)] /\
  _promiseFunctionArray (self s) = [] /\ jobs s = [].
Proof. vm_compute. done. Qed.

Example enqueueAtTop_and_run_backwards :
  let s := irun (on lie [Push (after VUndefined);
                         Unshift (now (VStr "first"));
                         Unshift (fail_now (VStr "second"));
                         Unshift (now (VStr "third"));
                         Tick; Tick; Tick; Tick; Tick; Tick; Tick;
                         Timer 3; Tick]) (Pique_new "lie") in
  executed s = [now (VStr "third"); fail_now (VStr "second");
                now (VStr "first"); after VUndefined] /\
  p_state <$> futures s =
    [Fulfilled VUndefined; Fulfilled (VStr "first");
     Rejected (VStr "second"); Fulfilled (VStr "third")] /\
  _promiseFunctionArray (self s) = [] /\ jobs s = [].
Proof. vm_compute. done. Qed.

Example mix_enqueue_and_enqueueAtTop :
  let s := irun (on lie [Unshift (after VUndefined);
                         Push (fail_now (VStr "first"));
                         Unshift (now (VStr "second"));
                         Push (now (VStr "third"));
                         Unshift (fail_now (VStr "fourth"));
                         Tick; Tick; Tick; Tick; Tick; Timer 2;
                         Tick; Tick; Tick; Tick; Tick]) (Pique_new "lie") in
  executed s = [fail_now (VStr "fourth"); now (VStr "second");
                after VUndefined; fail_now (VStr "first");
                now (VStr "third")] /\
  _promiseFunctionArray (self s) = [] /\ jobs s = [].
Proof. vm_compute. done. Qed.

(** ** What each operation leaves alone *)

Lemma invoked_app l1 l2 : invoked (l1 ++ l2) = invoked l1 ++ invoked l2.
Proof. apply omap_app. Qed.

Lemma settle_pending p st s c :
  cell p s = Some c -> p_state c = Pending ->
  settle p st s =
    emit (Settled p st)
      (enqueue (reaction_jobs st c) (set_cell p (settled_cell st c) s)).
Proof. intros H1 H2. unfold settle. by rewrite H1, H2. Qed.

Lemma settle_settled p st s c :
  cell p s = Some c -> p_state c <> Pending -> settle p st s = s.
Proof. intros H1 H2. unfold settle. rewrite H1. by destruct (p_state c). Qed.

Lemma settle_cases p st s :
  (exists c, cell p s = Some c /\ p_state c = Pending /\
     settle p st s =
       emit (Settled p st)
         (enqueue (reaction_jobs st c) (set_cell p (settled_cell st c) s))) \/
  ((forall c, cell p s = Some c -> p_state c <> Pending) /\ settle p st s = s).
Proof.
  destruct (cell p s) as [c|] eqn:E.
  - destruct (decide (p_state c = Pending)) as [Hp|Hp].
    + left. exists c. split_and!; [done..|]. by apply settle_pending.
    + right. split; [naive_solver|]. by eapply settle_settled.
  - right. split; [done|]. unfold settle. by rewrite E.
Qed.

Ltac settle_split p st s :=
  let c := fresh "c" in let Hc := fresh "Hc" in let Hp := fresh "Hp" in
  let Hs := fresh "Hs" in
  destruct (settle_cases p st s) as [(c & Hc & Hp & Hs)|[Hp Hs]];
  rewrite Hs.

Lemma settle_self p st s : self (settle p st s) = self s.
Proof. settle_split p st s; [|done]. by destruct p. Qed.

Lemma settle_issued p st s : issued (settle p st s) = issued s.
Proof. settle_split p st s; [|done]. by destruct p. Qed.

Lemma settle_invoked p st s : invoked (log (settle p st s)) = invoked (log s).
Proof.
  settle_split p st s; [|done]. destruct p; simpl;
    by rewrite invoked_app, app_nil_r.
Qed.

Lemma call_resolver_self r v s : self (call_resolver r v s) = self s.
Proof. destruct r; apply settle_self. Qed.

Lemma call_resolver_issued r v s : issued (call_resolver r v s) = issued s.
Proof. destruct r; apply settle_issued. Qed.

Lemma call_resolver_invoked r v s :
  invoked (log (call_resolver r v s)) = invoked (log s).
Proof. destruct r; apply settle_invoked. Qed.

Lemma call_finish_self f v s : self (call_finish f v s) = self s.
Proof. unfold call_finish. by rewrite !call_resolver_self. Qed.

Lemma call_finish_issued f v s : issued (call_finish f v s) = issued s.
Proof. unfold call_finish. by rewrite !call_resolver_issued. Qed.

Lemma call_finish_invoked f v s :
  invoked (log (call_finish f v s)) = invoked (log s).
Proof.
  unfold call_finish. rewrite !call_resolver_invoked. simpl.
  by rewrite invoked_app, app_nil_r.
Qed.

Lemma run_calls_self res rej calls s :
  self (run_calls res rej calls s) = self s.
Proof.
  revert s. induction calls as [|c calls IH]; intros s; simpl; [done|].
  by rewrite IH, call_finish_self.
Qed.

Lemma run_calls_invoked res rej calls s :
  invoked (log (run_calls res rej calls s)) = invoked (log s).
Proof.
  revert s. induction calls as [|c calls IH]; intros s; simpl; [done|].
  by rewrite IH, call_finish_invoked.
Qed.

Lemma timeline_timer n s : timeline (timer n s) = timeline s.
Proof.
  unfold timer, timeline. destruct (issued s !! n) as [[[f res] rej]|]; [|done].
  by rewrite run_calls_invoked, run_calls_self.
Qed.

Lemma follow_self d i s : self (follow d i s) = self s.
Proof.
  unfold follow. destruct (cell i s) as [c|]; [|done].
  destruct (p_state c); try done; by destruct i.
Qed.

Lemma follow_log d i s : log (follow d i s) = log s.
Proof.
  unfold follow. destruct (cell i s) as [c|]; [|done].
  destruct (p_state c); try done; by destruct i.
Qed.

Lemma timeline_tick lp s : timeline (tick lp s) = timeline s.
Proof.
  unfold tick. destruct (jobs s) as [|j rest]; [done|].
  destruct j as [d|d st]; simpl.
  - destruct lp as [c|]; simpl.
    + unfold step, new_LocalPromise, new_promise; simpl.
      unfold bind, array_shift; simpl.
      destruct (_promiseFunctionArray (self s)) as [|e arr] eqn:E; simpl.
      * unfold timeline. rewrite follow_self, follow_log, settle_self,
          settle_invoked. simpl. by rewrite E.
      * unfold call_fn. destruct (throws (fn e)); simpl;
          unfold timeline; rewrite follow_self, follow_log,
          ?settle_self, ?settle_invoked, run_calls_self, run_calls_invoked;
          simpl; rewrite E, invoked_app; simpl; by rewrite <- app_assoc.
    + unfold timeline. by rewrite settle_self, settle_invoked.
  - unfold timeline. by rewrite settle_self, settle_invoked.
Qed.

Lemma enqueue_step_spec c front fn t g s :
  _globalPromise (self s) = Link t -> links s !! t = Some g ->
  enqueue_step (Some c) fn (inserter front) s =
    (inl (Future (length (futures s))), submitted c front fn t g s).
Proof.
  intros Hg Ht. unfold enqueue_step, new_LocalPromise, new_promise.
  destruct front; simpl; unfold bind; simpl; rewrite Hg; unfold then_; simpl;
    rewrite Ht; unfold submitted; simpl; destruct (p_state g); simpl;
    by rewrite ?app_nil_r.
Qed.

Lemma timeline_submit c front fn s :
  timeline (enqueue_step (Some c) fn (inserter front) s).2 =
    invoked (log s) ++
      insert_entry front (new_entry fn s) (_promiseFunctionArray (self s)).
Proof.
  unfold enqueue_step, new_LocalPromise, new_promise.
  destruct front; simpl; unfold bind, then_; simpl;
    (destruct (cell (_globalPromise (self s)) _) as [g|] eqn:Eg; simpl;
     [destruct (p_state g), (_globalPromise (self s)); done|]);
    unfold timeline; by rewrite settle_self, settle_invoked.
Qed.

Lemma timeline_istep lp ev s :
  timeline (istep lp ev s) =
    match ev, lp with
    | Push fn, Some _ =>
        invoked (log s) ++ _promiseFunctionArray (self s) ++ [new_entry fn s]
    | Unshift fn, Some _ =>
        invoked (log s) ++ new_entry fn s :: _promiseFunctionArray (self s)
    | _, _ => timeline s
    end.
Proof.
  destruct ev as [fn|fn| |n]; simpl.
  - destruct lp as [c|]; [|done]. apply (timeline_submit c false).
  - destruct lp as [c|]; [|done]. apply (timeline_submit c true).
  - destruct lp; apply timeline_tick.
  - destruct lp; apply timeline_timer.
Qed.

(** ** Field-wise description of [settle] *)

Lemma settle_futures p st s :
  futures (settle p st s) =
    match p with Future j => settle_in j st (futures s) | _ => futures s end.
Proof.
  unfold settle, settle_in. destruct p; simpl;
    (destruct (_ !! n) as [c|]; [|done]); by destruct (p_state c).
Qed.

Lemma settle_inners p st s :
  inners (settle p st s) =
    match p with Inner j => settle_in j st (inners s) | _ => inners s end.
Proof.
  unfold settle, settle_in. destruct p; simpl;
    (destruct (_ !! n) as [c|]; [|done]); by destruct (p_state c).
Qed.

Lemma settle_links p st s :
  links (settle p st s) =
    match p with Link j => settle_in j st (links s) | _ => links s end.
Proof.
  unfold settle, settle_in. destruct p; simpl;
    (destruct (_ !! n) as [c|]; [|done]); by destruct (p_state c).
Qed.

Lemma settle_jobs p st s :
  jobs (settle p st s) = jobs s ++ wake st (cell p s).
Proof.
  unfold settle, wake. destruct (cell p s) as [c|]; [|by rewrite app_nil_r].
  destruct (p_state c); rewrite ?app_nil_r; [|done..]. by destruct p.
Qed.

Lemma settle_log p st s :
  log (settle p st s) = log s ++ news p st (cell p s).
Proof.
  unfold settle, news. destruct (cell p s) as [c|]; [|by rewrite app_nil_r].
  destruct (p_state c); rewrite ?app_nil_r; [|done..]. by destruct p.
Qed.

Lemma settle_in_length j st h : length (settle_in j st h) = length h.
Proof.
  unfold settle_in. destruct (h !! j) as [c|]; [|done].
  destruct (p_state c); [|done..]. apply length_insert.
Qed.

Lemma settle_in_lookup j st h i :
  settle_in j st h !! i =
    match h !! i with
    | Some c =>
        if decide (i = j) then
          match p_state c with
          | Pending => Some (settled_cell st c)
          | _ => Some c
          end
        else Some c
    | None => None
    end.
Proof.
  unfold settle_in. destruct (decide (i = j)) as [->|Hne].
  - destruct (h !! j) as [c|] eqn:E; [|by rewrite E].
    destruct (p_state c) eqn:Ep; rewrite ?E; [|done..].
    apply list_lookup_insert_eq. by eapply lookup_lt_Some.
  - destruct (h !! j) as [c|] eqn:E; [|by destruct (h !! i)].
    destruct (p_state c); [|by destruct (h !! i)..].
    rewrite list_lookup_insert_ne by done. by destruct (h !! i).
Qed.

Lemma settle_in_settled j st h :
  (forall c, h !! j = Some c -> p_state c <> Pending) -> settle_in j st h = h.
Proof.
  intros H. unfold settle_in. destruct (h !! j) as [c|]; [|done].
  specialize (H c eq_refl). by destruct (p_state c).
Qed.

Lemma wake_settled st oc :
  (forall c, oc = Some c -> p_state c <> Pending) -> wake st oc = [].
Proof.
  intros H. destruct oc as [c|]; [|done]. specialize (H c eq_refl).
  simpl. by destruct (p_state c).
Qed.

Lemma wake_quiet st oc :
  (forall c, oc = Some c -> p_reactions c = []) -> wake st oc = [].
Proof.
  intros H. destruct oc as [c|]; [|done]. specialize (H c eq_refl).
  simpl. unfold reaction_jobs. rewrite H.
  by destruct (p_state c), st.
Qed.

Lemma settle_in_quiet j st h : Forall quiet h -> Forall quiet (settle_in j st h).
Proof.
  intros H. apply Forall_lookup. intros i c. rewrite settle_in_lookup.
  destruct (h !! i) as [c'|] eqn:E; [|done].
  pose proof (Forall_lookup_1 _ _ _ _ H E) as Hq.
  destruct (decide (i = j)); [|naive_solver].
  destruct (p_state c'); try naive_solver.
  intros [= <-]. unfold quiet, settled_cell. simpl. by destruct st.
Qed.

Lemma call_resolver_settle r v s :
  call_resolver r v s = settle (target r) (outcome r v) s.
Proof. by destruct r. Qed.

Lemma call_finish_fields f v s j i :
  handle_for j i f -> Forall quiet (futures s) ->
  self (call_finish f v s) = self s /\
  links (call_finish f v s) = links s /\
  issued (call_finish f v s) = issued s /\
  inners (call_finish f v s) = settle_in i (Fulfilled VUndefined) (inners s) /\
  jobs (call_finish f v s) =
    jobs s ++ wake (Fulfilled VUndefined) (inners s !! i) /\
  futures (call_finish f v s) =
    settle_in j (outcome (localFn f) v) (futures s) /\
  log (call_finish f v s) =
    log s ++ Called f v :: news (Future j) (outcome (localFn f) v)
                             (futures s !! j) ++
             news (Inner i) (Fulfilled VUndefined) (inners s !! i).
Proof.
  intros [Hl Hg] Hq. unfold call_finish.
  rewrite !call_resolver_settle, Hl, Hg. simpl.
  rewrite settle_self, settle_self, settle_links, settle_links,
    settle_issued, settle_issued, settle_inners, settle_inners,
    settle_jobs, settle_jobs, settle_futures, settle_futures,
    settle_log, settle_log. simpl.
  rewrite settle_inners. simpl.
  rewrite (wake_quiet _ (futures s !! j)), app_nil_r.
  - split_and!; try done. by rewrite <- !app_assoc.
  - intros c Hc. by eapply (Forall_lookup_1 quiet).
Qed.

Lemma settle_in_not_pending j st h c :
  st <> Pending -> settle_in j st h !! j = Some c -> p_state c <> Pending.
Proof.
  intros Hst. rewrite settle_in_lookup. destruct (h !! j) as [c'|]; [|done].
  rewrite decide_True by done.
  destruct (p_state c') eqn:E; intros [= <-]; simpl; congruence.
Qed.

Lemma settle_in_idem j st st' h :
  st <> Pending -> settle_in j st' (settle_in j st h) = settle_in j st h.
Proof. intros Hst. apply settle_in_settled. intros c. by apply settle_in_not_pending. Qed.

Lemma wake_after j st st' h :
  st <> Pending -> wake st' (settle_in j st h !! j) = [].
Proof. intros Hst. apply wake_settled. intros c. by apply settle_in_not_pending. Qed.

Lemma run_calls_fields res rej calls s j i :
  handle_for j i res -> handle_for j i rej -> Forall quiet (futures s) ->
  self (run_calls res rej calls s) = self s /\
  links (run_calls res rej calls s) = links s /\
  issued (run_calls res rej calls s) = issued s /\
  inners (run_calls res rej calls s) =
    (if nonempty calls then settle_in i (Fulfilled VUndefined) (inners s)
     else inners s) /\
  jobs (run_calls res rej calls s) =
    jobs s ++ (if nonempty calls
               then wake (Fulfilled VUndefined) (inners s !! i) else []) /\
  Forall quiet (futures (run_calls res rej calls s)) /\
  length (futures (run_calls res rej calls s)) = length (futures s).
Proof.
  intros Hres Hrej. revert s.
  induction calls as [|[k v] calls IH]; intros s Hq; simpl.
  { by rewrite app_nil_r. }
  assert (Hh : handle_for j i (handle res rej k)) by by destruct k.
  destruct (call_finish_fields _ v s j i Hh Hq)
    as (Hself & Hlinks & Hissued & Hinners & Hjobs & Hfut & Hlog).
  assert (Hq' : Forall quiet (futures (call_finish (handle res rej k) v s))).
  { rewrite Hfut. by apply settle_in_quiet. }
  destruct (IH _ Hq') as (IH1 & IH2 & IH3 & IH4 & IH5 & IH6 & IH7).
  rewrite IH1, IH2, IH3, IH4, IH5, IH7, Hself, Hlinks, Hissued, Hinners,
    Hjobs, Hfut, settle_in_length.
  split_and!; try done.
  - destruct (nonempty calls); [|done]. by apply settle_in_idem.
  - destruct (nonempty calls); rewrite ?app_nil_r; [|done].
    by rewrite wake_after, app_nil_r.
Qed.

(** ** Invariants *)

Lemma base_new c : base (Pique_new c).
Proof.
  split; simpl; try done. constructor.
Qed.

Lemma phase_new c : phase (Pique_new c).
Proof.
  apply Idle; simpl; try done.
  intros [|j] x Hx; [|done]. injection Hx as <-.
  rewrite decide_True by (simpl; lia). split; [by eexists|done].
Qed.

Lemma base_frame s s' :
  self s' = self s -> length (links s') = length (links s) ->
  issued s' = issued s -> invoked (log s') = invoked (log s) ->
  length (inners s') = length (inners s) ->
  length (futures s') = length (futures s) -> Forall quiet (futures s') ->
  base s -> base s'.
Proof.
  intros Hself Hlinks Hissued Hinv Hinners Hfut Hq [].
  assert (Htl : timeline s' = timeline s).
  { unfold timeline. by rewrite Hself, Hinv. }
  split; rewrite ?Hself, ?Hlinks, ?Hissued, ?Hinv, ?Hinners, ?Hfut, ?Htl;
    try done.
  unfold handles_ok. by rewrite Hissued, Hinv.
Qed.

Lemma base_settle p st s : base s -> base (settle p st s).
Proof.
  intros Hb. apply (base_frame s); try done.
  - apply settle_self.
  - rewrite settle_links. destruct p; try done. apply settle_in_length.
  - apply settle_issued.
  - apply settle_invoked.
  - rewrite settle_inners. destruct p; try done. apply settle_in_length.
  - rewrite settle_futures. destruct p; try done. apply settle_in_length.
  - rewrite settle_futures. destruct p; try apply Hb.
    apply settle_in_quiet, Hb.
Qed.

Lemma follow_fields d i s :
  self (follow d (Inner i) s) = self s /\
  links (follow d (Inner i) s) = links s /\
  issued (follow d (Inner i) s) = issued s /\
  futures (follow d (Inner i) s) = futures s /\
  log (follow d (Inner i) s) = log s /\
  length (inners (follow d (Inner i) s)) = length (inners s).
Proof.
  unfold follow. simpl. destruct (inners s !! i) as [c|]; [|done].
  destruct (p_state c); simpl; split_and!; try done; apply length_insert.
Qed.

Lemma base_follow d i s : base s -> base (follow d (Inner i) s).
Proof.
  intros Hb. destruct (follow_fields d i s) as (H1 & H2 & H3 & H4 & H5 & H6).
  apply (base_frame s); try done; try congruence.
  rewrite H4. apply Hb.
Qed.

Lemma base_run_calls res rej calls s j i :
  handle_for j i res -> handle_for j i rej ->
  base s -> base (run_calls res rej calls s).
Proof.
  intros Hres Hrej Hb.
  destruct (run_calls_fields res rej calls s j i Hres Hrej (b_quiet _ Hb))
    as (H1 & H2 & H3 & H4 & H5 & H6 & H7).
  apply (base_frame s); try done; try congruence.
  - apply run_calls_invoked.
  - rewrite H4. destruct (nonempty calls); [|done]. apply settle_in_length.
Qed.

Lemma handles_of_for e i n :
  wf_entry n e -> exists j, j < n /\ future_of e = Future j /\
    handle_for j i (handles_of e i).1.2 /\ handle_for j i (handles_of e i).2.
Proof.
  intros (j & Hj & Hres & Hrej). exists j. unfold future_of, handle_for.
  simpl. rewrite Hres, Hrej. done.
Qed.

Lemma base_invoked_wf s i e :
  base s -> invoked (log s) !! i = Some e -> wf_entry (length (futures s)) e.
Proof.
  intros Hb He. eapply (Forall_lookup_1 _ (timeline s) i); [apply Hb|].
  unfold timeline. by apply lookup_app_l_Some.
Qed.

Lemma base_timer n s : base s -> base (timer n s).
Proof.
  intros Hb. unfold timer.
  destruct (issued s !! n) as [[[f res] rej]|] eqn:E; [|done].
  destruct (b_handles _ Hb _ _ E) as (e & He & Hx).
  destruct (handles_of_for e n _ (base_invoked_wf _ _ _ Hb He))
    as (j & _ & _ & H1 & H2).
  rewrite <- Hx in H1, H2. by eapply base_run_calls.
Qed.

Lemma wf_entry_mono n m e : n <= m -> wf_entry n e -> wf_entry m e.
Proof. intros Hnm (j & Hj & H). exists j. split; [lia|done]. Qed.

Lemma base_tail s :
  base s -> exists g, links s !! pred (length (links s)) = Some g.
Proof.
  intros Hb. apply lookup_lt_is_Some. rewrite (b_links _ Hb). simpl. lia.
Qed.

Lemma insert_entry_perm front e l : insert_entry front e l ≡ₚ e :: l.
Proof.
  destruct front; simpl; [done|]. symmetry. apply Permutation_cons_append.
Qed.

Lemma base_future_fresh s e :
  base s -> e ∈ timeline s -> future_of e <> Future (length (futures s)).
Proof.
  intros Hb He.
  destruct (proj1 (Forall_forall _ _) (b_entries _ Hb) e He) as (j & Hj & Hr & _).
  unfold future_of. rewrite Hr. simpl. intros [=]. lia.
Qed.

Lemma base_submitted c front fn g s :
  base s -> links s !! pred (length (links s)) = Some g ->
  base (submitted c front fn (pred (length (links s))) g s).
Proof.
  intros Hb Hg.
  assert (Hlen : length (links (submitted c front fn
                   (pred (length (links s))) g s)) = S (length (links s))).
  { simpl. destruct (p_state g); rewrite ?length_insert, length_app; simpl; lia. }
  assert (Htl : timeline (submitted c front fn (pred (length (links s))) g s)
                = invoked (log s) ++ insert_entry front (new_entry fn s)
                                       (_promiseFunctionArray (self s))) by done.
  assert (Hperm : timeline (submitted c front fn (pred (length (links s))) g s)
                  ≡ₚ new_entry fn s :: timeline s).
  { rewrite Htl. unfold timeline. rewrite insert_entry_perm.
    symmetry. apply Permutation_middle. }
  split.
  - by rewrite Hlen.
  - rewrite Hlen, Hperm. simpl. by rewrite (b_links _ Hb).
  - rewrite Hperm. simpl. rewrite length_app. simpl.
    rewrite (b_futures _ Hb). lia.
  - simpl. apply Forall_app. split; [apply Hb|]. by constructor.
  - rewrite Hperm. simpl. rewrite length_app. simpl. constructor.
    + exists (length (futures s)). split; [lia|done].
    + eapply Forall_impl; [apply Hb|]. intros e. apply wf_entry_mono. lia.
  - rewrite Hperm. simpl. constructor; [|apply Hb].
    intros (e & He1 & He2)%list_elem_of_fmap.
    by eapply base_future_fresh.
  - apply Hb.
  - apply Hb.
  - apply Hb.
Qed.

Lemma step_spec c e rest s :
  _promiseFunctionArray (self s) = e :: rest ->
  step (Some c) s = (inl (Inner (length (inners s))), stepped c e rest s).
Proof.
  intros Harr. unfold step, new_LocalPromise, new_promise. simpl.
  unfold bind, array_shift. simpl. rewrite Harr. simpl.
  unfold call_fn, stepped, thrown. simpl.
  by destruct (throws (fn e)).
Qed.

Lemma step_empty c s :
  _promiseFunctionArray (self s) = [] ->
  step (Some c) s =
    (inl (Inner (length (inners s))),
     settle (Inner (length (inners s)))
       (Rejected (VError "TypeError" "Cannot read property 'fn' of undefined"))
       (set_inners (fun h => h ++ [pending c]) s)).
Proof.
  intros Harr. unfold step, new_LocalPromise, new_promise. simpl.
  unfold bind, array_shift. simpl. by rewrite Harr.
Qed.

Lemma base_started c e rest s :
  base s -> _promiseFunctionArray (self s) = e :: rest ->
  base (started c e rest s).
Proof.
  intros Hb Harr.
  assert (Htl : timeline (started c e rest s) = timeline s).
  { unfold timeline. simpl. rewrite Harr, invoked_app. simpl.
    by rewrite <- app_assoc. }
  split; rewrite ?Htl; try apply Hb; simpl.
  - rewrite invoked_app, !length_app. simpl. by rewrite (b_issued _ Hb).
  - rewrite invoked_app, !length_app. simpl. by rewrite (b_inners _ Hb).
  - intros i x. simpl. rewrite invoked_app. simpl.
    intros [Hx|[Hi Hx]]%lookup_app_Some.
    + destruct (b_handles _ Hb _ _ Hx) as (e' & He' & ->).
      exists e'. split; [|done]. by apply lookup_app_l_Some.
    + destruct (i - length (issued s)) as [|?] eqn:Ei; [|done].
      injection Hx as <-. exists e.
      assert (i = length (issued s)) as -> by lia.
      rewrite (b_issued _ Hb), (b_inners _ Hb). split; [|done].
      rewrite lookup_app_r, Nat.sub_diag by done. done.
Qed.

Lemma base_stepped c e rest s :
  base s -> _promiseFunctionArray (self s) = e :: rest ->
  base (stepped c e rest s).
Proof.
  intros Hb Harr. unfold stepped, thrown.
  assert (Hwf : wf_entry (length (futures s)) e).
  { eapply (proj1 (Forall_forall _ _) (b_entries _ Hb)).
    unfold timeline. rewrite Harr. apply elem_of_app. right. left. }
  destruct (handles_of_for e (length (inners s)) _ Hwf) as (j & _ & _ & H1 & H2).
  pose proof (base_run_calls _ _ (sync (fn e)) _ j _ H1 H2
                (base_started c e rest s Hb Harr)) as Hb'.
  destruct (throws (fn e)); [by apply base_settle|done].
Qed.

(** ** The chain of links *)

Lemma chain_link_reactions k h : chain k h -> Forall link_reactions h.
Proof.
  intros Hc. apply Forall_lookup. intros j c Hj. specialize (Hc j c Hj).
  unfold link_reactions. destruct (decide (j < k)).
  - destruct Hc as [_ ->]. constructor.
  - destruct Hc as [_ ->]. case_decide; repeat constructor. by eexists.
Qed.

Lemma chain_pending k h j c :
  chain k h -> h !! j = Some c -> k <= j -> p_state c = Pending.
Proof.
  intros Hc Hj Hk. specialize (Hc j c Hj).
  rewrite decide_False in Hc by lia. apply Hc.
Qed.

Lemma chain_fulfilled k h j c :
  chain k h -> h !! j = Some c -> j < k -> is_fulfilled c.
Proof.
  intros Hc Hj Hk. specialize (Hc j c Hj).
  rewrite decide_True in Hc by lia. apply Hc.
Qed.

Lemma chain_append_idle h c :
  chain (length h) h -> chain (length h) (h ++ [pending c]).
Proof.
  intros Hc j x [Hx|[Hj Hx]]%lookup_app_Some.
  - pose proof (lookup_lt_Some _ _ _ Hx).
    specialize (Hc j x Hx). by rewrite decide_True in * by lia.
  - destruct (j - length h) as [|?] eqn:E; [|done]. injection Hx as <-.
    rewrite decide_False by lia. split; [done|].
    rewrite length_app. simpl. by rewrite decide_False by lia.
Qed.

Lemma chain_append_busy k h g c :
  chain k h -> k < length h -> h !! pred (length h) = Some g ->
  chain k (<[pred (length h) :=
              {| p_ctor := p_ctor g; p_state := Pending;
                 p_reactions := p_reactions g ++ [ThenStep (Link (length h))] |}]>
             (h ++ [pending c])).
Proof.
  intros Hc Hk Hg j x Hx.
  rewrite length_insert, length_app. simpl.
  apply list_lookup_insert_Some in Hx as [(Hj & <- & Hlt)|[Hne Hx]]; [subst j|].
  - specialize (Hc _ _ Hg). rewrite decide_False in * by lia. simpl.
    destruct Hc as [_ Hr]. rewrite decide_False in Hr by lia. rewrite Hr.
    rewrite decide_True by lia. split; [done|]. simpl. f_equal. f_equal. f_equal. lia.
  - apply lookup_app_Some in Hx as [Hx|[Hj Hx]].
    + pose proof (lookup_lt_Some _ _ _ Hx).
      specialize (Hc j x Hx). destruct (decide (j < k)); [done|].
      destruct Hc as [Hp Hr]. split; [done|]. rewrite Hr.
      rewrite !decide_True by lia. done.
    + destruct (j - length h) as [|?] eqn:E; [|done]. injection Hx as <-.
      rewrite !decide_False by lia. done.
Qed.

Lemma chain_advance k v h :
  chain k h -> chain (S k) (settle_in k (Fulfilled v) h).
Proof.
  intros Hc j x. rewrite settle_in_lookup, settle_in_length.
  destruct (h !! j) as [c|] eqn:Hj; [|done]. specialize (Hc j c Hj).
  destruct (decide (j = k)) as [->|Hne].
  - rewrite decide_False in Hc by lia. destruct Hc as [-> _].
    intros [= <-]. rewrite decide_True by lia. split; [by eexists|done].
  - intros [= <-]. destruct (decide (j < k)).
    + by rewrite decide_True by lia.
    + by rewrite decide_False by lia.
Qed.

Lemma chain_wake k v h :
  chain k h -> k < length h ->
  wake (Fulfilled v) (h !! k) =
    if decide (S k < length h) then [RunStep (Link (S k))] else [].
Proof.
  intros Hc Hk. destruct (lookup_lt_is_Some_2 h k Hk) as [c Hj].
  specialize (Hc k c Hj). rewrite decide_False in Hc by lia.
  destruct Hc as [Hp Hr]. rewrite Hj. simpl. rewrite Hp, Hr.
  by case_decide.
Qed.

Lemma phase_ext s s' :
  links s' = links s -> issued s' = issued s -> jobs s' = jobs s ->
  inners s' = inners s -> phase s -> phase s'.
Proof.
  intros Hl Hi Hj Hn [H1 H2 H3 H4|H1 H2 H3 H4|rest c H1 H2 H3 H4 H5 H6 H7|
                      v H1 H2 H3|H1 H2 H3 H4 H5].
  - apply Idle; by rewrite ?Hl, ?Hi, ?Hj, ?Hn.
  - apply Scheduled; by rewrite ?Hl, ?Hi, ?Hj, ?Hn.
  - apply (Running _ rest c); by rewrite ?Hl, ?Hi, ?Hj, ?Hn.
  - apply (Resuming _ v); by rewrite ?Hl, ?Hi, ?Hj, ?Hn.
  - apply Dead; unfold doomed; by rewrite ?Hl, ?Hi, ?Hj, ?Hn.
Qed.

Lemma base_issued_lt s :
  base s ->
  length (links s) = S (length (issued s) + length (_promiseFunctionArray (self s))).
Proof.
  intros Hb. rewrite (b_links _ Hb), (b_issued _ Hb). unfold timeline.
  by rewrite length_app.
Qed.

Lemma Forall_link_reactions_insert h t g r st :
  Forall link_reactions h -> link_reactions g -> (exists j, r = ThenStep (Link j)) ->
  Forall link_reactions
    (<[t := {| p_ctor := p_ctor g; p_state := st;
               p_reactions := p_reactions g ++ [r] |}]> h).
Proof.
  intros Hh Hg Hr. apply Forall_insert; [done|].
  unfold link_reactions. simpl. apply Forall_app. split; [done|].
  by constructor.
Qed.

Lemma phase_submitted c front fn g s :
  base s -> phase s -> links s !! pred (length (links s)) = Some g ->
  phase (submitted c front fn (pred (length (links s))) g s).
Proof.
  intros Hb Hph Hg. pose proof (base_issued_lt s Hb) as Hn.
  assert (Hbusy : forall k, chain k (links s) -> k < length (links s) ->
    p_state g = Pending /\
    chain k (links (submitted c front fn (pred (length (links s))) g s)) /\
    jobs (submitted c front fn (pred (length (links s))) g s) = jobs s).
  { intros k Hc Hk.
    assert (Hp : p_state g = Pending) by (eapply chain_pending; [done..|lia]).
    simpl. rewrite Hp. split_and!; [done| |done].
    by apply chain_append_busy. }
  destruct Hph as [H1 H2 H3 H4|H1 H2 H3 H4|rest x H1 H2 H3 H4 H5 H6 H7|
                   v H1 H2 H3|H1 H2 H3 H4 H5].
  - destruct (chain_fulfilled _ _ _ _ H1 Hg) as [v Hv]; [lia|].
    apply Scheduled; simpl; rewrite ?Hv, ?H3, <- ?H2; try done.
    + by apply chain_append_idle.
    + rewrite length_app. simpl. lia.
  - destruct (Hbusy _ H1 H2) as (Hp & Hc & Hj).
    apply Scheduled; rewrite ?Hj; try done.
    simpl. rewrite Hp, length_insert, length_app. simpl. lia.
  - destruct (Hbusy _ H1) as (Hp & Hc & Hj); [lia|].
    apply (Running _ rest x); rewrite ?Hj; done.
  - destruct (Hbusy _ H1) as (Hp & Hc & Hj); [lia|].
    apply (Resuming _ v); rewrite ?Hj; done.
  - pose proof (Forall_lookup_1 _ _ _ _ H4 Hg) as Hgr.
    assert (Hnew : forall h : list promise,
              (h ++ [pending (p_ctor g)]) !! length h = Some (pending (p_ctor g))).
    { intros h. by rewrite lookup_app_r, Nat.sub_diag. }
    apply Dead; simpl.
    + destruct (p_state g) eqn:Eg; try done.
      * destruct (H3 g Hg). by eexists.
      * apply Forall_app. split; [done|]. repeat constructor. by eexists _, _.
    + done.
    + intros x. destruct (p_state g) eqn:Eg;
        rewrite ?length_insert, length_app; simpl;
        rewrite Nat.add_1_r; simpl.
      * rewrite list_lookup_insert_ne by (rewrite Hn; simpl; lia).
        rewrite Hnew. intros [= <-] [v Hv]. done.
      * rewrite Hnew. intros [= <-] [v' Hv]. done.
      * rewrite Hnew. intros [= <-] [v' Hv]. done.
      * rewrite list_lookup_insert_ne by (rewrite Hn; simpl; lia).
        rewrite Hnew. intros [= <-] [v Hv]. done.
    + assert (Forall link_reactions (links s ++ [pending (p_ctor g)])).
      { apply Forall_app. split; [done|]. repeat constructor. }
      destruct (p_state g); try done;
        (apply Forall_link_reactions_insert; [done..|by eexists]).
    + destruct H5 as (x & [Hx|Hx] & Hr); [|exists x; by eauto].
      exists x. split; [left|done]. simpl.
      assert (Hx' : x ∈ links s ++ [pending (p_ctor g)])
        by (apply elem_of_app; by left).
      destruct (p_state g) eqn:Eg; try done;
        (apply list_elem_of_lookup in Hx' as [i Hi];
         apply list_elem_of_lookup; exists i;
         rewrite list_lookup_insert_ne; [done|]; intros <-;
         rewrite lookup_app_l in Hi by (rewrite Hn; simpl; lia);
         assert (x = g) as -> by congruence;
         unfold rejected in Hr; by rewrite Eg in Hr).
Qed.

(** ** One driver step, field by field *)

Lemma inner_state_pending e :
  inner_state e = Pending ->
  nonempty (sync (fn e)) = false /\ throws (fn e) = None.
Proof.
  unfold inner_state. destruct (nonempty (sync (fn e))); [done|].
  by destruct (throws (fn e)).
Qed.

Lemma inner_state_not_following e t : inner_state e <> Following t.
Proof.
  unfold inner_state. destruct (nonempty (sync (fn e))); [done|].
  by destruct (throws (fn e)).
Qed.

Lemma settle_in_last h c st :
  settle_in (length h) st (h ++ [pending c]) =
    h ++ [{| p_ctor := c; p_state := st; p_reactions := [] |}].
Proof.
  unfold settle_in. rewrite lookup_app_r, Nat.sub_diag by done. simpl.
  rewrite insert_app_r_alt, Nat.sub_diag by done. by destruct st.
Qed.

Lemma settle_in_last_settled h x st :
  p_state x <> Pending -> settle_in (length h) st (h ++ [x]) = h ++ [x].
Proof.
  intros Hx. apply settle_in_settled. intros c.
  rewrite lookup_app_r, Nat.sub_diag by done. simpl. by intros [= <-].
Qed.

Lemma stepped_fields c e rest s :
  base s -> _promiseFunctionArray (self s) = e :: rest ->
  self (stepped c e rest s) =
    {| _globalPromise := _globalPromise (self s);
       _promiseFunctionArray := rest |} /\
  links (stepped c e rest s) = links s /\
  issued (stepped c e rest s) = issued s ++ [handles_of e (length (inners s))] /\
  inners (stepped c e rest s) =
    inners s ++ [{| p_ctor := c; p_state := inner_state e; p_reactions := [] |}] /\
  jobs (stepped c e rest s) = jobs s.
Proof.
  intros Hb Harr.
  assert (Hwf : wf_entry (length (futures s)) e).
  { eapply (proj1 (Forall_forall _ _) (b_entries _ Hb)).
    unfold timeline. rewrite Harr. apply elem_of_app. right. left. }
  destruct (handles_of_for e (length (inners s)) _ Hwf) as (j & _ & _ & H1 & H2).
  destruct (run_calls_fields _ _ (sync (fn e)) (started c e rest s) j _ H1 H2)
    as (R1 & R2 & R3 & R4 & R5 & _); [apply Hb|].
  simpl in R1, R2, R3, R4, R5.
  rewrite lookup_app_r, Nat.sub_diag in R5 by done. simpl in R5.
  replace (if nonempty (sync (fn e)) then [] else []) with (@nil job) in R5
    by by destruct (nonempty _).
  rewrite app_nil_r in R5.
  rewrite settle_in_last in R4.
  unfold stepped, thrown, inner_state, handles_of. cbn [fst snd].
  destruct (throws (fn e)) as [x|] eqn:Ex.
  - rewrite settle_self, settle_links, settle_issued, settle_inners,
      settle_jobs, R1, R2, R3, R4, R5. simpl. rewrite R4.
    destruct (nonempty (sync (fn e))).
    + rewrite settle_in_last_settled by done.
      rewrite lookup_app_r, Nat.sub_diag by done. simpl.
      by rewrite app_nil_r.
    + rewrite settle_in_last.
      rewrite lookup_app_r, Nat.sub_diag by done. simpl.
      by rewrite app_nil_r.
  - rewrite R1, R2, R3, R4, R5. by destruct (nonempty (sync (fn e))).
Qed.

Lemma follow_last d h x s :
  inners s = h ++ [x] -> quiet x ->
  links (follow d (Inner (length h)) s) = links s /\
  issued (follow d (Inner (length h)) s) = issued s /\
  match p_state x with
  | Pending =>
      inners (follow d (Inner (length h)) s) =
        h ++ [{| p_ctor := p_ctor x; p_state := Pending;
                 p_reactions := [Adopt d] |}] /\
      jobs (follow d (Inner (length h)) s) = jobs s
  | Following t =>
      inners (follow d (Inner (length h)) s) =
        h ++ [{| p_ctor := p_ctor x; p_state := Following t;
                 p_reactions := [Adopt d] |}] /\
      jobs (follow d (Inner (length h)) s) = jobs s
  | st =>
      inners (follow d (Inner (length h)) s) = inners s /\
      jobs (follow d (Inner (length h)) s) = jobs s ++ [Pass d st]
  end.
Proof.
  intros Hi Hq. unfold follow. simpl. rewrite Hi.
  rewrite lookup_app_r, Nat.sub_diag by done. simpl.
  destruct (p_state x) eqn:Ex; simpl; rewrite ?Hi; split_and!; try done;
    (rewrite insert_app_r_alt, Nat.sub_diag by done; simpl; by rewrite Hq).
Qed.

Lemma tick_spec lp s :
  tick lp s =
    match jobs s with
    | [] => s
    | RunStep d :: js =>
        match lp with
        | None =>
            settle d
              (Rejected (VError "TypeError" "LocalPromise is not a constructor"))
              (set_jobs (fun _ => js) s)
        | Some c =>
            follow d (Inner (length (inners s)))
              match _promiseFunctionArray (self s) with
              | e :: rest => stepped c e rest (set_jobs (fun _ => js) s)
              | [] =>
                  settle (Inner (length (inners s)))
                    (Rejected (VError "TypeError"
                                 "Cannot read property 'fn' of undefined"))
                    (set_inners (fun h => h ++ [pending c])
                       (set_jobs (fun _ => js) s))
              end
        end
    | Pass d st :: js => settle d st (set_jobs (fun _ => js) s)
    end.
Proof.
  unfold tick. destruct (jobs s) as [|[d|d st] js]; try done.
  destruct lp as [c|]; [|done]. unfold run_job.
  destruct (_promiseFunctionArray (self s)) as [|e rest] eqn:E.
  - by rewrite step_empty.
  - by rewrite (step_spec c e rest).
Qed.

Lemma settle_in_rejected_lookup d r h t :
  (forall c, h !! t = Some c -> ~ is_fulfilled c) ->
  forall c, settle_in d (Rejected r) h !! t = Some c -> ~ is_fulfilled c.
Proof.
  intros H c. rewrite settle_in_lookup. destruct (h !! t) as [x|]; [|done].
  specialize (H x eq_refl). case_decide; [|by intros [= <-]].
  destruct (p_state x) eqn:Ex; intros [= <-]; [|done..].
  by intros [v Hv].
Qed.

Lemma settle_in_link_reactions d st h :
  Forall link_reactions h -> Forall link_reactions (settle_in d st h).
Proof.
  intros H. apply Forall_lookup. intros i c. rewrite settle_in_lookup.
  destruct (h !! i) as [x|] eqn:E; [|done].
  pose proof (Forall_lookup_1 _ _ _ _ H E) as Hx.
  case_decide; [|by intros [= <-]].
  destruct (p_state x); intros [= <-]; try done.
  unfold link_reactions, settled_cell. simpl. destruct st; try constructor.
  apply Hx.
Qed.

Lemma wake_rejection r h d :
  Forall link_reactions h -> Forall passes_rejection (wake (Rejected r) (h !! d)).
Proof.
  intros H. destruct (h !! d) as [c|] eqn:E; [|constructor]. simpl.
  pose proof (Forall_lookup_1 _ _ _ _ H E) as Hc.
  destruct (p_state c); try constructor.
  apply Forall_fmap. eapply Forall_impl; [apply Hc|].
  intros x [j ->]. by eexists _, _.
Qed.

Lemma settle_in_keeps_rejected j st h x :
  x ∈ h -> rejected x = true -> x ∈ settle_in j st h.
Proof.
  intros [i Hi]%list_elem_of_lookup Hr. apply list_elem_of_lookup. exists i.
  rewrite settle_in_lookup, Hi. case_decide; [|done].
  unfold rejected in Hr. by destruct (p_state x).
Qed.

Lemma Forall_fulfilled_settled h :
  Forall is_fulfilled h -> Forall (fun c => p_state c <> Pending) h.
Proof. intros H. eapply Forall_impl; [done|]. intros c [v Hv]. by rewrite Hv. Qed.

Lemma base_set_jobs f s : base s -> base (set_jobs f s).
Proof. intros Hb. apply (base_frame s); try done. apply Hb. Qed.

Lemma chain_tail_unfulfilled k h :
  chain k h -> k < length h ->
  forall c, h !! pred (length h) = Some c -> ~ is_fulfilled c.
Proof.
  intros Hc Hk c Hl [v Hv].
  assert (p_state c = Pending) by (eapply chain_pending; [done..|lia]).
  congruence.
Qed.

Lemma Inv_tick lp s : Inv s -> Inv (tick lp s).
Proof.
  intros [Hb Hph]. rewrite tick_spec.
  pose proof (base_issued_lt s Hb) as Hn.
  destruct Hph as [H1 H2 H3 H4|H1 H2 H3 H4|rest x H1 H2 H3 H4 H5 H6 H7|
                   v H1 H2 H3|H1 H2 H3 H4 H5].
  - rewrite H3. split; [done|]. by apply Idle.
  - rewrite H3.
    set (s0 := set_jobs (fun _ => []) s).
    assert (Hb0 : base s0) by by apply base_set_jobs.
    destruct lp as [c|].
    + destruct (_promiseFunctionArray (self s)) as [|e arr] eqn:Harr.
      { simpl in Hn. lia. }
      destruct (stepped_fields c e arr s0 Hb0 Harr) as (F1 & F2 & F3 & F4 & F5).
      destruct (follow_last (Link (S (length (issued s)))) _ _ _ F4 eq_refl)
        as (G1 & G2 & G3).
      change (inners s0) with (inners s) in *.
      split; [by apply base_follow, base_stepped|].
      simpl in G3. destruct (inner_state e) eqn:Est.
      * destruct G3 as [G3 G4].
        eapply (Running _ (inners s)); rewrite ?G1, ?G2, ?G3, ?G4, ?F2, ?F3,
          ?F5, ?length_app; simpl; rewrite ?Nat.add_1_r; try done.
        intros y. rewrite last_snoc. intros [= <-].
        by apply inner_state_pending.
      * destruct G3 as [G3 G4].
        eapply (Resuming _ v); rewrite ?G1, ?G2, ?G3, ?G4, ?F2, ?F3, ?F4,
          ?F5, ?length_app; simpl; rewrite ?Nat.add_1_r; try done.
        apply Forall_app. split; [done|]. repeat constructor. by eexists.
      * destruct G3 as [G3 G4].
        eapply Dead; rewrite ?G1, ?G2, ?G3, ?G4, ?F2, ?F3, ?F4, ?F5; simpl.
        -- repeat constructor. by eexists _, _.
        -- apply Forall_app. split; [by apply Forall_fulfilled_settled|].
           repeat constructor. done.
        -- by eapply chain_tail_unfulfilled.
        -- by eapply chain_link_reactions.
        -- unfold doomed. rewrite G3, F4. eexists.
           split; [right; apply elem_of_app; right; by left|done].
      * by destruct (inner_state_not_following e t).
    + split; [by apply base_settle|].
      apply Dead; rewrite ?settle_jobs, ?settle_inners, ?settle_links; simpl.
      * apply wake_rejection. by eapply chain_link_reactions.
      * by apply Forall_fulfilled_settled.
      * rewrite settle_in_length. apply settle_in_rejected_lookup.
        by eapply chain_tail_unfulfilled.
      * apply settle_in_link_reactions. by eapply chain_link_reactions.
      * destruct (lookup_lt_is_Some_2 (links s) _ H2) as [x Hx].
        exists (settled_cell
          (Rejected (VError "TypeError" "LocalPromise is not a constructor")) x).
        split; [left|done]. rewrite settle_links. simpl.
        apply list_elem_of_lookup. exists (S (length (issued s))).
        rewrite settle_in_lookup, Hx, decide_True by done.
        by rewrite (chain_pending _ _ _ _ H1 Hx).
  - rewrite H2. split; [done|]. by eapply Running.
  - rewrite H2. split; [by apply base_settle, base_set_jobs|].
    assert (Hk : length (issued s) < length (links s)) by lia.
    pose proof (chain_wake _ v _ H1 Hk) as Hw.
    pose proof (chain_advance _ v _ H1) as Hc.
    case_decide.
    + apply Scheduled; rewrite ?settle_jobs, ?settle_inners, ?settle_links,
        ?settle_issued, ?settle_in_length; simpl; try done.
    + apply Idle; rewrite ?settle_jobs, ?settle_inners, ?settle_links,
        ?settle_issued, ?settle_in_length; simpl; try done.
      * by replace (length (links s)) with (S (length (issued s))) by lia.
      * lia.
  - destruct (jobs s) as [|j js] eqn:Hj.
    { split; [done|]. apply Dead; by rewrite ?Hj. }
    apply Forall_cons in H1 as [(d & r & ->) H1].
    assert (Hdoom : doomed (settle (Link d) (Rejected r)
                      (set_jobs (fun _ => js) s))).
    { destruct H5 as (x & Hx & Hr). exists x. split; [|done].
      rewrite settle_links, settle_inners. simpl.
      destruct Hx as [Hx|Hx]; [left|by right].
      by apply settle_in_keeps_rejected. }
    split; [by apply base_settle, base_set_jobs|].
    apply Dead; rewrite ?settle_jobs, ?settle_inners, ?settle_links; simpl.
    + apply Forall_app. split; [done|]. by apply wake_rejection.
    + done.
    + rewrite settle_in_length. by apply settle_in_rejected_lookup.
    + by apply settle_in_link_reactions.
    + done.
Qed.

Lemma Inv_timer n s : Inv s -> Inv (timer n s).
Proof.
  intros [Hb Hph]. split; [by apply base_timer|].
  unfold timer. destruct (issued s !! n) as [[[f res] rej]|] eqn:E; [|done].
  destruct (b_handles _ Hb _ _ E) as (e & He & Hx).
  destruct (handles_of_for e n _ (base_invoked_wf _ _ _ Hb He))
    as (j & _ & _ & Hres & Hrej).
  rewrite <- Hx in Hres, Hrej. simpl in Hres, Hrej.
  destruct (run_calls_fields res rej (async f) s j n Hres Hrej (b_quiet _ Hb))
    as (R1 & R2 & R3 & R4 & R5 & _).
  destruct (nonempty (async f)) eqn:Hne.
  2: { eapply phase_ext; [done..| |done|done]. by rewrite R5, app_nil_r. }
  assert (Hquiet : Forall (fun c => p_state c <> Pending) (inners s) ->
            phase (run_calls res rej (async f) s)).
  { intros Hs. eapply phase_ext; [done|done| | |done].
    - rewrite R5, wake_settled, app_nil_r; [done|].
      intros c Hc. apply (Forall_lookup_1 _ _ _ _ Hs Hc).
    - rewrite R4. apply settle_in_settled.
      intros c Hc. apply (Forall_lookup_1 _ _ _ _ Hs Hc). }
  destruct Hph as [H1 H2 H3 H4|H1 H2 H3 H4|rest x H1 H2 H3 H4 H5 H6 H7|
                   v H1 H2 H3|H1 H2 H3 H4 H5];
    try first [by apply Hquiet|by apply Hquiet, Forall_fulfilled_settled].
  pose proof (lookup_lt_Some _ _ _ E) as Hlt.
  assert (Hlen : length (issued s) = S (length rest)).
  { rewrite (b_issued _ Hb), <- (b_inners _ Hb), H3, length_app. simpl. lia. }
  destruct (decide (n = length rest)) as [->|Hne'].
  - apply (Resuming _ VUndefined); rewrite ?R2, ?R3, ?R4, ?R5, ?H2, ?H3; try done.
    + rewrite lookup_app_r, Nat.sub_diag by done. simpl. by rewrite H5, H6.
    + unfold settle_in. rewrite lookup_app_r, Nat.sub_diag by done. simpl.
      rewrite H5, insert_app_r_alt, Nat.sub_diag by done. simpl.
      apply Forall_app. split; [done|]. repeat constructor. by eexists.
  - eapply phase_ext; [done|done| | |by eapply (Running _ rest x)].
    + rewrite R5, wake_settled, app_nil_r; [done|].
      intros c. rewrite H3, lookup_app_l by lia. intros Hc.
      destruct (Forall_lookup_1 _ _ _ _ H4 Hc) as [v Hv]. by rewrite Hv.
    + rewrite R4. apply settle_in_settled.
      intros c. rewrite H3, lookup_app_l by lia. intros Hc.
      destruct (Forall_lookup_1 _ _ _ _ H4 Hc) as [v Hv]. by rewrite Hv.
Qed.

Lemma submit_spec c front fn s :
  base s ->
  exists g, links s !! pred (length (links s)) = Some g /\
    _changeQueue (Some c) fn (inserter front) s =
      (inl (Future (length (futures s))),
       submitted c front fn (pred (length (links s))) g s).
Proof.
  intros Hb. destruct (base_tail s Hb) as [g Hg]. exists g. split; [done|].
  apply enqueue_step_spec; [apply Hb|done].
Qed.

Lemma Inv_submit c front fn s :
  Inv s -> Inv (_changeQueue (Some c) fn (inserter front) s).2.
Proof.
  intros [Hb Hph]. destruct (submit_spec c front fn s Hb) as (g & Hg & ->).
  split; [by apply base_submitted|by apply phase_submitted].
Qed.

Lemma Inv_istep lp ev s : Inv s -> Inv (istep lp ev s).
Proof.
  intros HI. destruct ev as [fn|fn| |n]; simpl.
  - destruct lp as [c|]; [|done]. by apply (Inv_submit c false).
  - destruct lp as [c|]; [|done]. by apply (Inv_submit c true).
  - by apply Inv_tick.
  - by apply Inv_timer.
Qed.

Lemma Inv_new c : Inv (Pique_new c).
Proof. split; [apply base_new|apply phase_new]. Qed.

Lemma Inv_irun evs s : Inv s -> Inv (irun evs s).
Proof.
  revert s. induction evs as [|[lp ev] evs IH]; intros s HI; simpl; [done|].
  by apply IH, Inv_istep.
Qed.

(** ** What the trace says *)

Lemma calls_on_app p l1 l2 : calls_on p (l1 ++ l2) = calls_on p l1 ++ calls_on p l2.
Proof. apply omap_app. Qed.

Lemma observed_app l1 l2 : observed (l1 ++ l2) = observed l1 ++ observed l2.
Proof. apply omap_app. Qed.

Lemma backstage_invoked l : Forall backstage l -> invoked l = [].
Proof.
  induction 1 as [|o l Ho _ IH]; [done|]. destruct o as [| |[]]; done.
Qed.

Lemma backstage_calls p l : Forall backstage l -> calls_on p l = [].
Proof.
  induction 1 as [|o l Ho _ IH]; [done|]. destruct o as [| |[]]; done.
Qed.

Lemma backstage_observed l : Forall backstage l -> observed l = [].
Proof.
  induction 1 as [|o l Ho _ IH]; [done|]. destruct o as [| |[]]; done.
Qed.

Lemma gated_nil : gated [].
Proof. intros [|??] ???; done. Qed.

Lemma gated_snoc l o :
  gated l ->
  (forall e, o = Invoked e ->
     forall e0, e0 ∈ invoked l -> calls_on (future_of e0) l <> []) ->
  gated (l ++ [o]).
Proof.
  intros Hg Ho l1 e l2 Heq.
  destruct l2 as [|x l2 _] using rev_ind.
  - apply app_inj_tail in Heq as [-> ->]. by apply (Ho _ eq_refl).
  - rewrite app_comm_cons, app_assoc in Heq.
    apply app_inj_tail in Heq as [-> _]. by eapply Hg.
Qed.

Lemma gated_app l extra :
  gated l -> Forall (fun o => is_invoked o = false) extra -> gated (l ++ extra).
Proof.
  intros Hg. induction extra as [|o extra IH] using rev_ind; intros Hx.
  - by rewrite app_nil_r.
  - apply Forall_app in Hx as [Hx Ho]. rewrite app_assoc.
    apply gated_snoc; [by apply IH|].
    intros e He. subst o. by inversion Ho.
Qed.

Lemma traced_new c : traced (Pique_new c).
Proof.
  split; simpl; try done.
  - intros f v H. by apply elem_of_nil in H.
  - apply gated_nil.
  - intros j st H. by apply elem_of_nil in H.
Qed.

(** Changes behind the scenes: the futures and the handles stay as they
    are, no inner promise becomes fulfilled, and the trace only gains
    settlements of links and inner promises. *)
Lemma traced_backstage s s' extra :
  futures s' = futures s -> issued s' = issued s ->
  log s' = log s ++ extra -> Forall backstage extra ->
  (forall i c', inners s' !! i = Some c' -> is_fulfilled c' ->
     exists c, inners s !! i = Some c /\ is_fulfilled c) ->
  traced s -> traced s'.
Proof.
  intros Hf Hi Hl Hx Hn [].
  assert (Hinv : invoked (log s') = invoked (log s)).
  { rewrite Hl, invoked_app, (backstage_invoked extra) by done.
    apply app_nil_r. }
  assert (Hcalls : forall p, calls_on p (log s') = calls_on p (log s)).
  { intros p. rewrite Hl, calls_on_app, (backstage_calls p extra) by done.
    apply app_nil_r. }
  assert (Hobs : observed (log s') = observed (log s)).
  { rewrite Hl, observed_app, (backstage_observed extra) by done.
    apply app_nil_r. }
  split; unfold reported_outcome, issued_handle;
    rewrite ?Hf, ?Hi, ?Hinv, ?Hobs; try done.
  - intros f v. rewrite Hl. intros [H|H]%elem_of_app; [apply (t_calls0 _ _ H)|].
    by destruct (proj1 (Forall_forall _ _) Hx _ H).
  - intros j c. rewrite Hcalls. by apply t_state0.
  - intros i e c He Hc Hful. rewrite Hcalls.
    destruct (Hn _ _ Hc Hful) as (c0 & Hc0 & Hful0). by eapply t_reported0.
  - rewrite Hl. apply gated_app; [done|].
    eapply Forall_impl; [done|]. by intros [| |[]].
Qed.

Lemma news_backstage p st oc :
  (forall j, p <> Future j) -> Forall backstage (news p st oc).
Proof.
  intros Hp. destruct oc as [c|]; [|constructor]. simpl.
  destruct (p_state c); repeat constructor.
  destruct p; simpl; try done. by destruct (Hp n).
Qed.

Lemma traced_set_jobs f s : traced s -> traced (set_jobs f s).
Proof.
  apply (traced_backstage _ _ []); try done.
  - simpl. by rewrite app_nil_r.
  - intros i c' Hc' Hf. simpl in Hc'. by eauto.
Qed.

Lemma settle_in_fulfilled j r h i c' :
  settle_in j (Rejected r) h !! i = Some c' -> is_fulfilled c' ->
  exists c, h !! i = Some c /\ is_fulfilled c.
Proof.
  rewrite settle_in_lookup. destruct (h !! i) as [c|]; [|done].
  case_decide; [|intros [= <-]; by eauto].
  destruct (p_state c) eqn:E; intros [= <-]; try by eauto.
  by intros [v Hv].
Qed.

Lemma traced_settle_link d st s : traced s -> traced (settle (Link d) st s).
Proof.
  apply (traced_backstage _ _ (news (Link d) st (cell (Link d) s))).
  - by rewrite settle_futures.
  - apply settle_issued.
  - apply settle_log.
  - by apply news_backstage.
  - rewrite settle_inners. by eauto.
Qed.

Lemma traced_settle_inner_rejected i r s :
  traced s -> traced (settle (Inner i) (Rejected r) s).
Proof.
  apply (traced_backstage _ _ (news (Inner i) (Rejected r) (cell (Inner i) s))).
  - by rewrite settle_futures.
  - apply settle_issued.
  - apply settle_log.
  - by apply news_backstage.
  - rewrite settle_inners. apply settle_in_fulfilled.
Qed.

Lemma traced_follow d i s : traced s -> traced (follow d (Inner i) s).
Proof.
  destruct (follow_fields d i s) as (H1 & H2 & H3 & H4 & H5 & H6).
  apply (traced_backstage _ _ []); try done.
  - by rewrite app_nil_r.
  - intros k c'. unfold follow. simpl.
    destruct (inners s !! i) as [c|] eqn:E; [|by eauto].
    destruct (p_state c) eqn:Ec; simpl; try by eauto.
    all: intros [(-> & <- & _)|[_ H]]%list_lookup_insert_Some; [|by eauto].
    all: by intros [v Hv].
Qed.

Lemma outcome_not_pending r v : outcome r v <> Pending.
Proof. by destruct r, v. Qed.

Lemma reported_outcome_pending p l :
  reported_outcome p l = Pending <-> calls_on p l = [].
Proof.
  unfold reported_outcome. destruct (calls_on p l) as [|[r v] ?]; [done|].
  split; [|done]. intros H. by destruct (outcome_not_pending r v).
Qed.

Lemma invoked_split l k e :
  invoked l !! k = Some e ->
  exists l1 l2, l = l1 ++ Invoked e :: l2 /\ length (invoked l1) = k.
Proof.
  revert k. induction l as [|o l IH]; intros k; [done|].
  destruct o as [e0|f v|p st]; simpl.
  - destruct k as [|k]; simpl.
    + intros [= ->]. by exists [], l.
    + intros (l1 & l2 & -> & <-)%IH. by exists (Invoked e0 :: l1), l2.
  - intros (l1 & l2 & -> & <-)%IH. by exists (Called f v :: l1), l2.
  - intros (l1 & l2 & -> & <-)%IH. by exists (Settled p st :: l1), l2.
Qed.

(** Every unit but the one invoked last has called one of its handles. *)
Lemma prior_reported l i e :
  gated l -> invoked l !! i = Some e -> S i < length (invoked l) ->
  calls_on (future_of e) l <> [].
Proof.
  intros Hg He Hlt.
  destruct (lookup_lt_is_Some_2 _ _ Hlt) as [e' He'].
  destruct (invoked_split _ _ _ He') as (l1 & l2 & -> & Hlen).
  rewrite invoked_app in He. simpl in He.
  rewrite lookup_app_l in He by lia.
  rewrite calls_on_app. intros [H _]%app_eq_nil. revert H.
  eapply Hg; [done|]. apply list_elem_of_lookup. by eauto.
Qed.

Lemma prefix_snoc_last {A} (O F : list A) x i :
  NoDup F -> O `prefix_of` F -> F !! i = Some x -> S i = length F ->
  x ∉ O -> (forall k y, k < i -> F !! k = Some y -> y ∈ O) ->
  O ++ [x] = F.
Proof.
  intros Hnd [R ->] Hx Hlen HxO Hall.
  rewrite length_app in Hlen.
  destruct (decide (length O < i)) as [Hlt|Hge].
  - destruct (lookup_lt_is_Some_2 (O ++ R) (length O)) as [y Hy].
    { rewrite length_app. lia. }
    pose proof (Hall _ _ Hlt Hy) as HyO.
    rewrite lookup_app_r, Nat.sub_diag in Hy by done.
    apply NoDup_app in Hnd as (_ & Hdis & _).
    destruct (Hdis y HyO). apply list_elem_of_lookup. by eauto.
  - destruct (decide (i < length O)) as [Hlt|Hge'].
    + rewrite lookup_app_l in Hx by done.
      destruct HxO. apply list_elem_of_lookup. by eauto.
    + assert (i = length O) as -> by lia.
      rewrite lookup_app_r, Nat.sub_diag in Hx by done.
      destruct R as [|r [|??]]; simpl in *; try lia. by injection Hx as ->.
Qed.

Lemma base_invoked_nodup s : base s -> NoDup (future_of <$> invoked (log s)).
Proof.
  intros Hb. pose proof (b_nodup _ Hb) as H. unfold timeline in H.
  rewrite fmap_app in H. by apply NoDup_app in H as (H & _).
Qed.

Lemma elem_of_fst_observed p l :
  p ∈ (observed l).*1 <-> exists st, (p, st) ∈ observed l.
Proof.
  rewrite list_elem_of_fmap. split.
  - intros ([p' st] & -> & H). by exists st.
  - intros [st H]. by exists (p, st).
Qed.

Lemma news_calls p q st oc : calls_on p (news q st oc) = [].
Proof. destruct oc as [c|]; [|done]. simpl. by destruct (p_state c). Qed.

Lemma news_is_invoked q st oc :
  Forall (fun o => is_invoked o = false) (news q st oc).
Proof.
  destruct oc as [c|]; [|constructor]. simpl.
  destruct (p_state c); repeat constructor.
Qed.

Lemma news_observed j st oc :
  observed (news (Future j) st oc) =
    if was_pending oc then [(Future j, st)] else [].
Proof. destruct oc as [c|]; [|done]. simpl. by destruct (p_state c). Qed.

Lemma traced_call_finish f v s i e :
  base s -> traced s -> invoked (log s) !! i = Some e ->
  (f = (handles_of e i).1.2 \/ f = (handles_of e i).2) ->
  issued s !! i = Some (handles_of e i) ->
  traced (call_finish f v s).
Proof.
  intros Hb Ht He Hf Hi.
  destruct (handles_of_for e i _ (base_invoked_wf _ _ _ Hb He))
    as (j & Hj & Hfut & Hres & Hrej).
  assert (Hh : handle_for j i f) by (by destruct Hf as [-> | ->]).
  destruct (call_finish_fields f v s j i Hh (b_quiet _ Hb))
    as (F1 & F2 & F3 & F4 & F5 & F6 & F7).
  destruct (lookup_lt_is_Some_2 (futures s) j Hj) as [cj Hcj].
  set (st := outcome (localFn f) v) in *.
  assert (Hinv : invoked (log (call_finish f v s)) = invoked (log s))
    by apply call_finish_invoked.
  assert (Hcalls : forall p, calls_on p (log (call_finish f v s)) =
            calls_on p (log s) ++
              if decide (Future j = p) then [(localFn f, v)] else []).
  { intros p. rewrite F7, calls_on_app. f_equal. simpl.
    rewrite (proj1 Hh), calls_on_app, !news_calls, app_nil_r.
    by case_decide. }
  assert (Hobs : observed (log (call_finish f v s)) =
            observed (log s) ++
              if was_pending (Some cj) then [(Future j, st)] else []).
  { rewrite F7, observed_app. f_equal. simpl.
    rewrite observed_app, news_observed, Hcj, backstage_observed, app_nil_r;
      [done|by apply news_backstage]. }
  assert (Hold : forall j' c, j' <> j ->
            futures (call_finish f v s) !! j' = Some c -> futures s !! j' = Some c).
  { intros j' c Hne. rewrite F6, settle_in_lookup.
    destruct (futures s !! j'); [|done]. by rewrite decide_False. }
  assert (Hnew : futures (call_finish f v s) !! j =
            Some (if was_pending (Some cj) then settled_cell st cj else cj)).
  { rewrite F6, settle_in_lookup, Hcj, decide_True by done. simpl.
    by destruct (p_state cj). }
  assert (Hst : st <> Pending) by apply outcome_not_pending.
  pose proof (t_state _ Ht _ _ Hcj) as Hcjst.
  split.
  - intros f' v'. rewrite F7, elem_of_app, elem_of_cons, elem_of_app.
    unfold issued_handle. rewrite F3.
    intros [H|[H|[H|H]]].
    + by apply (t_calls _ Ht _ _ H).
    + injection H as -> ->. by exists i, (handles_of e i).
    + destruct (futures s !! j) as [c|]; [|by apply elem_of_nil in H].
      simpl in H. destruct (p_state c);
        [by apply list_elem_of_singleton in H|by apply elem_of_nil in H..].
    + destruct (inners s !! i) as [c|]; [|by apply elem_of_nil in H].
      simpl in H. destruct (p_state c);
        [by apply list_elem_of_singleton in H|by apply elem_of_nil in H..].
  - intros j' c Hc. unfold reported_outcome. rewrite Hcalls.
    destruct (decide (j' = j)) as [->|Hne].
    + rewrite decide_True by done. rewrite Hnew in Hc. injection Hc as <-.
      simpl. destruct (p_state cj) eqn:Ecj; simpl.
      * symmetry in Hcjst. apply reported_outcome_pending in Hcjst.
        by rewrite Hcjst.
      * rewrite Ecj. unfold reported_outcome in Hcjst.
        by destruct (calls_on (Future j) (log s)).
      * rewrite Ecj. unfold reported_outcome in Hcjst.
        by destruct (calls_on (Future j) (log s)).
      * rewrite Ecj. unfold reported_outcome in Hcjst.
        by destruct (calls_on (Future j) (log s)).
    + rewrite decide_False, app_nil_r by congruence.
      by apply (t_state _ Ht), Hold.
  - intros i' e' c. rewrite Hinv, Hcalls, F4, settle_in_lookup.
    destruct (decide (i' = i)) as [->|Hne]; intros He' Hc Hful.
    + assert (e' = e) as -> by congruence.
      rewrite Hfut, decide_True by done. by intros [_ ?]%app_eq_nil.
    + destruct (inners s !! i') as [c'|] eqn:Ec'; [|done].
      injection Hc as <-.
      intros [H _]%app_eq_nil. by apply (t_reported _ Ht _ _ _ He' Ec' Hful).
  - rewrite F7. apply gated_app; [apply Ht|].
    constructor; [done|]. apply Forall_app. split; apply news_is_invoked.
  - rewrite Hinv, Hobs. simpl. destruct (p_state cj) eqn:Ecj;
      rewrite ?app_nil_r; try apply Ht.
    rewrite fmap_app. simpl.
    erewrite (prefix_snoc_last _ (future_of <$> invoked (log s)) (Future j) i);
      [done|by apply base_invoked_nodup|apply Ht| | | |].
    + by rewrite list_lookup_fmap, He, <- Hfut.
    + rewrite length_fmap.
      pose proof (lookup_lt_Some _ _ _ He) as Hlt.
      destruct (decide (S i < length (invoked (log s)))) as [Hlt'|]; [|lia].
      destruct (prior_reported _ _ _ (t_gated _ Ht) He Hlt').
      rewrite Hfut. apply reported_outcome_pending. congruence.
    + intros [st' H]%elem_of_fst_observed.
      destruct (t_values _ Ht _ _ H) as (c & Hc & Hc' & Hne). congruence.
    + intros k y Hk. rewrite list_lookup_fmap.
      destruct (invoked (log s) !! k) as [ek|] eqn:Ek; [|done].
      intros [= <-].
      pose proof (lookup_lt_Some _ _ _ He) as Hlt.
      assert (Hrep : calls_on (future_of ek) (log s) <> []).
      { eapply prior_reported; [apply Ht|done|lia]. }
      destruct (base_invoked_wf _ _ _ Hb Ek) as (jk & Hjk & Hrk & _).
      destruct (lookup_lt_is_Some_2 (futures s) jk Hjk) as [ck Hck].
      assert (future_of ek = Future jk) as Hfk.
      { unfold future_of. by rewrite Hrk. }
      rewrite Hfk in *. apply elem_of_fst_observed. exists (p_state ck).
      apply (t_seen _ Ht _ _ Hck). rewrite (t_state _ Ht _ _ Hck).
      by rewrite reported_outcome_pending.
  - intros j' c Hc Hne. rewrite Hobs, elem_of_app.
    destruct (decide (j' = j)) as [->|Hne'].
    + rewrite Hnew in Hc. simpl in Hc.
      pose proof (t_seen _ Ht _ _ Hcj) as Hseen.
      destruct (p_state cj) eqn:Ecj; injection Hc as <-; simpl; rewrite ?Ecj.
      * right. by apply list_elem_of_singleton.
      * left. by apply Hseen.
      * left. by apply Hseen.
      * left. by apply Hseen.
    + left. apply (t_seen _ Ht); [by apply Hold|done].
  - intros j' st'. rewrite Hobs, elem_of_app. intros [H|H].
    + destruct (t_values _ Ht _ _ H) as (c & Hc & Hc' & Hne).
      exists c. split_and!; try done.
      destruct (decide (j' = j)) as [->|Hne'].
      * rewrite Hnew. simpl. assert (c = cj) as -> by congruence.
        destruct (p_state cj); [done|done..].
      * rewrite F6, settle_in_lookup, Hc. by rewrite decide_False.
    + simpl in H. destruct (p_state cj) eqn:Ecj;
        [|by apply elem_of_nil in H..].
      apply list_elem_of_singleton in H. injection H as -> ->.
      rewrite Hnew. simpl. rewrite Ecj. by eexists.
Qed.

Lemma base_call_finish f v s j i :
  handle_for j i f -> base s -> base (call_finish f v s).
Proof.
  intros Hh Hb.
  change (call_finish f v s) with (run_calls f f [(Succeed, v)] s).
  by eapply base_run_calls.
Qed.

Lemma traced_run_calls calls s i e :
  base s -> traced s -> invoked (log s) !! i = Some e ->
  issued s !! i = Some (handles_of e i) ->
  traced (run_calls (handles_of e i).1.2 (handles_of e i).2 calls s).
Proof.
  revert s. induction calls as [|[k v] calls IH]; intros s Hb Ht He Hi; [done|].
  simpl.
  destruct (handles_of_for e i _ (base_invoked_wf _ _ _ Hb He))
    as (j & Hj & Hfut & Hres & Hrej).
  set (f := handle _ _ k).
  assert (Hf : f = (handles_of e i).1.2 \/ f = (handles_of e i).2).
  { destruct k; [by left|by right]. }
  assert (Hh : handle_for j i f) by (by destruct k).
  apply IH.
  - by eapply base_call_finish.
  - by eapply traced_call_finish.
  - by rewrite call_finish_invoked.
  - by rewrite call_finish_issued.
Qed.

Lemma traced_started c e rest s :
  base s -> traced s -> Forall is_fulfilled (inners s) ->
  traced (started c e rest s).
Proof.
  intros Hb Ht Hful. split; simpl.
  - intros f v [H|H]%elem_of_app.
    + destruct (t_calls _ Ht _ _ H) as (i & x & Hx & Hfx).
      exists i, x. split; [|done]. simpl. by apply lookup_app_l_Some.
    + by apply list_elem_of_singleton in H.
  - intros j x Hx. unfold reported_outcome.
    rewrite calls_on_app. simpl. rewrite app_nil_r. by apply (t_state _ Ht).
  - intros i e' x. rewrite invoked_app, calls_on_app. simpl.
    rewrite app_nil_r. intros He' [Hx|[Hlen Hx]]%lookup_app_Some Hf.
    + pose proof (lookup_lt_Some _ _ _ Hx) as Hlt.
      rewrite (b_inners _ Hb) in Hlt.
      rewrite lookup_app_l in He' by done. by eapply (t_reported _ Ht).
    + destruct (i - length (inners s)) as [|?] eqn:E; [|done].
      injection Hx as <-. by destruct Hf.
  - apply gated_snoc; [apply Ht|]. intros e1 _ e0 He0.
    apply list_elem_of_lookup in He0 as [k Hk].
    destruct (lookup_lt_is_Some_2 (inners s) k) as [x Hx].
    { rewrite (b_inners _ Hb). by eapply lookup_lt_Some. }
    eapply (t_reported _ Ht); [done..|].
    by eapply (Forall_lookup_1 _ (inners s)).
  - rewrite observed_app, invoked_app. simpl. rewrite app_nil_r, fmap_app.
    by apply prefix_app_r, Ht.
  - intros j x Hx Hne. rewrite observed_app. simpl. rewrite app_nil_r.
    by apply (t_seen _ Ht).
  - intros j st. rewrite observed_app. simpl. rewrite app_nil_r.
    apply (t_values _ Ht).
Qed.

Lemma issued_handle_for s f :
  base s -> issued_handle s f ->
  exists j i, j < length (futures s) /\ handle_for j i f.
Proof.
  intros Hb (i & x & Hx & Hf).
  destruct (b_handles _ Hb _ _ Hx) as (e & He & ->).
  destruct (handles_of_for e i _ (base_invoked_wf _ _ _ Hb He))
    as (j & Hj & _ & Hres & Hrej).
  exists j, i. split; [done|]. by destruct Hf as [-> | ->].
Qed.

Lemma calls_on_nil p l :
  (forall f v, Called f v ∈ l -> target (localFn f) <> p) -> calls_on p l = [].
Proof.
  induction l as [|o l IH]; intros H; [done|].
  assert (calls_on p l = []) as Hl.
  { apply IH. intros f v Hf. apply (H f v). by right. }
  destruct o as [e|f v|q st]; simpl; try done.
  rewrite decide_False; [done|]. apply (H f v). by left.
Qed.

Lemma traced_submitted c front fn t g s :
  base s -> traced s -> traced (submitted c front fn t g s).
Proof.
  intros Hb Ht. split; simpl; try apply Ht.
  - intros j x [Hx|[Hlen Hx]]%lookup_app_Some; [by apply (t_state _ Ht)|].
    destruct (j - length (futures s)) as [|?] eqn:E; [|done].
    injection Hx as <-. simpl. symmetry. apply reported_outcome_pending.
    apply calls_on_nil. intros f v Hf.
    destruct (issued_handle_for s f Hb (t_calls _ Ht _ _ Hf))
      as (j' & i & Hj' & Hh & _).
    rewrite Hh. intros [=]. lia.
  - intros j x [Hx|[Hlen Hx]]%lookup_app_Some; [by apply (t_seen _ Ht)|].
    destruct (j - length (futures s)) as [|?] eqn:E; [|done].
    by injection Hx as <-.
  - intros j st H. destruct (t_values _ Ht _ _ H) as (x & Hx & Hst).
    exists x. split; [|done]. by apply lookup_app_l_Some.
Qed.

Lemma traced_stepped c e rest s :
  base s -> traced s -> Forall is_fulfilled (inners s) ->
  _promiseFunctionArray (self s) = e :: rest ->
  traced (stepped c e rest s).
Proof.
  intros Hb Ht Hful Harr. unfold stepped, thrown.
  assert (traced (run_calls (handles_of e (length (inners s))).1.2
            (handles_of e (length (inners s))).2 (sync (fn e))
            (started c e rest s))) as H.
  { apply traced_run_calls.
    - by apply base_started.
    - by apply traced_started.
    - simpl. rewrite invoked_app. simpl.
      rewrite lookup_app_r; rewrite (b_inners _ Hb); [|done].
      by rewrite Nat.sub_diag.
    - simpl. rewrite lookup_app_r; rewrite (b_issued _ Hb), (b_inners _ Hb);
        [|done]. by rewrite Nat.sub_diag. }
  destruct (throws (fn e)); [|done]. by apply traced_settle_inner_rejected.
Qed.

Lemma Good_Inv s : Good s -> Inv s.
Proof. by intros (? & ? & ?). Qed.

Lemma traced_tick lp s : Inv s -> traced s -> traced (tick lp s).
Proof.
  intros [Hb Hph] Ht. rewrite tick_spec.
  pose proof (base_issued_lt s Hb) as Hn.
  destruct Hph as [H1 H2 H3 H4|H1 H2 H3 H4|rest x H1 H2 H3 H4 H5 H6 H7|
                   v H1 H2 H3|H1 H2 H3 H4 H5].
  - by rewrite H3.
  - rewrite H3. destruct lp as [c|].
    + destruct (_promiseFunctionArray (self s)) as [|e arr] eqn:Harr.
      { simpl in Hn. lia. }
      apply traced_follow, traced_stepped; try done.
      * by apply base_set_jobs.
      * by apply traced_set_jobs.
    + by apply traced_settle_link, traced_set_jobs.
  - by rewrite H2.
  - rewrite H2. by apply traced_settle_link, traced_set_jobs.
  - destruct (jobs s) as [|j js] eqn:Hj; [done|].
    apply Forall_cons in H1 as [(d & r & ->) H1].
    by apply traced_settle_link, traced_set_jobs.
Qed.

Lemma traced_timer n s : base s -> traced s -> traced (timer n s).
Proof.
  intros Hb Ht. unfold timer.
  destruct (issued s !! n) as [[[f res] rej]|] eqn:E; [|done].
  destruct (b_handles _ Hb _ _ E) as (e & He & Hx).
  injection Hx as -> -> ->.
  apply (traced_run_calls _ _ n e); try done.
Qed.

Lemma Good_istep lp ev s : Good s -> Good (istep lp ev s).
Proof.
  intros (Hb & Hph & Ht).
  destruct (Inv_istep lp ev s (conj Hb Hph)) as [Hb' Hph'].
  split_and!; try done.
  destruct ev as [fn|fn| |n]; unfold istep.
  - destruct lp as [c|]; [|done].
    destruct (submit_spec c false fn s Hb) as (g & Hg & Heq).
    change (push (Some c) fn s) with (_changeQueue (Some c) fn (inserter false) s).
    rewrite Heq. by apply traced_submitted.
  - destruct lp as [c|]; [|done].
    destruct (submit_spec c true fn s Hb) as (g & Hg & Heq).
    change (unshift (Some c) fn s)
      with (_changeQueue (Some c) fn (inserter true) s).
    rewrite Heq. by apply traced_submitted.
  - by apply traced_tick.
  - by apply traced_timer.
Qed.

Lemma Good_new c : Good (Pique_new c).
Proof. split_and!; [apply base_new|apply phase_new|apply traced_new]. Qed.

Lemma Good_irun evs s : Good s -> Good (irun evs s).
Proof.
  revert s. induction evs as [|[lp ev] evs IH]; intros s HI; simpl; [done|].
  by apply IH, Good_istep.
Qed.

(** ** Running the queue to completion *)

Lemma alive_spec s :
  alive s = true <-> unrejected (links s) /\ unrejected (inners s).
Proof.
  unfold alive, unrejected. rewrite negb_true_iff, <- Forall_app.
  rewrite Forall_forall. split.
  - intros H x Hx. destruct (rejected x) eqn:E; [|done].
    assert (existsb rejected (links s ++ inners s) = true); [|congruence].
    apply existsb_exists. exists x. split; [|done]. by apply list_elem_of_In.
  - intros H. destruct (existsb _ _) eqn:E; [|done].
    apply existsb_exists in E as (x & Hx%list_elem_of_In & Hr).
    rewrite (H x Hx) in Hr. done.
Qed.

Lemma alive_not_doomed s : alive s = true -> ~ doomed s.
Proof.
  intros [Hl Hi]%alive_spec (x & Hx & Hr). unfold unrejected in *.
  rewrite Forall_forall in Hl, Hi.
  destruct Hx as [Hx|Hx]; [rewrite (Hl x Hx) in Hr|rewrite (Hi x Hx) in Hr];
    done.
Qed.

Lemma unrejected_settle_in j v h :
  unrejected h -> unrejected (settle_in j (Fulfilled v) h).
Proof.
  intros H. apply Forall_lookup. intros i c. rewrite settle_in_lookup.
  destruct (h !! i) as [x|] eqn:E; [|done].
  pose proof (Forall_lookup_1 _ _ _ _ H E) as Hx. simpl in Hx.
  case_decide; [|by intros [= <-]].
  destruct (p_state x); intros [= <-]; done.
Qed.

Lemma awaiting_fulfilled s : Forall is_fulfilled (inners s) -> awaiting s = false.
Proof.
  intros H. unfold awaiting. destruct (last (inners s)) as [c|] eqn:E; [|done].
  rewrite last_lookup in E.
  destruct (Forall_lookup_1 _ _ _ _ H E) as [v Hv]. simpl. by rewrite Hv.
Qed.

Lemma reports_inner_state f e :
  fn e = f -> reports f = true ->
  inner_state e = Pending \/ inner_state e = Fulfilled VUndefined.
Proof.
  intros <-. unfold reports, inner_state.
  destruct (nonempty (sync (fn e))); [by right|]. simpl.
  destruct (throws (fn e)); [done|by left].
Qed.

Lemma progress c ev s :
  Good s -> alive s = true ->
  Forall (fun e => reports (fn e) = true) (timeline s) ->
  next_event s = Some ev ->
  alive (istep (Some c) ev s) = true /\
  weight (istep (Some c) ev s) < weight s.
Proof.
  intros (Hb & Hph & Ht) Hal Hrep Hev.
  pose proof (base_issued_lt s Hb) as Hn.
  apply alive_spec in Hal as Hal'. destruct Hal' as [Hal1 Hal2].
  unfold next_event in Hev.
  destruct Hph as [H1 H2 H3 H4|H1 H2 H3 H4|rest x H1 H2 H3 H4 H5 H6 H7|
                   v H1 H2 H3|H1 H2 H3 H4 H5].
  - rewrite H3, awaiting_fulfilled in Hev; done.
  - rewrite H3 in Hev. injection Hev as <-. unfold istep.
    rewrite tick_spec, H3.
    destruct (_promiseFunctionArray (self s)) as [|e arr] eqn:Harr.
    { simpl in Hn. lia. }
    set (s0 := set_jobs (fun _ => []) s).
    assert (Hb0 : base s0) by by apply base_set_jobs.
    destruct (stepped_fields c e arr s0 Hb0 Harr) as (F1 & F2 & F3 & F4 & F5).
    destruct (follow_last (Link (S (length (issued s)))) _ _ _ F4 eq_refl)
      as (G1 & G2 & G3).
    change (inners s0) with (inners s) in *.
    assert (Hre : reports (fn e) = true).
    { eapply (proj1 (Forall_forall _ _) Hrep). unfold timeline.
      rewrite Harr. apply elem_of_app. right. left. }
    unfold weight. rewrite (awaiting_fulfilled s H4), H3, Harr.
    rewrite follow_self, F1. simpl in G3 |- *.
    destruct (reports_inner_state _ e eq_refl Hre) as [Est|Est];
      rewrite Est in *; destruct G3 as [G3 G4].
    + split.
      * apply alive_spec. rewrite G1, G3, F2. split; [done|].
        apply Forall_app. split; [done|]. by repeat constructor.
      * unfold awaiting. rewrite G3, last_snoc. simpl. lia.
    + split.
      * apply alive_spec. rewrite G1, G3, F2, F4. split; [done|].
        apply Forall_app. split; [done|]. by repeat constructor.
      * unfold awaiting. rewrite G3, G4, F4, F5, last_snoc. simpl. lia.
  - assert (Haw : awaiting s = true).
    { unfold awaiting. rewrite H3, last_snoc. simpl. by rewrite H5. }
    rewrite H2, Haw in Hev. injection Hev as <-.
    assert (Hlen : length (issued s) = S (length rest)).
    { rewrite (b_issued _ Hb), <- (b_inners _ Hb), H3, length_app. simpl. lia. }
    rewrite Hlen. simpl. unfold timer.
    destruct (lookup_lt_is_Some_2 (issued s) (length rest)) as [y Hy]; [lia|].
    rewrite Hy.
    destruct (b_handles _ Hb _ _ Hy) as (e & He & Hx).
    destruct (handles_of_for e (length rest) _ (base_invoked_wf _ _ _ Hb He))
      as (j & _ & _ & Hres & Hrej).
    destruct y as [[f res] rej]. injection Hx as -> -> ->.
    destruct (run_calls_fields _ _ (async (fn e)) s j _ Hres Hrej (b_quiet _ Hb))
      as (R1 & R2 & R3 & R4 & R5 & _).
    assert (Hlast : last (issued s) = Some (handles_of e (length rest))).
    { rewrite last_lookup, Hlen. done. }
    destruct (H7 _ Hlast) as [Hs Hthr]. simpl in Hs, Hthr.
    assert (Hre : reports (fn e) = true).
    { eapply (proj1 (Forall_forall _ _) Hrep). unfold timeline.
      apply elem_of_app. left. apply list_elem_of_lookup. by eauto. }
    unfold reports in Hre. rewrite Hs, Hthr in Hre. simpl in Hre.
    rewrite Hre in R4, R5.
    assert (Hin : inners (run_calls (handles_of e (length rest)).1.2
                    (handles_of e (length rest)).2 (async (fn e)) s) =
                  rest ++ [settled_cell (Fulfilled VUndefined) x]).
    { rewrite R4, H3. unfold settle_in.
      rewrite lookup_app_r, Nat.sub_diag by done. simpl.
      by rewrite H5, insert_app_r_alt, Nat.sub_diag. }
    unfold handles_of in R1, R2, R5, Hin. cbn [fst snd] in R1, R2, R5, Hin.
    split.
    + apply alive_spec. rewrite R2, Hin. split; [done|].
      rewrite H3 in Hal2. apply Forall_app in Hal2 as [Hal2 _].
      apply Forall_app. split; [done|]. by repeat constructor.
    + unfold weight, awaiting. rewrite R1, Hin, last_snoc, R5, H2, H3.
      rewrite lookup_app_r, Nat.sub_diag, last_snoc by done. simpl.
      rewrite H5, H6. simpl. lia.
  - rewrite H2 in Hev. injection Hev as <-. unfold istep.
    rewrite tick_spec, H2.
    assert (Hk : length (issued s) < length (links s)) by lia.
    pose proof (chain_wake _ v _ H1 Hk) as Hw.
    split.
    + apply alive_spec. rewrite settle_links, settle_inners. simpl.
      split; [by apply unrejected_settle_in|done].
    + unfold weight, awaiting.
      rewrite settle_self, settle_inners, settle_jobs. simpl.
      fold (awaiting s). rewrite (awaiting_fulfilled s H3), H2, Hw.
      case_decide; simpl; lia.
  - by destruct (alive_not_doomed s Hal).
Qed.

Lemma timeline_next c ev s :
  next_event s = Some ev -> timeline (istep (Some c) ev s) = timeline s.
Proof.
  intros Hev. rewrite timeline_istep. unfold next_event in Hev.
  destruct (jobs s); [destruct (awaiting s)|]; by simplify_eq.
Qed.

Lemma quiescent s :
  Good s -> alive s = true -> next_event s = None ->
  _promiseFunctionArray (self s) = [] /\ invoked (log s) = timeline s /\
  jobs s = [] /\ Forall is_fulfilled (inners s).
Proof.
  intros (Hb & Hph & Ht) Hal Hev.
  pose proof (base_issued_lt s Hb) as Hn. unfold next_event in Hev.
  destruct Hph as [H1 H2 H3 H4|H1 H2 H3 H4|rest x H1 H2 H3 H4 H5 H6 H7|
                   v H1 H2 H3|H1 H2 H3 H4 H5].
  - assert (_promiseFunctionArray (self s) = []) as Harr.
    { apply nil_length_inv. lia. }
    unfold timeline. by rewrite Harr, app_nil_r.
  - by rewrite H3 in Hev.
  - rewrite H2 in Hev. unfold awaiting in Hev.
    rewrite H3, last_snoc in Hev. simpl in Hev. by rewrite H5 in Hev.
  - by rewrite H2 in Hev.
  - by destruct (alive_not_doomed s Hal).
Qed.

Lemma complete_spec c fuel s :
  Good s -> alive s = true ->
  Forall (fun e => reports (fn e) = true) (timeline s) ->
  weight s <= fuel ->
  Good (complete (Some c) fuel s) /\
  alive (complete (Some c) fuel s) = true /\
  timeline (complete (Some c) fuel s) = timeline s /\
  next_event (complete (Some c) fuel s) = None.
Proof.
  revert s. induction fuel as [|fuel IH]; intros s Hg Hal Hrep Hw; simpl.
  - destruct (next_event s) as [ev|] eqn:Hev; [|done].
    destruct (progress c ev s Hg Hal Hrep Hev). lia.
  - destruct (next_event s) as [ev|] eqn:Hev; [|done].
    destruct (progress c ev s Hg Hal Hrep Hev) as [Hal' Hlt].
    pose proof (timeline_next c ev s Hev) as Htl.
    destruct (IH (istep (Some c) ev s)) as (G1 & G2 & G3 & G4).
    + by apply Good_istep.
    + done.
    + by rewrite Htl.
    + lia.
    + split_and!; try done. by rewrite G3.
Qed.

(** With enough fuel every pending entry is popped and invoked, in the
    order of the pending sequence. *)
Lemma complete_runs_all c fuel s :
  Good s -> alive s = true ->
  Forall (fun e => reports (fn e) = true) (timeline s) ->
  weight s <= fuel ->
  invoked (log (complete (Some c) fuel s)) =
    invoked (log s) ++ _promiseFunctionArray (self s) /\
  _promiseFunctionArray (self (complete (Some c) fuel s)) = [] /\
  jobs (complete (Some c) fuel s) = [].
Proof.
  intros Hg Hal Hrep Hw.
  destruct (complete_spec c fuel s Hg Hal Hrep Hw) as (G1 & G2 & G3 & G4).
  destruct (quiescent _ G1 G2 G4) as (Q1 & Q2 & Q3 & Q4).
  split_and!; try done. by rewrite Q2, G3.
Qed.

Lemma weight_bound s :
  weight s <= 3 * length (_promiseFunctionArray (self s)) + 2.
Proof.
  unfold weight. destruct (awaiting s); [lia|].
  destruct (jobs s) as [|[] ?]; lia.
Qed.

(** ** Runs in which an implementation is configured and every unit
    reports *)

Lemma alive_submitted c front fn g s :
  links s !! pred (length (links s)) = Some g -> alive s = true ->
  alive (submitted c front fn (pred (length (links s))) g s) = true.
Proof.
  intros Hg [H1 H2]%alive_spec. apply alive_spec. simpl. split; [|done].
  assert (H : unrejected (links s ++ [pending (p_ctor g)])).
  { apply Forall_app. split; [done|]. by repeat constructor. }
  destruct (p_state g); try done; by apply Forall_insert.
Qed.

Lemma alive_timer n s : base s -> alive s = true -> alive (timer n s) = true.
Proof.
  intros Hb [H1 H2]%alive_spec. unfold timer.
  destruct (issued s !! n) as [[[f res] rej]|] eqn:E; [|by apply alive_spec].
  destruct (b_handles _ Hb _ _ E) as (e & He & Hx).
  destruct (handles_of_for e n _ (base_invoked_wf _ _ _ Hb He))
    as (j & _ & _ & Hres & Hrej).
  rewrite <- Hx in Hres, Hrej. simpl in Hres, Hrej.
  destruct (run_calls_fields res rej (async f) s j n Hres Hrej (b_quiet _ Hb))
    as (R1 & R2 & R3 & R4 & R5 & _).
  apply alive_spec. rewrite R2, R4. split; [done|].
  destruct (nonempty (async f)); [|done]. by apply unrejected_settle_in.
Qed.

Lemma Live_new c : Live (Pique_new c).
Proof.
  split; [apply Good_new|done|]. unfold timeline. simpl. constructor.
Qed.

Lemma Live_istep c ev s :
  Live s -> behaved_event (Some c, ev) = true -> Live (istep (Some c) ev s).
Proof.
  intros [Hg Hal Hrep] Hev. split; [by apply Good_istep| |].
  - destruct Hg as (Hb & Hph & Ht). destruct ev as [f|f| |n]; unfold istep.
    + destruct (submit_spec c false f s Hb) as (g & Hg & Heq).
      change (push (Some c) f s)
        with (_changeQueue (Some c) f (inserter false) s).
      rewrite Heq. by apply alive_submitted.
    + destruct (submit_spec c true f s Hb) as (g & Hg & Heq).
      change (unshift (Some c) f s)
        with (_changeQueue (Some c) f (inserter true) s).
      rewrite Heq. by apply alive_submitted.
    + destruct (jobs s) as [|j js] eqn:Hj.
      * unfold tick. by rewrite Hj.
      * apply (progress c Tick s); [done..|]. unfold next_event. by rewrite Hj.
    + by apply alive_timer.
  - rewrite timeline_istep. destruct ev as [f|f| |n]; try done; simpl in Hev.
    + unfold timeline in Hrep. apply Forall_app in Hrep as [H1 H2].
      rewrite !Forall_app. split_and!; try done. by repeat constructor.
    + unfold timeline in Hrep. apply Forall_app in Hrep as [H1 H2].
      rewrite !Forall_app. split_and!; try done. by constructor.
Qed.

Lemma Live_irun evs s : Live s -> behaved evs = true -> Live (irun evs s).
Proof.
  revert s. induction evs as [|[lp ev] evs IH]; intros s Hl Hev; [done|].
  simpl in Hev. apply andb_true_iff in Hev as [H1 H2].
  destruct lp as [c|]; [|done]. simpl. apply IH; [|done].
  by apply Live_istep.
Qed.

Lemma Live_complete c fuel s :
  Live s -> weight s <= fuel ->
  invoked (log (complete (Some c) fuel s)) =
    invoked (log s) ++ _promiseFunctionArray (self s) /\
  _promiseFunctionArray (self (complete (Some c) fuel s)) = [] /\
  jobs (complete (Some c) fuel s) = [].
Proof. intros [Hg Hal Hrep]. by apply complete_runs_all. Qed.

(** ** Order of execution *)

Lemma submit_effect c front fn s :
  base s ->
  log (istep (Some c) (submit front fn) s) = log s /\
  issued (istep (Some c) (submit front fn) s) = issued s /\
  inners (istep (Some c) (submit front fn) s) = inners s /\
  _promiseFunctionArray (self (istep (Some c) (submit front fn) s)) =
    insert_entry front (new_entry fn s) (_promiseFunctionArray (self s)) /\
  futures (istep (Some c) (submit front fn) s) = futures s ++ [pending c] /\
  length (links (istep (Some c) (submit front fn) s)) = S (length (links s)).
Proof.
  intros Hb. destruct (submit_spec c front fn s Hb) as (g & Hg & Heq).
  assert (istep (Some c) (submit front fn) s =
          submitted c front fn (pred (length (links s))) g s) as ->.
  { destruct front; unfold istep, submit, push, unshift.
    - change array_unshift with (inserter true). by rewrite Heq.
    - change array_push with (inserter false). by rewrite Heq. }
  split_and!; try done. simpl.
  destruct (p_state g); rewrite ?length_insert, length_app; simpl; lia.
Qed.

Lemma timeline_sublist_istep lp ev s :
  timeline s `sublist_of` timeline (istep lp ev s).
Proof.
  rewrite timeline_istep. unfold timeline.
  destruct ev as [f|f| |n]; try done; destruct lp as [c|]; try done.
  - apply sublist_app; [done|]. by apply sublist_inserts_r.
  - apply sublist_app; [done|]. by apply sublist_cons.
Qed.

Lemma timeline_sublist_irun evs s :
  timeline s `sublist_of` timeline (irun evs s).
Proof.
  revert s. induction evs as [|[lp ev] evs IH]; intros s; simpl; [done|].
  etrans; [apply timeline_sublist_istep|apply IH].
Qed.

Lemma Good_timeline_nodup s : Good s -> NoDup (timeline s).
Proof. intros (Hb & _ & _). eapply NoDup_fmap_1, Hb. Qed.

Lemma prefix_holds_occurrence {A} (I R P Q : list A) e :
  NoDup (I ++ R) -> I ++ R = P ++ e :: Q -> e ∈ I ->
  exists Q', I = P ++ e :: Q'.
Proof.
  intros Hnd Heq [i Hi]%list_elem_of_lookup.
  assert (i = length P) as ->.
  { eapply (NoDup_lookup (I ++ R)); [done| |].
    - by apply lookup_app_l_Some.
    - rewrite Heq. by rewrite lookup_app_r, Nat.sub_diag. }
  pose proof (lookup_lt_Some _ _ _ Hi) as Hlt.
  exists (drop (S (length P)) I).
  rewrite <- (take_drop (length P) I) at 1.
  assert (take (length P) I = P) as ->.
  { rewrite <- (take_app_le I R) by lia. rewrite Heq.
    by rewrite take_app_length. }
  f_equal. by apply drop_S.
Qed.

Lemma precedes_in_prefix {A} (I R : list A) a b :
  NoDup (I ++ R) -> [a; b] `sublist_of` I ++ R -> b ∈ I -> precedes I a b.
Proof.
  intros Hnd Hsub Hb.
  apply sublist_cons_l in Hsub as (k1 & k2 & Heq & Hsub).
  apply sublist_cons_l in Hsub as (k3 & k4 & -> & _).
  assert (Heq' : I ++ R = (k1 ++ a :: k3) ++ b :: k4).
  { rewrite Heq. by rewrite <- app_assoc. }
  destruct (prefix_holds_occurrence _ _ _ _ _ Hnd Heq' Hb) as [Q' ->].
  exists k1, k3, Q'. by rewrite <- app_assoc.
Qed.

(** ** Failures do not reach the driver *)



Lemma stepped_trace c e rest s :
  base s -> _promiseFunctionArray (self s) = e :: rest ->
  invoked (log (stepped c e rest s)) = invoked (log s) ++ [e] /\
  length (futures (stepped c e rest s)) = length (futures s).
Proof.
  intros Hb Harr.
  assert (Hwf : wf_entry (length (futures s)) e).
  { eapply (proj1 (Forall_forall _ _) (b_entries _ Hb)).
    unfold timeline. rewrite Harr. apply elem_of_app. right. left. }
  destruct (handles_of_for e (length (inners s)) _ Hwf) as (j & _ & _ & H1 & H2).
  destruct (run_calls_fields _ _ (sync (fn e)) (started c e rest s) j _ H1 H2)
    as (_ & _ & _ & _ & _ & _ & R7); [apply Hb|].
  unfold stepped, thrown. destruct (throws (fn e));
    rewrite ?settle_invoked, ?settle_futures, run_calls_invoked, R7; simpl;
    by rewrite invoked_app.
Qed.

Lemma runstep_nonempty s d js :
  Inv s -> jobs s = RunStep d :: js -> _promiseFunctionArray (self s) <> [].
Proof.
  intros [Hb Hph] Hj Harr. pose proof (base_issued_lt s Hb) as Hn.
  rewrite Harr in Hn. simpl in Hn.
  destruct Hph as [H1 H2 H3 H4|H1 H2 H3 H4|rest x H1 H2 H3 H4 H5 H6 H7|
                   v H1 H2 H3|H1 H2 H3 H4 H5]; try congruence.
  - lia.
  - rewrite Hj in H1. apply Forall_cons in H1 as [(? & ? & ?) _]. done.
Qed.








(** ** More on the order of execution *)

Lemma tick_pops lp s :
  exists popped,
    invoked (log (tick lp s)) = invoked (log s) ++ popped /\
    _promiseFunctionArray (self s) =
      popped ++ _promiseFunctionArray (self (tick lp s)).
Proof.
  rewrite tick_spec. destruct (jobs s) as [|[d|d st] js]; simpl.
  - exists []. by rewrite app_nil_r.
  - destruct lp as [c|].
    + destruct (_promiseFunctionArray (self s)) as [|e rest] eqn:Harr.
      * exists []. rewrite follow_log, follow_self, settle_invoked,
          settle_self. simpl. by rewrite app_nil_r.
      * exists [e]. rewrite follow_log, follow_self. unfold stepped, thrown.
        destruct (throws (fn e));
          rewrite ?settle_invoked, ?settle_self, run_calls_invoked,
            run_calls_self; simpl; by rewrite invoked_app.
    + exists []. rewrite settle_invoked, settle_self. simpl.
      by rewrite app_nil_r.
  - exists []. rewrite settle_invoked, settle_self. simpl. by rewrite app_nil_r.
Qed.

Lemma invoked_istep lp ev s :
  invoked (log s) `prefix_of` invoked (log (istep lp ev s)).
Proof.
  destruct ev as [f|f| |n]; unfold istep.
  - destruct lp as [c|]; [|done].
    pose proof (timeline_submit c false f s) as H. unfold push, _changeQueue.
    simpl in H |- *. unfold enqueue_step, new_LocalPromise, new_promise.
    simpl. unfold bind, then_. simpl.
    destruct (cell (_globalPromise (self s)) _) as [g|]; simpl.
    + by destruct (p_state g), (_globalPromise (self s)).
    + by rewrite settle_invoked.
  - destruct lp as [c|]; [|done].
    unfold unshift, _changeQueue, enqueue_step, new_LocalPromise, new_promise.
    simpl. unfold bind, then_. simpl.
    destruct (cell (_globalPromise (self s)) _) as [g|]; simpl.
    + by destruct (p_state g), (_globalPromise (self s)).
    + by rewrite settle_invoked.
  - destruct (tick_pops lp s) as (popped & -> & _). by apply prefix_app_r.
  - unfold timer. destruct (issued s !! n) as [[[f res] rej]|]; [|done].
    by rewrite run_calls_invoked.
Qed.

Lemma invoked_irun evs s :
  invoked (log s) `prefix_of` invoked (log (irun evs s)).
Proof.
  revert s. induction evs as [|[lp ev] evs IH]; intros s; simpl; [done|].
  etrans; [apply invoked_istep|apply IH].
Qed.

Lemma sublist_in_rest {A} (l I R : list A) :
  NoDup (I ++ R) -> l `sublist_of` I ++ R -> (forall x, x ∈ l -> x ∈ R) ->
  l `sublist_of` R.
Proof.
  revert l. induction I as [|i I IH]; intros l Hnd Hsub Hin; [done|].
  simpl in *. apply NoDup_cons in Hnd as [Hi Hnd].
  inversion Hsub as [|x l1 l2 Hs|x l1 l2 Hs]; subst.
  - destruct Hi. apply elem_of_app. right. apply Hin. by left.
  - by apply IH.
Qed.

(** A pending entry has not been invoked, and conversely. *)
Lemma pending_not_invoked s e :
  Good s -> e ∈ _promiseFunctionArray (self s) -> e ∉ invoked (log s).
Proof.
  intros Hg He Hi. apply Good_timeline_nodup in Hg.
  unfold timeline in Hg. apply NoDup_app in Hg as (_ & Hdis & _).
  by apply (Hdis e).
Qed.

Lemma timeline_pending s e :
  e ∈ timeline s -> e ∉ invoked (log s) -> e ∈ _promiseFunctionArray (self s).
Proof. unfold timeline. intros [?|?]%elem_of_app; done. Qed.


(** ** Runs that only push *)


(** ** Which constructor built which promise *)

Lemma settle_in_ctors j st h : p_ctor <$> settle_in j st h = p_ctor <$> h.
Proof.
  unfold settle_in. destruct (h !! j) as [x|] eqn:E; [|done].
  destruct (p_state x); [|done..].
  rewrite list_fmap_insert. simpl. apply list_insert_id.
  by rewrite list_lookup_fmap, E.
Qed.

Lemma settle_ctors p st s : ctors (settle p st s) = ctors s.
Proof.
  unfold ctors. rewrite settle_futures, settle_inners, settle_links.
  destruct p; by rewrite settle_in_ctors.
Qed.

Lemma call_finish_ctors f v s : ctors (call_finish f v s) = ctors s.
Proof.
  unfold call_finish. by rewrite !call_resolver_settle, !settle_ctors.
Qed.

Lemma run_calls_ctors res rej calls s :
  ctors (run_calls res rej calls s) = ctors s.
Proof.
  revert s. induction calls as [|x calls IH]; intros s; simpl; [done|].
  by rewrite IH, call_finish_ctors.
Qed.

Lemma enqueue_step_ctor c fn front s :
  exists s',
    enqueue_step (Some c) fn (inserter front) s =
      (inl (Future (length (futures s))), s') /\
    p_ctor <$> futures s' !! length (futures s) = Some c.
Proof.
  assert (Hc : forall t,
            p_ctor <$> futures t = p_ctor <$> (futures s ++ [pending c]) ->
            p_ctor <$> futures t !! length (futures s) = Some c).
  { intros t Ht. rewrite <- list_lookup_fmap, Ht, list_lookup_fmap. simpl.
    by rewrite lookup_app_r, Nat.sub_diag. }
  assert (Hset : forall p g (t : store),
            cell p t = Some g -> forall st r,
            p_ctor <$> futures (set_cell p {| p_ctor := p_ctor g;
              p_state := st; p_reactions := r |} t) = p_ctor <$> futures t).
  { intros [n|n|n] g t Hg st r; simpl; try done.
    rewrite list_fmap_insert. simpl. apply list_insert_id.
    simpl in Hg. by rewrite list_lookup_fmap, Hg. }
  unfold enqueue_step, new_LocalPromise, new_promise.
  destruct front; simpl; unfold bind, then_; simpl;
    (destruct (cell (_globalPromise (self s)) _) as [g|] eqn:Eg; simpl;
     eexists; (split; [reflexivity|]); apply Hc).
  - destruct (p_state g); simpl; try done;
      (destruct (_globalPromise (self s)); try done;
       by apply (Hset (Future n))).
  - rewrite settle_futures. simpl. by rewrite settle_in_ctors.
  - destruct (p_state g); simpl; try done;
      (destruct (_globalPromise (self s)); try done;
       by apply (Hset (Future n))).
  - rewrite settle_futures. simpl. by rewrite settle_in_ctors.
Qed.

Lemma step_ctor c s :
  exists s',
    step (Some c) s = (inl (Inner (length (inners s))), s') /\
    p_ctor <$> inners s' !! length (inners s) = Some c.
Proof.
  unfold step, new_LocalPromise, new_promise. simpl.
  unfold bind, array_shift. simpl.
  assert (Hc : forall t, ctors t = ctors (set_inners (fun h => h ++ [pending c]) s) ->
            p_ctor <$> inners t !! length (inners s) = Some c).
  { intros t Ht. unfold ctors in Ht. injection Ht as _ Ht _.
    rewrite <- list_lookup_fmap, Ht, list_lookup_fmap. simpl.
    by rewrite lookup_app_r, Nat.sub_diag. }
  destruct (_promiseFunctionArray (self s)) as [|e rest]; simpl.
  - eexists. split; [reflexivity|]. apply Hc. by rewrite settle_ctors.
  - unfold call_fn. destruct (throws (fn e)); simpl;
      (eexists; split; [reflexivity|]); apply Hc;
      by rewrite ?settle_ctors, run_calls_ctors.
Qed.

(** [then] asks the constructor of the promise it is called on. *)
Lemma then_keeps_ctor p g s :
  cell p s = Some g ->
  exists d s', then_ p s = (inl d, s') /\ p_ctor <$> cell d s' = Some (p_ctor g).
Proof.
  intros Hg. unfold then_. rewrite Hg. eexists _, _. split; [reflexivity|].
  destruct (p_state g); simpl; try by rewrite lookup_app_r, Nat.sub_diag.
  all: destruct p as [n|n|n]; simpl; try by rewrite lookup_app_r, Nat.sub_diag.
  all: simpl in Hg; pose proof (lookup_lt_Some _ _ _ Hg).
  all: rewrite list_lookup_insert_ne by lia.
  all: by rewrite lookup_app_r, Nat.sub_diag.
Qed.

Lemma Good_reach c0 evs : Good (irun evs (Pique_new c0)).
Proof. apply Good_irun, Good_new. Qed.

Lemma Live_reach c0 evs : behaved evs = true -> Live (irun evs (Pique_new c0)).
Proof. intros H. by apply Live_irun; [apply Live_new|]. Qed.

Lemma behaved_app evs1 evs2 :
  behaved (evs1 ++ evs2) = behaved evs1 && behaved evs2.
Proof. apply forallb_app. Qed.

Lemma timeline_submit_event c front fn s :
  timeline (istep (Some c) (submit front fn) s) =
    invoked (log s) ++
      insert_entry front (new_entry fn s) (_promiseFunctionArray (self s)).
Proof. rewrite timeline_istep. by destruct front. Qed.


(** ** The module variable and the two copies of [_changeQueue] *)

Lemma changeQueue_configured c fn how s :
  _changeQueue (Some c) fn how s = _changeQueue_bundled (Some c) fn how s.
Proof. reflexivity. Qed.

Lemma changeQueue_unconfigured fn how s :
  _changeQueue None fn how s =
    (inr (VError "Error" "A Promise library set by .configure"), s) /\
  _changeQueue_bundled None fn how s =
    (inr (VError "TypeError" "LocalPromise is not a constructor"), s).
Proof. split; reflexivity. Qed.

Lemma LocalPromise_wstep ev w :
  is_configure ev = false -> LocalPromise (wstep ev w) = LocalPromise w.
Proof.
  destruct ev as [c| |q ev]; simpl; intros H; [done| |].
  - unfold new_Pique. by destruct (LocalPromise w) eqn:E.
  - by destruct (queues w !! q).
Qed.

Lemma LocalPromise_wrun evs w :
  forallb (fun ev => negb (is_configure ev)) evs = true ->
  LocalPromise (wrun evs w) = LocalPromise w.
Proof.
  revert w. induction evs as [|ev evs IH]; intros w H; simpl in *; [done|].
  apply andb_true_iff in H as [H1 H2]. rewrite IH by done.
  apply LocalPromise_wstep. by destruct (is_configure ev).
Qed.

(** ** The phase of a scheduled step *)

Lemma scheduled_phase s d js :
  Inv s -> jobs s = RunStep d :: js ->
  d = Link (S (length (issued s))) /\ js = [] /\
  chain (S (length (issued s))) (links s) /\
  S (length (issued s)) < length (links s) /\
  Forall is_fulfilled (inners s).
Proof.
  intros [Hb Hph] Hj.
  destruct Hph as [H1 H2 H3 H4|H1 H2 H3 H4|rest x H1 H2 H3 H4 H5 H6 H7|
                   v H1 H2 H3|H1 H2 H3 H4 H5]; try congruence.
  - rewrite H3 in Hj. by injection Hj as <- <-.
  - rewrite Hj in H1. apply Forall_cons in H1 as [(k & r & [=]) _].
Qed.

Lemma settle_in_not_following j st h :
  (forall t, st <> Following t) ->
  Forall not_following h -> Forall not_following (settle_in j st h).
Proof.
  intros Hst H. apply Forall_lookup. intros i c. rewrite settle_in_lookup.
  destruct (h !! i) as [x|] eqn:E; [|done].
  pose proof (Forall_lookup_1 _ _ _ _ H E) as Hx.
  case_decide; [|by intros [= <-]].
  destruct (p_state x); by intros [= <-].
Qed.

(** ** What an event does to the futures *)

Lemma run_calls_futures_settled res rej calls s j i :
  handle_for j i res -> handle_for j i rej -> Forall quiet (futures s) ->
  (forall c, futures s !! j = Some c -> p_state c <> Pending) ->
  futures (run_calls res rej calls s) = futures s.
Proof.
  intros Hres Hrej. revert s.
  induction calls as [|[k v] calls IH]; intros s Hq Hs; [done|]. simpl.
  assert (Hh : handle_for j i (handle res rej k)) by by destruct k.
  destruct (call_finish_fields _ v s j i Hh Hq) as (_ & _ & _ & _ & _ & F6 & _).
  rewrite (settle_in_settled _ _ _ Hs) in F6.
  rewrite IH; by rewrite F6.
Qed.

Lemma run_calls_futures e i calls s j :
  localResolve e = ResolveOf (Future j) ->
  localReject e = RejectOf (Future j) -> Forall quiet (futures s) ->
  futures (run_calls (handles_of e i).1.2 (handles_of e i).2 calls s) =
    reported e calls (futures s).
Proof.
  intros Hr Hj Hq. unfold reported, future_of. rewrite Hr. simpl.
  destruct calls as [|[k v] calls]; [done|]. simpl.
  set (res := finishPromise (localResolve e) (ResolveOf (Inner i))).
  set (rej := finishPromise (localReject e) (ResolveOf (Inner i))).
  assert (Hres : handle_for j i res) by (split; [simpl; by rewrite Hr|done]).
  assert (Hrej : handle_for j i rej) by (split; [simpl; by rewrite Hj|done]).
  assert (Hh : handle_for j i (handle res rej k)) by by destruct k.
  destruct (call_finish_fields _ v s j i Hh Hq) as (_ & _ & _ & _ & _ & F6 & _).
  assert (Ho : outcome (localFn (handle res rej k)) v = report k v).
  { destruct k; simpl; [by rewrite Hr|by rewrite Hj]. }
  rewrite Ho in F6.
  rewrite (run_calls_futures_settled res rej calls _ j i Hres Hrej).
  - done.
  - rewrite F6. by apply settle_in_quiet.
  - rewrite F6. intros c. apply settle_in_not_pending. by destruct k, v.
Qed.

Lemma pass_link s d st js :
  Inv s -> jobs s = Pass d st :: js -> exists k, d = Link k.
Proof.
  intros [Hb Hph] Hj.
  destruct Hph as [H1 H2 H3 H4|H1 H2 H3 H4|rest x H1 H2 H3 H4 H5 H6 H7|
                   v H1 H2 H3|H1 H2 H3 H4 H5]; try congruence.
  - rewrite H2 in Hj. injection Hj as <- _ _. by eexists.
  - rewrite Hj in H1. apply Forall_cons in H1 as [(k & r & [= -> ->]) _].
    by eexists.
Qed.

Lemma entry_future s e :
  base s -> e ∈ timeline s ->
  exists j, j < length (futures s) /\ future_of e = Future j /\
            localResolve e = ResolveOf (Future j) /\
            localReject e = RejectOf (Future j).
Proof.
  intros Hb He.
  destruct (proj1 (Forall_forall _ _) (b_entries _ Hb) e He)
    as (j & Hj & Hr & Hrej).
  exists j. split_and!; try done. unfold future_of. by rewrite Hr.
Qed.

Lemma futures_istep lp ev s :
  Inv s -> futures (istep lp ev s) = futures_after lp ev s.
Proof.
  intros (Hb & Hph). destruct ev as [fn|fn| |i].
  - destruct lp as [c|]; [|done].
    by destruct (submit_effect c false fn s Hb) as (_ & _ & _ & _ & E & _).
  - destruct lp as [c|]; [|done].
    by destruct (submit_effect c true fn s Hb) as (_ & _ & _ & _ & E & _).
  - unfold istep, futures_after, served. rewrite tick_spec.
    destruct (jobs s) as [|[d|d st] js] eqn:Hj.
    + by destruct lp.
    + destruct (scheduled_phase s d js (conj Hb Hph) Hj) as (-> & -> & _).
      destruct lp as [c|]; [|by rewrite settle_futures].
      destruct (_promiseFunctionArray (self s)) as [|e rest] eqn:Harr.
      { by destruct (runstep_nonempty s _ _ (conj Hb Hph) Hj). }
      simpl.
      destruct (follow_fields (Link (S (length (issued s))))
                  (length (inners s))
                  (stepped c e rest (set_jobs (fun _ => []) s)))
        as (_ & _ & _ & F4 & _).
      rewrite F4. clear F4.
      assert (He : e ∈ timeline s).
      { unfold timeline. rewrite Harr. apply elem_of_app. right. left. }
      destruct (entry_future s e Hb He) as (j & _ & _ & Hr & Hrej).
      unfold stepped, thrown.
      assert (Hrun : futures (run_calls
                 (handles_of e (length (inners (set_jobs (fun _ => []) s)))).1.2
                 (handles_of e (length (inners (set_jobs (fun _ => []) s)))).2
                 (sync (fn e)) (started c e rest (set_jobs (fun _ => []) s))) =
               reported e (sync (fn e)) (futures s)).
      { rewrite (run_calls_futures e _ _ _ j Hr Hrej); [done|]. apply Hb. }
      destruct (throws (fn e)); [rewrite settle_futures|]; exact Hrun.
    + destruct (pass_link s d st js (conj Hb Hph) Hj) as [k ->].
      rewrite settle_futures. by destruct lp.
  - unfold istep, futures_after, served, timer.
    destruct (issued s !! i) as [[[f res] rej]|] eqn:E.
    + destruct (b_handles _ Hb _ _ E) as (e & He & Hx). rewrite He.
      injection Hx as -> -> ->.
      assert (Hin : e ∈ timeline s).
      { unfold timeline. apply elem_of_app. left.
        by eapply list_elem_of_lookup_2. }
      destruct (entry_future s e Hb Hin) as (j & _ & _ & Hr & Hrej).
      apply (run_calls_futures e i _ s j Hr Hrej), Hb.
    + apply lookup_ge_None in E. rewrite (b_issued _ Hb) in E.
      apply lookup_ge_None in E. by rewrite E.
Qed.

Lemma reported_other e calls h j :
  future_of e <> Future j -> reported e calls h !! j = h !! j.
Proof.
  intros Hne. unfold reported. destruct calls as [|c calls]; [done|].
  destruct (future_of e) as [j'| |]; try done.
  rewrite settle_in_lookup. destruct (h !! j); [|done].
  rewrite decide_False; [done|]. by intros ->.
Qed.

Lemma reported_own e calls h j x :
  future_of e = Future j -> h !! j = Some x ->
  exists x', reported e calls h !! j = Some x' /\
    p_state x' = match p_state x with
                 | Pending => first_report calls
                 | st => st
                 end.
Proof.
  intros He Hx. unfold reported, first_report. rewrite He.
  destruct calls as [|c calls].
  - exists x. split; [done|]. by destruct (p_state x).
  - rewrite settle_in_lookup, Hx, decide_True by done.
    destruct (p_state x) eqn:E; eauto.
Qed.

Lemma tick_serves c s d js e rest :
  jobs s = RunStep d :: js -> _promiseFunctionArray (self s) = e :: rest ->
  invoked (log (tick (Some c) s)) = invoked (log s) ++ [e] /\
  _promiseFunctionArray (self (tick (Some c) s)) = rest.
Proof.
  intros Hj Harr. rewrite tick_spec, Hj, Harr.
  rewrite follow_log, follow_self. unfold stepped, thrown.
  destruct (throws (fn e));
    rewrite ?settle_invoked, ?settle_self, run_calls_invoked,
      run_calls_self; simpl; by rewrite invoked_app.
Qed.


Lemma served_apart lp ev s e e' :
  Inv s -> served lp ev s = Some e ->
  e' ∈ _promiseFunctionArray (self (istep lp ev s)) ->
  future_of e <> future_of e'.
Proof.
  intros HI Hs He'. pose proof (Inv_istep lp ev s HI) as [Hb' _].
  pose proof (b_nodup _ Hb') as Hnd. unfold timeline in Hnd.
  rewrite fmap_app in Hnd. apply NoDup_app in Hnd as (_ & Hnd & _).
  intros Heq. apply (Hnd (future_of e)).
  - apply list_elem_of_fmap. exists e. split; [done|].
    destruct ev as [f|f| |i]; try done.
    + simpl in Hs. destruct lp as [c|]; [|done].
      destruct (jobs s) as [|[d|d st] js] eqn:Hj; try done.
      destruct (_promiseFunctionArray (self s)) as [|e0 rest] eqn:Harr;
        [done|]. injection Hs as ->.
      destruct (tick_serves c s d js e rest Hj Harr) as [Hinv _].
      change (tick (Some c) s) with (istep (Some c) Tick s) in Hinv.
      rewrite Hinv. apply elem_of_app. right. left.
    + simpl in Hs. apply list_elem_of_lookup_2 in Hs.
      destruct (invoked_istep lp (Timer i) s) as [k ->].
      apply elem_of_app. by left.
  - rewrite Heq. apply list_elem_of_fmap. by exists e'.
Qed.

Lemma array_istep lp ev s e :
  base s -> e ∈ _promiseFunctionArray (self (istep lp ev s)) ->
  e ∈ _promiseFunctionArray (self s) \/
  exists c f, lp = Some c /\ (ev = Push f \/ ev = Unshift f) /\
              e = new_entry f s.
Proof.
  intros Hb He. destruct ev as [f|f| |i].
  - destruct lp as [c|]; [|by left].
    destruct (submit_effect c false f s Hb) as (_ & _ & _ & E & _).
    change (submit false f) with (Push f) in E. rewrite E in He.
    simpl in He. apply elem_of_app in He as [He|He]; [by left|].
    apply list_elem_of_singleton in He. right. exists c, f. auto.
  - destruct lp as [c|]; [|by left].
    destruct (submit_effect c true f s Hb) as (_ & _ & _ & E & _).
    change (submit true f) with (Unshift f) in E. rewrite E in He.
    simpl in He. apply elem_of_cons in He as [He|He]; [|by left].
    right. exists c, f. auto.
  - left. simpl in He. destruct (tick_pops lp s) as (popped & _ & ->).
    apply elem_of_app. by right.
  - left. simpl in He. unfold timer in He.
    destruct (issued s !! i) as [[[f res] rej]|]; [|done].
    by rewrite run_calls_self in He.
Qed.

(** ** Thenables *)

Lemma unserved_istep lp ev s : Sound s -> unserved (istep lp ev s).
Proof.
  intros [HI Hu]. pose proof HI as [Hb _]. apply Forall_forall. intros e He.
  simpl. pose proof (futures_istep lp ev s HI) as Hf.
  destruct (array_istep lp ev s e Hb He) as [Hold|(c & f & -> & Hev & ->)].
  - destruct (proj1 (Forall_forall _ _) Hu e Hold) as (x & Hx & Hp).
    exists x. split; [|done].
    assert (Hin : e ∈ timeline s) by (apply elem_of_app; by right).
    destruct (entry_future s e Hb Hin) as (j & Hj & Hfo & _).
    rewrite Hfo in Hx |- *. simpl in Hx |- *. rewrite Hf.
    unfold futures_after.
    destruct ev as [f|f| |i].
    + destruct lp; [|done]. by apply lookup_app_l_Some.
    + destruct lp; [|done]. by apply lookup_app_l_Some.
    + destruct (served lp Tick s) as [e0|] eqn:Hs; [|done].
      rewrite reported_other; [done|]. rewrite <- Hfo.
      by apply (served_apart lp Tick s).
    + destruct (served lp (Timer i) s) as [e0|] eqn:Hs; [|done].
      rewrite reported_other; [done|]. rewrite <- Hfo.
      by apply (served_apart lp (Timer i) s).
  - exists (pending c). split; [|done].
    unfold new_entry, future_of. simpl. rewrite Hf. unfold futures_after.
    destruct Hev as [->| ->]; by rewrite lookup_app_r, Nat.sub_diag.
Qed.

Lemma answered_quiet t st c : quiet c -> quiet (answered t st c).
Proof.
  unfold quiet, answered. intros H. destruct (follows t c); [|done].
  simpl. by destruct st.
Qed.

Lemma answers_futures t j k v s :
  futures (answers t j k v s) =
    match futures s !! j with
    | Some c => <[j := answered t (report k v) c]> (futures s)
    | None => futures s
    end.
Proof.
  unfold answers, answered. destruct (futures s !! j) as [c|] eqn:E; [|done].
  destruct (follows t c); [done|]. by rewrite list_insert_id.
Qed.

Lemma answers_lookup t j k v s i :
  futures (answers t j k v s) !! i =
    if decide (i = j) then answered t (report k v) <$> futures s !! i
    else futures s !! i.
Proof.
  rewrite answers_futures. destruct (decide (i = j)) as [->|Hne].
  - destruct (futures s !! j) as [c|] eqn:E; [|by rewrite E].
    rewrite list_lookup_insert_eq; [done|]. by eapply lookup_lt_Some.
  - destruct (futures s !! j); [|done]. by rewrite list_lookup_insert_ne.
Qed.

Lemma answers_jobs t j k v s :
  Forall quiet (futures s) -> jobs (answers t j k v s) = jobs s.
Proof.
  intros Hq. unfold answers. destruct (futures s !! j) as [c|] eqn:E; [|done].
  destruct (follows t c); [|done]. simpl.
  pose proof (Forall_lookup_1 _ _ _ _ Hq E) as Hc. unfold reaction_jobs.
  rewrite Hc. destruct (report k v); by rewrite app_nil_r.
Qed.

Lemma answers_invoked t j k v s :
  invoked (log (answers t j k v s)) = invoked (log s).
Proof.
  unfold answers. destruct (futures s !! j) as [c|]; [|done].
  destruct (follows t c); [|done]. simpl. by rewrite invoked_app, app_nil_r.
Qed.

Lemma answers_frame t j k v s :
  self (answers t j k v s) = self s /\ links (answers t j k v s) = links s /\
  inners (answers t j k v s) = inners s /\ issued (answers t j k v s) = issued s.
Proof.
  unfold answers. destruct (futures s !! j) as [c|]; [|done].
  by destruct (follows t c).
Qed.

Lemma Inv_answers t j k v s : Inv s -> Inv (answers t j k v s).
Proof.
  intros [Hb Hph]. destruct (answers_frame t j k v s) as (F1 & F2 & F3 & F4).
  split.
  - apply (base_frame s); try done.
    + by rewrite F2.
    + apply answers_invoked.
    + by rewrite F3.
    + rewrite answers_futures. destruct (futures s !! j); [|done].
      apply length_insert.
    + rewrite answers_futures. destruct (futures s !! j) as [c|] eqn:E;
        [|apply Hb].
      apply Forall_insert; [apply Hb|]. apply answered_quiet.
      apply (Forall_lookup_1 _ _ _ _ (b_quiet _ Hb) E).
  - apply (phase_ext s); try done. apply answers_jobs, Hb.
Qed.

Lemma unserved_answers t j k v s : unserved s -> unserved (answers t j k v s).
Proof.
  unfold unserved. intros Hu.
  rewrite (proj1 (answers_frame t j k v s)).
  eapply Forall_impl; [apply Hu|]. intros e (x & Hx & Hp).
  exists x. split; [|done].
  destruct (answers_frame t j k v s) as (_ & F2 & F3 & _).
  destruct (future_of e) as [i|i|i]; simpl in Hx |- *;
    [|by rewrite F3|by rewrite F2].
  rewrite answers_lookup. destruct (decide (i = j)); [|done].
  rewrite Hx. simpl. unfold answered, follows. by rewrite Hp.
Qed.

Lemma Sound_new c : Sound (Pique_new c).
Proof. split; [apply Inv_new|]. by apply Forall_nil. Qed.

Lemma Sound_xstep x s : Sound s -> Sound (xstep x s).
Proof.
  intros Hs. destruct x as [[lp ev]|t j k v]; simpl.
  - split; [apply Inv_istep, Hs|by apply unserved_istep].
  - split; [apply Inv_answers, Hs|apply unserved_answers, Hs].
Qed.

Lemma Sound_xrun xs s : Sound s -> Sound (xrun xs s).
Proof.
  revert s. induction xs as [|x xs IH]; intros s Hs; [done|].
  simpl. by apply IH, Sound_xstep.
Qed.

(** ** Plain runs *)










(** ** The entries of a run *)


Lemma submitted_tail c front fn t g s :
  links s !! t = Some g ->
  cell (_globalPromise (self (submitted c front fn t g s)))
       (submitted c front fn t g s) = Some (pending (p_ctor g)).
Proof.
  intros Ht. pose proof (lookup_lt_Some _ _ _ Ht) as Hlt.
  unfold submitted. simpl.
  destruct (p_state g); rewrite ?list_lookup_insert_ne by lia;
    by rewrite lookup_app_r, Nat.sub_diag.
Qed.

(** * The claims of the specification *)

(** C1: tail-submit A, head-submit B, tail-submit C, head-submit D, with
    anything happening in between as long as A, B and C are still pending
    when D is submitted: once the queue has run to completion, the four
    units have been invoked in the order D, B, A, C. *)
Theorem mixed_submissions_run_D_B_A_C (c0 c : ctor)
    (evs0 evs1 evs2 evs3 evs4 : list (option ctor * event))
    (A B C D : promiseFunction) (fuel : nat) :
  let s0 := irun evs0 (Pique_new c0) in
  let a := new_entry A s0 in
  let s1 := irun evs1 (istep (Some c) (Push A) s0) in
  let b := new_entry B s1 in
  let s2 := irun evs2 (istep (Some c) (Unshift B) s1) in
  let c' := new_entry C s2 in
  let s3 := irun evs3 (istep (Some c) (Push C) s2) in
  let d := new_entry D s3 in
  let s4 := irun evs4 (istep (Some c) (Unshift D) s3) in
  behaved (evs0 ++ evs1 ++ evs2 ++ evs3 ++ evs4) = true ->
  reports A = true -> reports B = true ->
  reports C = true -> reports D = true ->
  a ∈ _promiseFunctionArray (self s3) ->
  b ∈ _promiseFunctionArray (self s3) ->
  c' ∈ _promiseFunctionArray (self s3) ->
  weight s4 <= fuel ->
  [d; b; a; c'] `sublist_of` invoked (log (complete (Some c) fuel s4)) /\
  [D; B; A; C] `sublist_of` executed (complete (Some c) fuel s4).
Proof.
  intros s0 a s1 b s2 c' s3 d s4 Hbeh HA HB HC HD Ha Hb Hc Hfuel.
  rewrite !behaved_app, !andb_true_iff in Hbeh.
  destruct Hbeh as (B0 & B1 & B2 & B3 & B4).
  assert (L0 : Live s0) by by apply Live_reach.
  assert (L1 : Live s1).
  { apply Live_irun; [|done]. by apply Live_istep. }
  assert (L2 : Live s2).
  { apply Live_irun; [|done]. by apply Live_istep. }
  assert (L3 : Live s3).
  { apply Live_irun; [|done]. by apply Live_istep. }
  assert (L4 : Live s4).
  { apply Live_irun; [|done]. by apply Live_istep. }
  (* A is still pending when B is submitted *)
  assert (Ha1 : a ∈ _promiseFunctionArray (self s1)).
  { apply timeline_pending.
    - eapply elem_of_sublist; [|apply (timeline_sublist_irun evs1)].
      rewrite (timeline_submit_event c false).
      apply elem_of_app. right. apply elem_of_app. right. left.
    - intros Hin. apply (pending_not_invoked s3 a (live_good _ L3) Ha).
      eapply elem_of_prefix; [apply Hin|].
      etrans; [apply (invoked_istep (Some c) (Unshift B))|].
      etrans; [apply (invoked_irun evs2)|].
      etrans; [apply (invoked_istep (Some c) (Push C))|].
      apply (invoked_irun evs3). }
  assert (S2 : [b; a] `sublist_of` timeline s2).
  { etrans; [|apply timeline_sublist_irun].
    rewrite (timeline_submit_event c true). simpl.
    apply sublist_inserts_l, sublist_skip.
    by apply singleton_sublist_l. }
  assert (S3 : [b; a; c'] `sublist_of` timeline s3).
  { etrans; [|apply timeline_sublist_irun].
    rewrite (timeline_submit_event c false). simpl. rewrite app_assoc.
    change [b; a; c'] with ([b; a] ++ [c']).
    apply sublist_app; [exact S2|done]. }
  assert (S3' : [b; a; c'] `sublist_of` _promiseFunctionArray (self s3)).
  { eapply sublist_in_rest; [apply Good_timeline_nodup, L3|apply S3|].
    intros x. rewrite !elem_of_cons, elem_of_nil.
    intros [->|[->|[->|[]]]]; done. }
  assert (S4 : [d; b; a; c'] `sublist_of` timeline s4).
  { etrans; [|apply timeline_sublist_irun].
    rewrite (timeline_submit_event c true). simpl.
    by apply sublist_inserts_l, sublist_skip. }
  destruct (Live_complete c fuel s4 L4 Hfuel) as (Hinv & _ & _).
  fold (timeline s4) in Hinv.
  split; [by rewrite Hinv|].
  unfold executed. rewrite Hinv.
  change [D; B; A; C] with (fn <$> [d; b; a; c']). by apply fmap_sublist.
Qed.

Lemma mixed_submissions_witness :
  let A := fail_now (VStr "first") in
  let B := now (VStr "second") in
  let C := now (VStr "third") in
  let D := fail_now (VStr "fourth") in
  let s0 := irun (on lie [Unshift (after VUndefined)]) (Pique_new "lie") in
  let s1 := irun [] (istep (Some "lie"%string) (Push A) s0) in
  let s2 := irun [] (istep (Some "lie"%string) (Unshift B) s1) in
  let s3 := irun [] (istep (Some "lie"%string) (Push C) s2) in
  let s4 := irun [] (istep (Some "lie"%string) (Unshift D) s3) in
  [D; B; A; C] `sublist_of` executed (complete (Some "lie"%string) 20 s4).
Proof.
  intros A B C D s0 s1 s2 s3 s4.
  refine (proj2 (mixed_submissions_run_D_B_A_C "lie" "lie"
           (on lie [Unshift (after VUndefined)]) [] [] [] [] A B C D 20
           eq_refl eq_refl eq_refl eq_refl eq_refl _ _ _ _)).
  - vm_compute. apply list_elem_of_further, list_elem_of_further,
      list_elem_of_here.
  - vm_compute. apply list_elem_of_here.
  - vm_compute. apply list_elem_of_further, list_elem_of_further,
      list_elem_of_further, list_elem_of_here.
  - vm_compute. lia.
Defined.




(** C3: a unit submitted with [unshift] is placed in front of every entry
    that is still pending, so it is invoked before each of them, whatever
    happens afterwards; and when an implementation stays configured and
    every unit reports, the run to completion invokes both, the later
    submission first. *)
Theorem unshift_runs_before_pending (c0 c : ctor)
    (evs0 evs : list (option ctor * event)) (fn : promiseFunction)
    (e : entry) (fuel : nat) :
  let s := irun evs0 (Pique_new c0) in
  let e' := new_entry fn s in
  let sf := irun evs (istep (Some c) (Unshift fn) s) in
  e ∈ _promiseFunctionArray (self s) ->
  _promiseFunctionArray (self (istep (Some c) (Unshift fn) s)) =
    e' :: _promiseFunctionArray (self s) /\
  (e ∈ invoked (log sf) -> precedes (invoked (log sf)) e' e) /\
  (behaved (evs0 ++ evs) = true -> reports fn = true -> weight sf <= fuel ->
   precedes (invoked (log (complete (Some c) fuel sf))) e' e).
Proof.
  intros s e' sf He.
  pose proof (Good_reach c0 evs0) as Hg. fold s in Hg.
  assert (Hsub : [e'; e] `sublist_of` timeline sf).
  { etrans; [|apply timeline_sublist_irun].
    rewrite (timeline_submit_event c true). simpl.
    apply sublist_inserts_l, sublist_skip. by apply singleton_sublist_l. }
  assert (Hgf : Good sf) by by apply Good_irun, Good_istep.
  split_and!.
  - destruct Hg as (Hb & _ & _).
    by destruct (submit_effect c true fn s Hb) as (_ & _ & _ & H & _).
  - intros Hin. eapply precedes_in_prefix; [|exact Hsub|exact Hin].
    by apply Good_timeline_nodup.
  - intros Hbeh Hfn Hfuel. rewrite behaved_app, andb_true_iff in Hbeh.
    destruct Hbeh as [B0 B1].
    assert (Hl : Live sf).
    { apply Live_irun; [|done]. apply Live_istep; [|done].
      by apply Live_reach. }
    destruct (Live_complete c fuel sf Hl Hfuel) as (Hinv & _ & _).
    fold (timeline sf) in Hinv. rewrite Hinv.
    apply sublist_cons_l in Hsub as (k1 & k2 & Heq & Hsub).
    apply sublist_cons_l in Hsub as (k3 & k4 & -> & _).
    by exists k1, k3, k4.
Qed.

Lemma unshift_witness :
  let evs0 := on lie [Push (after VUndefined); Unshift (now (VStr "first"))] in
  let fn := fail_now (VStr "second") in
  let e := {| fn := now (VStr "first"); localResolve := ResolveOf (Future 1);
              localReject := RejectOf (Future 1) |} in
  let s := irun evs0 (Pique_new "lie") in
  let e' := new_entry fn s in
  let sf := irun [] (istep (Some "lie"%string) (Unshift fn) s) in
  precedes (invoked (log (complete (Some "lie"%string) 20 sf))) e' e.
Proof.
  intros evs0 fn e s e' sf.
  assert (He : e ∈ _promiseFunctionArray (self s)).
  { vm_compute. apply list_elem_of_here. }
  refine (proj2 (proj2
    (unshift_runs_before_pending "lie" "lie" evs0 [] fn e 20 He))
    eq_refl eq_refl _).
  vm_compute. lia.
Defined.



(** C5: the call returns a new, pending future, the one the
    handles of the new entry resolve. When the driver invokes the unit of an
    entry, the future of the entry takes the outcome of the first call the
    unit makes on a handle: rejected with the value passed to the failure
    handle; for the success handle, fulfilled with the value passed when
    that is no thenable, following the thenable when it is one; it stays
    pending when the unit calls no handle. A late call counts in the same
    way, and only on a future that is still pending. No other event of the
    queue changes the future: no step of the driver and no call made by
    another unit. A future that follows a thenable takes the outcome the
    thenable gives it, which need not be a success; the answer changes no
    other future. All this holds in every state reached by calls, jobs,
    late calls and answers of thenables. *)
Theorem future_settles_as_its_unit_reports (c0 : ctor) (xs : list xevent) :
  let s := xrun xs (Pique_new c0) in
  (forall c fn,
     (push (Some c) fn s).1 = inl (future_of (new_entry fn s)) /\
     (unshift (Some c) fn s).1 = inl (future_of (new_entry fn s)) /\
     new_entry fn s ∈ _promiseFunctionArray (self (push (Some c) fn s).2) /\
     new_entry fn s ∈ _promiseFunctionArray (self (unshift (Some c) fn s).2) /\
     cell (future_of (new_entry fn s)) (push (Some c) fn s).2 =
       Some (pending c) /\
     cell (future_of (new_entry fn s)) (unshift (Some c) fn s).2 =
       Some (pending c) /\
     forall e, e ∈ timeline s -> future_of e <> future_of (new_entry fn s)) /\
  (forall c d js e rest,
     jobs s = RunStep d :: js -> _promiseFunctionArray (self s) = e :: rest ->
     exists x, cell (future_of e) (tick (Some c) s) = Some x /\
               p_state x = first_report (sync (fn e))) /\
  (forall i e, invoked (log s) !! i = Some e ->
     exists x x', cell (future_of e) s = Some x /\
       cell (future_of e) (timer i s) = Some x' /\
       p_state x' = match p_state x with
                    | Pending => first_report (async (fn e))
                    | st => st
                    end) /\
  (forall lp ev j,
     (forall e, served lp ev s = Some e -> future_of e <> Future j) ->
     forall x, futures s !! j = Some x ->
               futures (istep lp ev s) !! j = Some x) /\
  (forall t j k v,
     (forall x, futures s !! j = Some x ->
        exists x', futures (answers t j k v s) !! j = Some x' /\
          p_state x' = if follows t x then report k v else p_state x) /\
     (forall i, i <> j ->
        futures (answers t j k v s) !! i = futures s !! i)).
Proof.
  intros s. pose proof (Sound_xrun xs _ (Sound_new c0)) as [HI Hu].
  fold s in HI, Hu. pose proof HI as [Hb Hph].
  split_and!.
  - intros c fn.
    destruct (submit_spec c false fn s Hb) as (g & Hg & Hpush).
    destruct (submit_spec c true fn s Hb) as (g' & Hg' & Hunshift).
    change (_changeQueue (Some c) fn (inserter false) s)
      with (push (Some c) fn s) in Hpush.
    change (_changeQueue (Some c) fn (inserter true) s)
      with (unshift (Some c) fn s) in Hunshift.
    destruct (submit_effect c false fn s Hb) as (_ & _ & _ & _ & F1 & _).
    destruct (submit_effect c true fn s Hb) as (_ & _ & _ & _ & F2 & _).
    change (istep (Some c) (submit false fn) s)
      with (push (Some c) fn s).2 in F1.
    change (istep (Some c) (submit true fn) s)
      with (unshift (Some c) fn s).2 in F2.
    split_and!.
    + by rewrite Hpush.
    + by rewrite Hunshift.
    + rewrite Hpush. simpl. apply elem_of_app. right. left.
    + rewrite Hunshift. simpl. left.
    + change (futures (push (Some c) fn s).2 !! length (futures s) =
              Some (pending c)).
      by rewrite F1, lookup_app_r, Nat.sub_diag.
    + change (futures (unshift (Some c) fn s).2 !! length (futures s) =
              Some (pending c)).
      by rewrite F2, lookup_app_r, Nat.sub_diag.
    + intros e He. by apply base_future_fresh.
  - intros c d js e rest Hj Harr.
    assert (Hin : e ∈ _promiseFunctionArray (self s)) by (rewrite Harr; left).
    destruct (proj1 (Forall_forall _ _) Hu e Hin) as (x & Hx & Hp).
    assert (Hin' : e ∈ timeline s) by (apply elem_of_app; by right).
    destruct (entry_future s e Hb Hin') as (j & Hlt & Hfo & _).
    rewrite Hfo in Hx |- *. simpl in Hx |- *.
    pose proof (futures_istep (Some c) Tick s HI) as Hf. simpl in Hf.
    rewrite Hf. unfold futures_after, served. rewrite Hj, Harr. simpl.
    destruct (reported_own e (sync (fn e)) _ j x Hfo Hx) as (x' & Hx' & Hs').
    exists x'. split; [done|]. by rewrite Hs', Hp.
  - intros i e Hi.
    assert (Hin' : e ∈ timeline s).
    { apply elem_of_app. left. by eapply list_elem_of_lookup_2. }
    destruct (entry_future s e Hb Hin') as (j & Hlt & Hfo & _).
    destruct (lookup_lt_is_Some_2 (futures s) j Hlt) as [x Hx].
    pose proof (futures_istep None (Timer i) s HI) as Hf. simpl in Hf.
    destruct (reported_own e (async (fn e)) _ j x Hfo Hx) as (x' & Hx' & Hs').
    exists x, x'. rewrite Hfo. simpl. rewrite Hf. unfold futures_after, served.
    rewrite Hi. simpl. done.
  - intros lp ev j Hne x Hx. rewrite (futures_istep lp ev s HI).
    unfold futures_after. destruct ev as [f|f| |i].
    + destruct lp; [|done]. by apply lookup_app_l_Some.
    + destruct lp; [|done]. by apply lookup_app_l_Some.
    + destruct (served lp Tick s) as [e|] eqn:E; [|done].
      rewrite reported_other; [done|]. by apply Hne.
    + destruct (served lp (Timer i) s) as [e|] eqn:E; [|done].
      rewrite reported_other; [done|]. by apply Hne.
  - intros t j k v. split.
    + intros x Hx. rewrite answers_lookup, decide_True, Hx by done. simpl.
      exists (answered t (report k v) x). split; [done|].
      unfold answered. by destruct (follows t x).
    + intros i Hne. by rewrite answers_lookup, decide_False.
Qed.

Lemma future_witness :
  let xs := [Of (lie, Push (fail_now (VNum 1)))] in
  let s := xrun xs (Pique_new "lie") in
  let e := {| fn := fail_now (VNum 1); localResolve := ResolveOf (Future 0);
              localReject := RejectOf (Future 0) |} in
  exists x, cell (future_of e) (tick (Some "lie"%string) s) = Some x /\
            p_state x = first_report (sync (fn e)).
Proof.
  intros xs s e.
  refine (proj1 (proj2 (future_settles_as_its_unit_reports "lie" xs))
            "lie"%string (Link 1) [] e [] eq_refl eq_refl).
Defined.

(** A future need not settle as its unit reports. The unit calls its
    success handle, once, with a thenable, and nothing else; the thenable answers with a failure, and the future is rejected,
    with a value the unit never passed to a handle. *)
Lemma future_counterexample :
  let u := now (VThenable 0) in
  let s := xrun [Of (lie, Push u); Of (lie, Tick); Answers 0 0 Fail (VNum 7)]
             (Pique_new "lie") in
  executed s = [u] /\
  sync u ++ async u = [(Succeed, VThenable 0)] /\
  p_state <$> cell (Future 0) s = Some (Rejected (VNum 7)).
Proof. vm_compute. done. Qed.

(** C6 (the code at the failing input): on a host without a native
    [Promise] and with [configure] never called, the constructor itself
    throws a [TypeError], so no queue exists on which [push] or [unshift]
    could raise the configuration error. *)
Theorem new_Pique_unconfigured :
  new_Pique (module_init None) =
    (inr (VError "TypeError" "Cannot read property 'resolve' of undefined"),
     module_init None).
Proof. reflexivity. Qed.

Lemma wstep_unconfigured ev w :
  LocalPromise w = None -> queues w = [] ->
  (forall c, ev <> Configure (Some c)) ->
  LocalPromise (wstep ev w) = None /\ queues (wstep ev w) = [].
Proof.
  intros Hlp Hq Hev. destruct ev as [[c|]| |q ev]; simpl.
  - by destruct (Hev c).
  - done.
  - unfold new_Pique. by rewrite Hlp.
  - by rewrite Hq.
Qed.

(** As long as no implementation is configured, no queue can be built. *)
Lemma never_configured_no_queue evs :
  Forall (fun ev => forall c, ev <> Configure (Some c)) evs ->
  queues (wrun evs (module_init None)) = [].
Proof.
  intros H.
  cut (forall w, LocalPromise w = None -> queues w = [] ->
                 queues (wrun evs w) = []); [by eauto|].
  induction H as [|ev evs Hev _ IH]; intros w Hlp Hq; simpl; [done|].
  destruct (wstep_unconfigured ev w Hlp Hq Hev). by apply IH.
Qed.

(** The guard of [_changeQueue] is what a submission meets when the
    variable was emptied after the queue was built. *)
Lemma push_unconfigured fn s :
  push None fn s =
    (inr (VError "Error" "A Promise library set by .configure"), s) /\
  unshift None fn s =
    (inr (VError "Error" "A Promise library set by .configure"), s).
Proof. split; reflexivity. Qed.

(** C7: after [configure(c)], and until the next [configure],
    the one module variable holds [c]; on every queue of the world, whenever
    it was built, [push] and [unshift] build the future they return with [c]
    and the driver's callback builds its promise with [c]; a queue built now
    starts its chain with a fulfilled promise of [c] and has no entry. The
    choice is read from the module variable alone: nothing in the queue
    takes part in it. The links of the chain are the exception: a submission
    extends the chain with [then] on its tail, so the new link is built by
    the implementation that built the tail, the one the queue was constructed
    with, and not by [c]. *)
Theorem configure_is_process_wide (w : world) (c : ctor)
    (evs : list wevent) (q : nat) (s : store) (fn : promiseFunction) :
  let w' := wrun evs (configure (Some c) w) in
  forallb (fun ev => negb (is_configure ev)) evs = true ->
  queues w' !! q = Some s ->
  LocalPromise w' = Some c /\
  (exists s', push (LocalPromise w') fn s =
                (inl (Future (length (futures s))), s') /\
     p_ctor <$> cell (Future (length (futures s))) s' = Some c) /\
  (exists s', unshift (LocalPromise w') fn s =
                (inl (Future (length (futures s))), s') /\
     p_ctor <$> cell (Future (length (futures s))) s' = Some c) /\
  (exists s', step (LocalPromise w') s =
                (inl (Inner (length (inners s))), s') /\
     p_ctor <$> cell (Inner (length (inners s))) s' = Some c) /\
  (forall t g front,
     _globalPromise (self s) = Link t -> links s !! t = Some g ->
     let s' := istep (LocalPromise w') (submit front fn) s in
     cell (_globalPromise (self s')) s' = Some (pending (p_ctor g))) /\
  (exists s0,
     new_Pique w' =
       (inl (length (queues w')),
        {| LocalPromise := Some c; queues := queues w' ++ [s0] |}) /\
     cell (_globalPromise (self s0)) s0 =
       Some {| p_ctor := c; p_state := Fulfilled VTrue; p_reactions := [] |} /\
     _promiseFunctionArray (self s0) = [] /\
     ctors s0 = ([], [], [c])).
Proof.
  intros w' Hevs Hq.
  assert (Hlp : LocalPromise w' = Some c).
  { unfold w'. by rewrite LocalPromise_wrun. }
  rewrite Hlp. split_and!.
  - done.
  - apply (enqueue_step_ctor c fn false s).
  - apply (enqueue_step_ctor c fn true s).
  - apply step_ctor.
  - intros t g front Hg Ht s'.
    assert (Hs' : s' = submitted c front fn t g s).
    { unfold s'. destruct front; unfold istep, submit, push, unshift,
        _changeQueue.
      - change array_unshift with (inserter true).
        by rewrite (enqueue_step_spec c true fn t g s Hg Ht).
      - change array_push with (inserter false).
        by rewrite (enqueue_step_spec c false fn t g s Hg Ht). }
    rewrite Hs'. by apply submitted_tail.
  - exists (Pique_new c). split_and!; try done.
    unfold new_Pique. by rewrite Hlp.
Qed.

Lemma configure_witness :
  let w := wrun [New] (module_init (Some "Promise"%string)) in
  let evs := [At 0 (Push (now (VNum 1)))] in
  let s := istep (Some "lie"%string) (Push (now (VNum 1)))
             (Pique_new "Promise") in
  let w' := wrun evs (configure (Some "lie"%string) w) in
  let s' := istep (LocalPromise w') (submit false (now (VNum 2))) s in
  cell (_globalPromise (self s')) s' = Some (pending "Promise").
Proof.
  intros w evs s w' s'.
  refine (proj1 (proj2 (proj2 (proj2 (proj2
    (configure_is_process_wide w "lie" evs 0 s (now (VNum 2))
       eq_refl eq_refl)))))
    1 (pending "Promise") false eq_refl eq_refl).
Defined.

(** The chain of a queue stays with the implementation the queue was built
    with. A queue is built while the host's [Promise] is the implementation;
    then ["lie"] is configured and two units are pushed, the first of them
    invoked. The futures and the driver's promise are built by ["lie"], the
    links of the chain by [Promise]. *)
Lemma configure_counterexample :
  let w := wrun [New; Configure (Some "lie"%string);
                 At 0 (Push (now (VNum 1))); At 0 Tick;
                 At 0 (Push (now (VNum 2)))]
             (module_init (Some "Promise"%string)) in
  LocalPromise w = Some "lie"%string /\
  ctors <$> queues w !! 0 =
    Some (["lie"%string; "lie"%string], ["lie"%string],
          ["Promise"%string; "Promise"%string; "Promise"%string]).
Proof. vm_compute. done. Qed.

(** C8: a submission adds nothing to the trace and hands out no handle:
    it creates the future, inserts the entry and adds one link to the
    chain; and in every reachable trace, whenever a unit is invoked, every
    unit invoked before it has already called one of its handles. *)
Theorem submission_does_not_run_the_unit (c0 : ctor)
    (evs : list (option ctor * event)) :
  let s := irun evs (Pique_new c0) in
  (forall c front fn,
     let s' := istep (Some c) (submit front fn) s in
     log s' = log s /\ issued s' = issued s /\ inners s' = inners s /\
     _promiseFunctionArray (self s') =
       insert_entry front (new_entry fn s) (_promiseFunctionArray (self s)) /\
     futures s' = futures s ++ [pending c] /\
     length (links s') = S (length (links s))) /\
  gated (log s).
Proof.
  intros s. pose proof (Good_reach c0 evs) as (Hb & Hph & Ht). fold s in Hb, Ht.
  split; [|apply Ht]. intros c front fn. by apply submit_effect.
Qed.

Lemma submission_witness :
  let evs := on lie [Push (after VUndefined); Tick] in
  gated (log (irun evs (Pique_new "lie"))).
Proof.
  intros evs.
  exact (proj2 (submission_does_not_run_the_unit "lie" evs)).
Defined.



(** C10: for every value of the module variable, every unit, every way of
    inserting the entry and every queue state, the bundled and the unbundled
    [_changeQueue] return the same future and leave the same pending
    sequence, driver chain and promises, and one throws exactly when the
    other does (when no promise implementation is available; the store is
    then untouched by both). *)
Theorem changeQueue_copies_agree (lp : option ctor) fn
    (unshiftOrPushFn : entry -> M unit) (s : store) :
  same_behaviour (_changeQueue_bundled lp fn unshiftOrPushFn s)
                 (_changeQueue lp fn unshiftOrPushFn s) /\
  (lp = None <->
   exists e, (_changeQueue lp fn unshiftOrPushFn s).1 = inr e) /\
  (lp = None <->
   exists e, (_changeQueue_bundled lp fn unshiftOrPushFn s).1 = inr e).
Proof.
  destruct lp as [c|].
  - split.
    + rewrite changeQueue_configured. split; [done|].
      by destruct (_changeQueue_bundled (Some c) fn unshiftOrPushFn s).1.
    + assert (H : forall e,
        (_changeQueue_bundled (Some c) fn unshiftOrPushFn s).1 <> inr e).
      { intros e. unfold _changeQueue_bundled, enqueue_step, new_LocalPromise,
          new_promise. simpl.
        by destruct (bind _ _ _) as [[[]|] ?]. }
      split; (split; [done|]); intros [e He]; by apply H in He.
  - split; [by split|]. split; (split; [|done]); intros _; eexists; reflexivity.
Qed.

Lemma copies_witness :
  exists e, (_changeQueue_bundled None (now (VNum 1)) array_push
               (Pique_new "lie")).1 = inr e.
Proof.
  exact (proj1 (proj2 (proj2
    (changeQueue_copies_agree None (now (VNum 1)) array_push
       (Pique_new "lie")))) eq_refl).
Defined.

(** * Further properties of the code *)

Lemma cell_settle p q st s :
  cell p (settle q st s) =
    match cell p s with
    | Some c =>
        if decide (p = q) then
          match p_state c with
          | Pending => Some (settled_cell st c)
          | _ => Some c
          end
        else Some c
    | None => None
    end.
Proof.
  destruct p as [n|n|n]; simpl;
    rewrite ?settle_futures, ?settle_inners, ?settle_links;
    destruct q as [m|m|m]; rewrite ?settle_in_lookup;
    try (destruct (_ !! n) as [c|]; [|done];
         repeat case_decide; try done; congruence).
Qed.

Lemma cell_emit p o s : cell p (emit o s) = cell p s.
Proof. by destruct p. Qed.

Lemma settle_final p st s : final p s -> settle p st s = s.
Proof.
  intros H. destruct (cell p s) as [c|] eqn:E.
  - eapply settle_settled; [done|]. by apply H.
  - unfold settle. by rewrite E.
Qed.

Lemma final_settle p st s : st <> Pending -> final p (settle p st s).
Proof.
  intros Hst c. rewrite cell_settle. destruct (cell p s) as [x|]; [|done].
  rewrite decide_True by done.
  destruct (p_state x) eqn:E; intros [= <-]; simpl; congruence.
Qed.

Lemma final_mono p q st s : final p s -> final p (settle q st s).
Proof.
  intros H c. rewrite cell_settle. destruct (cell p s) as [x|] eqn:E; [|done].
  pose proof (H x E) as Hx.
  case_decide; [destruct (p_state x) eqn:Ex|]; intros [= <-]; congruence.
Qed.

Lemma final_emit p o s : final p s -> final p (emit o s).
Proof. intros H c. rewrite cell_emit. apply H. Qed.

Lemma final_call_finish f v s :
  final (target (localFn f)) (call_finish f v s) /\
  final (target (globalResolveFn f)) (call_finish f v s).
Proof.
  unfold call_finish. rewrite !call_resolver_settle. split.
  - apply final_mono, final_settle, outcome_not_pending.
  - apply final_settle, outcome_not_pending.
Qed.

(** X1: the two handles a unit receives are single-shot. Once one handle built
    by [finishPromise] has been called, a further call on a handle for the
    same future and the same driver promise, with any value, changes
    nothing in the store: it is only recorded in the trace. *)
Theorem handles_are_single_shot (f1 f2 : finish) (v1 v2 : value) (s : store) :
  target (localFn f2) = target (localFn f1) ->
  target (globalResolveFn f2) = target (globalResolveFn f1) ->
  call_finish f2 v2 (call_finish f1 v1 s) =
    emit (Called f2 v2) (call_finish f1 v1 s).
Proof.
  intros Hl Hg. destruct (final_call_finish f1 v1 s) as [F1 F2].
  unfold call_finish at 1. rewrite !call_resolver_settle, Hl, Hg.
  rewrite (settle_final (target (localFn f1))) by by apply final_emit.
  apply settle_final. by apply final_emit.
Qed.

(** ** Entries that are still pending *)

Lemma handle_targets s f :
  base s -> issued_handle s f ->
  exists i e, invoked (log s) !! i = Some e /\
              target (localFn f) = future_of e.
Proof.
  intros Hb (i & x & Hx & Hf).
  destruct (b_handles _ Hb _ _ Hx) as (e & He & ->).
  destruct (handles_of_for e i _ (base_invoked_wf _ _ _ Hb He))
    as (j & _ & Hj & [Hres _] & [Hrej _]).
  exists i, e. split; [done|]. rewrite Hj. by destruct Hf as [->| ->].
Qed.

Lemma pending_unreported s e :
  Good s -> e ∈ _promiseFunctionArray (self s) ->
  calls_on (future_of e) (log s) = [].
Proof.
  intros (Hb & _ & Ht) He. apply calls_on_nil. intros f v Hf Heq.
  destruct (handle_targets s f Hb (t_calls _ Ht _ _ Hf)) as (i & e' & He' & Hte).
  pose proof (b_nodup _ Hb) as Hnd. unfold timeline in Hnd.
  rewrite fmap_app in Hnd. apply NoDup_app in Hnd as (_ & Hnd & _).
  apply (Hnd (future_of e')).
  - apply list_elem_of_fmap. exists e'. split; [done|].
    by eapply list_elem_of_lookup_2.
  - apply list_elem_of_fmap. exists e. split; [congruence|done].
Qed.

Lemma pending_future s e :
  Good s -> e ∈ _promiseFunctionArray (self s) ->
  exists x, cell (future_of e) s = Some x /\ p_state x = Pending.
Proof.
  intros Hg He. pose proof Hg as (Hb & _ & Ht).
  assert (Hin : e ∈ timeline s).
  { unfold timeline. apply elem_of_app. by right. }
  destruct (proj1 (Forall_forall _ _) (b_entries _ Hb) e Hin)
    as (j & Hj & Hr & _).
  destruct (lookup_lt_is_Some_2 (futures s) j Hj) as [x Hx].
  unfold future_of. rewrite Hr. simpl. exists x. split; [done|].
  rewrite (t_state _ Ht _ _ Hx). apply reported_outcome_pending.
  replace (Future j) with (future_of e); [by apply pending_unreported|].
  unfold future_of. by rewrite Hr.
Qed.

(** X6: in every reachable state an entry that is still in
    [_promiseFunctionArray] has not been invoked, its future is pending, no
    handle that settles its future has been given out, and no call on such a
    handle has been made. *)
Theorem pending_entries_are_untouched (c0 : ctor)
    (evs : list (option ctor * event)) (e : entry) :
  let s := irun evs (Pique_new c0) in
  e ∈ _promiseFunctionArray (self s) ->
  (e ∉ invoked (log s)) /\
  (exists x, cell (future_of e) s = Some x /\ p_state x = Pending) /\
  (forall i x, issued s !! i = Some x ->
     target (localFn x.1.2) <> future_of e /\
     target (localFn x.2) <> future_of e) /\
  (forall f v, Called f v ∈ log s -> target (localFn f) <> future_of e).
Proof.
  intros s He. pose proof (Good_reach c0 evs) as Hg. fold s in Hg.
  pose proof Hg as (Hb & _ & Ht).
  assert (Hfresh : forall f, issued_handle s f ->
                     target (localFn f) <> future_of e).
  { intros f Hf Heq. destruct (handle_targets s f Hb Hf) as (i & e' & He' & Hte).
    pose proof (b_nodup _ Hb) as Hnd. unfold timeline in Hnd.
    rewrite fmap_app in Hnd. apply NoDup_app in Hnd as (_ & Hnd & _).
    apply (Hnd (future_of e')).
    - apply list_elem_of_fmap. exists e'. split; [done|].
      by eapply list_elem_of_lookup_2.
    - apply list_elem_of_fmap. exists e. split; [congruence|done]. }
  split_and!.
  - by apply pending_not_invoked.
  - by apply pending_future.
  - intros i x Hx. split; apply Hfresh; exists i, x; auto.
  - intros f v Hf. apply Hfresh. by apply (t_calls _ Ht _ v).
Qed.

(** ** A queue with nothing left to do *)

Lemma chain_unrejected k h : chain k h -> unrejected h.
Proof.
  intros Hc. apply Forall_lookup. intros j c Hj. specialize (Hc j c Hj).
  unfold rejected. case_decide.
  - destruct Hc as [[v Hv] _]. by rewrite Hv.
  - destruct Hc as [Hp _]. by rewrite Hp.
Qed.

Lemma fulfilled_unrejected h : Forall is_fulfilled h -> unrejected h.
Proof.
  intros H. eapply Forall_impl; [done|].
  intros c [v Hv]. unfold rejected. by rewrite Hv.
Qed.

Lemma idle_phase s :
  Good s -> alive s = true -> next_event s = None ->
  chain (length (links s)) (links s) /\ jobs s = [] /\
  _promiseFunctionArray (self s) = [].
Proof.
  intros Hg Hal Hev.
  destruct (quiescent s Hg Hal Hev) as (Q1 & _ & Q3 & Q4).
  destruct Hg as (Hb & Hph & _).
  destruct Hph as [H1 H2 H3 H4|H1 H2 H3 H4|rest x H1 H2 H3 H4 H5 H6 H7|
                   v H1 H2 H3|H1 H2 H3 H4 H5].
  - done.
  - by rewrite H3 in Q3.
  - rewrite H3 in Q4. apply Forall_app in Q4 as [_ Q4].
    apply Forall_singleton in Q4 as [w Hw]. congruence.
  - by rewrite H2 in Q3.
  - by destruct (alive_not_doomed s Hal).
Qed.

(** X2: on a queue with nothing left to do (no job, no pending entry, no
    unit in flight, chain not rejected) a submission by [push] or [unshift]
    schedules the driver's callback at once, without invoking anything, and
    the next job invokes exactly the submitted unit. *)
Theorem idle_queue_runs_next_submission (c0 c c' : ctor)
    (evs : list (option ctor * event)) (front : bool) (fn : promiseFunction) :
  let s := irun evs (Pique_new c0) in
  let s1 := istep (Some c) (submit front fn) s in
  alive s = true -> next_event s = None ->
  _promiseFunctionArray (self s1) = [new_entry fn s] /\
  jobs s1 = [RunStep (Link (length (links s)))] /\
  invoked (log s1) = invoked (log s) /\
  invoked (log (tick (Some c') s1)) = invoked (log s) ++ [new_entry fn s] /\
  _promiseFunctionArray (self (tick (Some c') s1)) = [].
Proof.
  intros s s1 Hal Hev. pose proof (Good_reach c0 evs) as Hg. fold s in Hg.
  destruct (idle_phase s Hg Hal Hev) as (Hch & Hj & Harr).
  pose proof Hg as (Hb & _ & _).
  destruct (submit_spec c front fn s Hb) as (g & Htail & Heq).
  assert (Hs1 : s1 = submitted c front fn (pred (length (links s))) g s).
  { unfold s1, istep, submit, push, unshift.
    destruct front; simpl in Heq |- *; by rewrite Heq. }
  pose proof (lookup_lt_Some _ _ _ Htail) as Hlt.
  destruct (chain_fulfilled _ _ _ _ Hch Htail Hlt) as [v Hv].
  assert (A1 : _promiseFunctionArray (self s1) = [new_entry fn s]).
  { rewrite Hs1. simpl. rewrite Harr. by destruct front. }
  assert (A2 : jobs s1 = [RunStep (Link (length (links s)))]).
  { rewrite Hs1. simpl. by rewrite Hv, Hj. }
  assert (A3 : log s1 = log s) by by rewrite Hs1.
  assert (Hb1 : base s1).
  { rewrite Hs1. by apply base_submitted. }
  assert (Hb0 : base (set_jobs (fun _ => []) s1)) by by apply base_set_jobs.
  destruct (stepped_fields c' (new_entry fn s) [] _ Hb0 A1) as (F1 & _).
  destruct (stepped_trace c' (new_entry fn s) [] _ Hb0 A1) as (T1 & _).
  split_and!; try done.
  - by rewrite A3.
  - rewrite tick_spec, A2, A1, follow_log. simpl in T1. by rewrite T1, A3.
  - rewrite tick_spec, A2, A1, follow_self. by rewrite F1.
Qed.

(** ** Units that throw, and steps that find no implementation *)

Lemma alive_false s : alive s = false <-> doomed s.
Proof.
  unfold alive, doomed. rewrite negb_false_iff, existsb_exists. split.
  - intros (c & Hc%list_elem_of_In & Hr). exists c. split; [|done].
    by apply elem_of_app in Hc.
  - intros (c & Hc & Hr). exists c. split; [|done].
    apply list_elem_of_In, elem_of_app. done.
Qed.

(** X3: when the driver's callback is about to run, it pops the head entry
    and invokes it; the chain is rejected by that step exactly when the unit
    throws without having called one of its handles first. A unit that
    calls a handle and then throws does no harm. *)
Theorem silent_throw_wedges_the_queue (c0 c : ctor)
    (evs : list (option ctor * event)) (d : pid) (js : list job) :
  let s := irun evs (Pique_new c0) in
  jobs s = RunStep d :: js ->
  exists e rest,
    _promiseFunctionArray (self s) = e :: rest /\
    invoked (log (tick (Some c) s)) = invoked (log s) ++ [e] /\
    (alive (tick (Some c) s) = false <->
     sync (fn e) = [] /\ throws (fn e) <> None).
Proof.
  intros s Hj. pose proof (Good_reach c0 evs) as Hg. fold s in Hg.
  pose proof Hg as (Hb & Hph & Ht).
  destruct (scheduled_phase s d js (conj Hb Hph) Hj) as (-> & -> & Hch & Hlt & Hin).
  destruct (_promiseFunctionArray (self s)) as [|e rest] eqn:Harr.
  { by destruct (runstep_nonempty s _ _ (conj Hb Hph) Hj). }
  exists e, rest. split; [done|].
  assert (Hb0 : base (set_jobs (fun _ => []) s)) by by apply base_set_jobs.
  destruct (stepped_fields c e rest _ Hb0 Harr) as (F1 & F2 & F3 & F4 & F5).
  destruct (stepped_trace c e rest _ Hb0 Harr) as (T1 & _).
  simpl in F2, F4, T1.
  set (x := {| p_ctor := c; p_state := inner_state e; p_reactions := [] |})
    in F4.
  destruct (follow_last (Link (S (length (issued s)))) (inners s) x _ F4 eq_refl)
    as (L1 & _ & L3).
  assert (Htick : tick (Some c) s =
            follow (Link (S (length (issued s)))) (Inner (length (inners s)))
              (stepped c e rest (set_jobs (fun _ => []) s))).
  { by rewrite tick_spec, Hj, Harr. }
  split.
  { by rewrite Htick, follow_log, T1. }
  assert (Hstate : exists x', inners (tick (Some c) s) = inners s ++ [x'] /\
                              p_state x' = inner_state e).
  { rewrite Htick. simpl in L3. destruct (inner_state e) eqn:E.
    - destruct L3 as [-> _]. by eexists.
    - destruct L3 as [-> _]. rewrite F4. by exists x.
    - destruct L3 as [-> _]. rewrite F4. by exists x.
    - by destruct (inner_state_not_following e t). }
  destruct Hstate as (x' & Hx' & Hst).
  assert (Hlinks : unrejected (links (tick (Some c) s))).
  { rewrite Htick, L1, F2. by eapply chain_unrejected. }
  rewrite alive_false. unfold inner_state in Hst. split.
  - intros (y & [Hy|Hy] & Hr).
    + by rewrite (proj1 (Forall_forall _ _) Hlinks y Hy) in Hr.
    + rewrite Hx' in Hy. apply elem_of_app in Hy as [Hy|Hy].
      * pose proof (fulfilled_unrejected _ Hin) as Hu.
        by rewrite (proj1 (Forall_forall _ _) Hu y Hy) in Hr.
      * apply list_elem_of_singleton in Hy as ->. unfold rejected in Hr.
        rewrite Hst in Hr. destruct (sync (fn e)); [|done].
        simpl in Hr. by destruct (throws (fn e)).
  - intros [Hs Hthr]. exists x'. split.
    + right. rewrite Hx'. apply elem_of_app. right. by left.
    + unfold rejected. rewrite Hst, Hs. simpl. by destruct (throws (fn e)).
Qed.

(** X5: a driver callback that runs while the module variable holds no
    implementation (after [configure(undefined)]) pops nothing and invokes
    nothing: [new LocalPromise] throws inside the callback, which rejects
    the chain link with that [TypeError]. *)
Theorem step_without_implementation_wedges (c0 : ctor)
    (evs : list (option ctor * event)) (d : pid) (js : list job) :
  let s := irun evs (Pique_new c0) in
  jobs s = RunStep d :: js ->
  alive (tick None s) = false /\
  log (tick None s) =
    log s ++ [Settled d (Rejected (VError "TypeError"
                                     "LocalPromise is not a constructor"))] /\
  self (tick None s) = self s /\ futures (tick None s) = futures s.
Proof.
  intros s Hj. pose proof (Good_reach c0 evs) as (Hb & Hph & _). fold s in Hb, Hph.
  destruct (scheduled_phase s d js (conj Hb Hph) Hj) as (-> & -> & Hch & Hlt & Hin).
  destruct (lookup_lt_is_Some_2 _ _ Hlt) as [g Hg].
  pose proof (chain_pending _ _ _ _ Hch Hg (le_n _)) as Hp.
  rewrite tick_spec, Hj.
  set (k := S (length (issued s))) in *.
  set (r := Rejected _).
  split_and!.
  - apply alive_false. exists (settled_cell r g). split; [|done]. left.
    rewrite settle_links. apply list_elem_of_lookup. exists k.
    rewrite settle_in_lookup. simpl. rewrite Hg, decide_True by done.
    by rewrite Hp.
  - rewrite settle_log. simpl. rewrite Hg. simpl. by rewrite Hp.
  - by rewrite settle_self.
  - by rewrite settle_futures.
Qed.

Lemma dead_phase s :
  Inv s -> doomed s -> Forall passes_rejection (jobs s).
Proof.
  intros [Hb Hph] (y & Hy & Hr).
  assert (Hc : forall k, chain k (links s) -> Forall is_fulfilled (inners s) ->
                         False).
  { intros k Hk Hin. destruct Hy as [Hy|Hy].
    - by rewrite (proj1 (Forall_forall _ _) (chain_unrejected _ _ Hk) y Hy) in Hr.
    - by rewrite (proj1 (Forall_forall _ _) (fulfilled_unrejected _ Hin) y Hy)
        in Hr. }
  destruct Hph as [H1 H2 H3 H4|H1 H2 H3 H4|rest x H1 H2 H3 H4 H5 H6 H7|
                   v H1 H2 H3|H1 H2 H3 H4 H5]; try by destruct (Hc _ H1).
  - exfalso. destruct Hy as [Hy|Hy].
    + by rewrite (proj1 (Forall_forall _ _) (chain_unrejected _ _ H1) y Hy) in Hr.
    + rewrite H3 in Hy. apply elem_of_app in Hy as [Hy|Hy].
      * by rewrite (proj1 (Forall_forall _ _) (fulfilled_unrejected _ H4) y Hy)
          in Hr.
      * apply list_elem_of_singleton in Hy as ->. unfold rejected in Hr.
        by rewrite H5 in Hr.
  - done.
Qed.

Lemma doomed_ext s s' :
  (forall y, y ∈ links s -> rejected y = true -> y ∈ links s') ->
  (forall y, y ∈ inners s -> rejected y = true -> y ∈ inners s') ->
  doomed s -> doomed s'.
Proof.
  intros Hl Hi (y & [Hy|Hy] & Hr); exists y; split; auto.
Qed.

Lemma wedged_istep lp ev s :
  Good s -> doomed s ->
  doomed (istep lp ev s) /\
  invoked (log (istep lp ev s)) = invoked (log s).
Proof.
  intros (Hb & Hph & Ht) Hd.
  pose proof (dead_phase s (conj Hb Hph) Hd) as Hjobs.
  assert (Hsub : forall c front fn,
            doomed (istep (Some c) (submit front fn) s) /\
            invoked (log (istep (Some c) (submit front fn) s)) =
              invoked (log s)).
  { intros c front fn.
    destruct (submit_effect c front fn s Hb) as (E1 & _ & E3 & _).
    split; [|by rewrite E1].
    destruct (submit_spec c front fn s Hb) as (g & Htail & Heq).
    assert (Hs1 : istep (Some c) (submit front fn) s =
                    submitted c front fn (pred (length (links s))) g s).
    { unfold istep, submit, push, unshift.
      destruct front; simpl in Heq |- *; by rewrite Heq. }
    rewrite Hs1. eapply doomed_ext; [| |exact Hd]; simpl; [|done].
    intros y Hy Hr. apply list_elem_of_lookup in Hy as [k Hk].
    pose proof (lookup_lt_Some _ _ _ Hk) as Hlt.
    destruct (p_state g) eqn:Eg.
    - apply list_elem_of_lookup. exists k.
      assert (k <> pred (length (links s))).
      { intros ->. rewrite Htail in Hk. injection Hk as <-.
        unfold rejected in Hr. by rewrite Eg in Hr. }
      rewrite list_lookup_insert_ne by done. by rewrite lookup_app_l.
    - apply elem_of_app. left. by eapply list_elem_of_lookup_2.
    - apply elem_of_app. left. by eapply list_elem_of_lookup_2.
    - apply list_elem_of_lookup. exists k.
      assert (k <> pred (length (links s))).
      { intros ->. rewrite Htail in Hk. injection Hk as <-.
        unfold rejected in Hr. by rewrite Eg in Hr. }
      rewrite list_lookup_insert_ne by done. by rewrite lookup_app_l. }
  destruct ev as [fn|fn| |n].
  - destruct lp as [c|]; [apply (Hsub c false fn)|done].
  - destruct lp as [c|]; [apply (Hsub c true fn)|done].
  - unfold istep. rewrite tick_spec.
    destruct (jobs s) as [|j js] eqn:Hj; [done|].
    apply Forall_cons in Hjobs as [(k & r & ->) _].
    split; [|by rewrite settle_invoked].
    eapply doomed_ext; [| |exact Hd].
    + intros y Hy Hr. rewrite settle_links. by apply settle_in_keeps_rejected.
    + intros y Hy Hr. by rewrite settle_inners.
  - unfold istep. split.
    + unfold timer.
      destruct (issued s !! n) as [[[f res] rej]|] eqn:E; [|done].
      destruct (b_handles _ Hb _ _ E) as (e & He & Hx).
      destruct (handles_of_for e n _ (base_invoked_wf _ _ _ Hb He))
        as (j & _ & _ & Hres & Hrej).
      rewrite <- Hx in Hres, Hrej. simpl in Hres, Hrej.
      destruct (run_calls_fields res rej (async f) s j n Hres Hrej
                  (b_quiet _ Hb)) as (R1 & R2 & R3 & R4 & R5 & _).
      eapply doomed_ext; [| |exact Hd].
      * intros y Hy Hr. by rewrite R2.
      * intros y Hy Hr. rewrite R4.
        destruct (nonempty (async f)); [|done].
        by apply settle_in_keeps_rejected.
    + pose proof (timeline_timer n s) as Htl. unfold timer in *.
      destruct (issued s !! n) as [[[f res] rej]|]; [|done].
      by rewrite run_calls_invoked.
Qed.

Lemma wedged_irun evs s :
  Good s -> doomed s ->
  doomed (irun evs s) /\ invoked (log (irun evs s)) = invoked (log s).
Proof.
  revert s. induction evs as [|[lp ev] evs IH]; intros s Hg Hd; [done|].
  simpl. destruct (wedged_istep lp ev s Hg Hd) as [Hd' Hi].
  destruct (IH (istep lp ev s) (Good_istep _ _ _ Hg) Hd') as [H1 H2].
  split; [done|]. by rewrite H2.
Qed.

(** X4: once a promise of the driver is rejected, the queue is wedged for
    good: whatever is submitted, configured or called afterwards, no further
    unit is invoked, and every entry that was pending stays pending with its
    future unsettled. *)
Theorem wedged_queue_never_recovers (c0 : ctor)
    (evs0 evs : list (option ctor * event)) :
  let s := irun evs0 (Pique_new c0) in
  let s' := irun evs s in
  alive s = false ->
  alive s' = false /\
  invoked (log s') = invoked (log s) /\
  forall e, e ∈ _promiseFunctionArray (self s) ->
    e ∈ _promiseFunctionArray (self s') /\
    exists x, cell (future_of e) s' = Some x /\ p_state x = Pending.
Proof.
  intros s s' Hal. apply alive_false in Hal.
  pose proof (Good_reach c0 evs0) as Hg. fold s in Hg.
  destruct (wedged_irun evs s Hg Hal) as [Hd Hi]. fold s' in Hd, Hi.
  assert (Hg' : Good s') by by apply Good_irun.
  split_and!; [by apply alive_false|done|].
  intros e He.
  assert (He' : e ∈ _promiseFunctionArray (self s')).
  { apply timeline_pending.
    - eapply elem_of_sublist; [|apply (timeline_sublist_irun evs)].
      unfold timeline. apply elem_of_app. by right.
    - rewrite Hi. by apply pending_not_invoked. }
  split; [done|]. by apply pending_future.
Qed.

Lemma istep_submitted c front fn s :
  base s ->
  exists g, links s !! pred (length (links s)) = Some g /\
    istep (Some c) (submit front fn) s =
      submitted c front fn (pred (length (links s))) g s.
Proof.
  intros Hb. destruct (submit_spec c front fn s Hb) as (g & Htail & Heq).
  exists g. split; [done|]. unfold istep, submit.
  destruct front.
  - change (unshift (Some c) fn s)
      with (_changeQueue (Some c) fn (inserter true) s). by rewrite Heq.
  - change (push (Some c) fn s)
      with (_changeQueue (Some c) fn (inserter false) s). by rewrite Heq.
Qed.

(** ** The chain belongs to the implementation the queue was built with *)

Lemma built_with_ctors c0 h h' :
  p_ctor <$> h' = p_ctor <$> h -> built_with c0 h -> built_with c0 h'.
Proof.
  unfold built_with. rewrite !Forall_lookup. intros Heq H j c Hj.
  assert (Hc : (p_ctor <$> h') !! j = Some (p_ctor c)).
  { by rewrite list_lookup_fmap, Hj. }
  rewrite Heq, list_lookup_fmap in Hc.
  destruct (h !! j) as [x|] eqn:E; [|done]. injection Hc as <-. by eapply H.
Qed.

Lemma links_ctors_istep c0 lp ev s :
  base s -> built_with c0 (links s) -> built_with c0 (links (istep lp ev s)).
Proof.
  intros Hb H. destruct ev as [fn|fn| |n].
  - destruct lp as [c|]; [|done].
    destruct (istep_submitted c false fn s Hb) as (g & Htail & Heq).
    change (submit false fn) with (Push fn) in Heq. rewrite Heq. simpl.
    pose proof (proj1 (Forall_lookup _ _) H _ _ Htail) as Hg.
    assert (H' : built_with c0 (links s ++ [pending (p_ctor g)])).
    { apply Forall_app. split; [done|]. by apply Forall_singleton. }
    destruct (p_state g); try done; by apply Forall_insert.
  - destruct lp as [c|]; [|done].
    destruct (istep_submitted c true fn s Hb) as (g & Htail & Heq).
    change (submit true fn) with (Unshift fn) in Heq. rewrite Heq. simpl.
    pose proof (proj1 (Forall_lookup _ _) H _ _ Htail) as Hg.
    assert (H' : built_with c0 (links s ++ [pending (p_ctor g)])).
    { apply Forall_app. split; [done|]. by apply Forall_singleton. }
    destruct (p_state g); try done; by apply Forall_insert.
  - unfold istep. rewrite tick_spec. destruct (jobs s) as [|[d|d st] js]; [done| |].
    + destruct lp as [c|].
      * destruct (follow_fields d (length (inners s))
          match _promiseFunctionArray (self s) with
          | e :: rest => stepped c e rest (set_jobs (fun _ => js) s)
          | [] =>
              settle (Inner (length (inners s)))
                (Rejected (VError "TypeError"
                             "Cannot read property 'fn' of undefined"))
                (set_inners (fun h => h ++ [pending c])
                   (set_jobs (fun _ => js) s))
          end) as (_ & -> & _).
        destruct (_promiseFunctionArray (self s)) as [|e rest] eqn:Harr.
        -- by rewrite settle_links.
        -- assert (Hb0 : base (set_jobs (fun _ => js) s))
             by by apply base_set_jobs.
           by destruct (stepped_fields c e rest _ Hb0 Harr) as (_ & -> & _).
      * eapply built_with_ctors; [|exact H].
        pose proof (settle_ctors d
          (Rejected (VError "TypeError" "LocalPromise is not a constructor"))
          (set_jobs (fun _ => js) s)) as Hc.
        unfold ctors in Hc. by injection Hc.
    + eapply built_with_ctors; [|exact H].
      pose proof (settle_ctors d st (set_jobs (fun _ => js) s)) as Hc.
      unfold ctors in Hc. by injection Hc.
  - eapply built_with_ctors; [|exact H]. unfold istep, timer.
    destruct (issued s !! n) as [[[f res] rej]|]; [|done].
    pose proof (run_calls_ctors res rej (async f) s) as Hc.
    unfold ctors in Hc. by injection Hc.
Qed.

(** X7: every link of [_globalPromise]'s chain is a promise of the
    implementation the queue was constructed with, whatever [configure]
    sets afterwards: [then] builds a link with the constructor of the
    promise it is called on. *)
Theorem chain_keeps_its_constructor (c0 : ctor)
    (evs : list (option ctor * event)) :
  Forall (fun c => p_ctor c = c0) (links (irun evs (Pique_new c0))).
Proof.
  change (built_with c0 (links (irun evs (Pique_new c0)))).
  assert (H : forall s, Good s -> built_with c0 (links s) ->
                        built_with c0 (links (irun evs s))).
  { induction evs as [|[lp ev] evs IH]; intros s Hg Hs; [done|]. simpl.
    apply IH; [by apply Good_istep|]. apply links_ctors_istep; [apply Hg|done]. }
  apply H; [apply Good_new|]. by apply Forall_singleton.
Qed.

(** ** Push after everything submitted earlier *)

(** X8: a unit submitted with [push] goes behind every pending entry and is
    invoked after every unit submitted before it, pushed or unshifted,
    whatever happens afterwards; when an implementation stays configured
    and every unit reports, the run to completion invokes both in that
    order. *)
Theorem push_runs_after_earlier_submissions (c0 c : ctor)
    (evs0 evs : list (option ctor * event)) (fn : promiseFunction)
    (e : entry) (fuel : nat) :
  let s := irun evs0 (Pique_new c0) in
  let e' := new_entry fn s in
  let sf := irun evs (istep (Some c) (Push fn) s) in
  e ∈ timeline s ->
  _promiseFunctionArray (self (istep (Some c) (Push fn) s)) =
    _promiseFunctionArray (self s) ++ [e'] /\
  (e' ∈ invoked (log sf) -> precedes (invoked (log sf)) e e') /\
  (behaved (evs0 ++ evs) = true -> reports fn = true -> weight sf <= fuel ->
   precedes (invoked (log (complete (Some c) fuel sf))) e e').
Proof.
  intros s e' sf He.
  pose proof (Good_reach c0 evs0) as Hg. fold s in Hg.
  assert (Hsub : [e; e'] `sublist_of` timeline sf).
  { etrans; [|apply timeline_sublist_irun].
    rewrite (timeline_submit_event c false). simpl. rewrite app_assoc.
    change [e; e'] with ([e] ++ [e']). apply sublist_app; [|done].
    by apply singleton_sublist_l. }
  assert (Hgf : Good sf) by by apply Good_irun, Good_istep.
  split_and!.
  - destruct Hg as (Hb & _ & _).
    by destruct (submit_effect c false fn s Hb) as (_ & _ & _ & H & _).
  - intros Hin. eapply precedes_in_prefix; [|exact Hsub|exact Hin].
    by apply Good_timeline_nodup.
  - intros Hbeh Hfn Hfuel. rewrite behaved_app, andb_true_iff in Hbeh.
    destruct Hbeh as [B0 B1].
    assert (Hl : Live sf).
    { apply Live_irun; [|done]. apply Live_istep; [|done].
      by apply Live_reach. }
    destruct (Live_complete c fuel sf Hl Hfuel) as (Hinv & _ & _).
    fold (timeline sf) in Hinv. rewrite Hinv.
    apply sublist_cons_l in Hsub as (k1 & k2 & Heq & Hsub).
    apply sublist_cons_l in Hsub as (k3 & k4 & -> & _).
    by exists k1, k3, k4.
Qed.

(** ** The bundle *)

Lemma istep_bundled_istep lp ev s : istep_bundled lp ev s = istep lp ev s.
Proof. by destruct ev, lp. Qed.

(** X11: [push] and [unshift] of the bundle behave as those of the module
    (same returned future, same store, both throw or neither), and every
    run goes through the same states with either copy. *)
Theorem bundle_runs_like_the_module (evs : list (option ctor * event))
    (s : store) :
  irun_bundled evs s = irun evs s /\
  forall lp fn,
    same_behaviour (push_bundled lp fn s) (push lp fn s) /\
    same_behaviour (unshift_bundled lp fn s) (unshift lp fn s).
Proof.
  split.
  - revert s. induction evs as [|[lp ev] evs IH]; intros s; [done|].
    simpl. by rewrite istep_bundled_istep.
  - intros [c|] fn.
    + unfold push_bundled, unshift_bundled, push, unshift.
      rewrite <- !changeQueue_configured. split; (split; [done|]).
      * by destruct (_changeQueue (Some c) fn array_push s).1.
      * by destruct (_changeQueue (Some c) fn array_unshift s).1.
    + by repeat split.
Qed.

(** ** Settled promises stay as they are *)

Lemma keeps_refl s : keeps s s.
Proof. by intros p x. Qed.

Lemma keeps_trans s1 s2 s3 : keeps s1 s2 -> keeps s2 s3 -> keeps s1 s3.
Proof. intros H1 H2 p x Hx Hp. apply H2; [|done]. by apply H1. Qed.

Lemma keeps_cells s s' : (forall p, cell p s' = cell p s) -> keeps s s'.
Proof. intros H p x Hx _. by rewrite H. Qed.

Lemma keeps_settle q st s : keeps s (settle q st s).
Proof.
  intros p x Hx Hp. rewrite cell_settle, Hx.
  case_decide; [|done]. by destruct (p_state x).
Qed.

Lemma keeps_call_finish f v s : keeps s (call_finish f v s).
Proof.
  unfold call_finish. rewrite !call_resolver_settle.
  eapply keeps_trans; [|apply keeps_settle].
  eapply keeps_trans; [|apply keeps_settle].
  apply keeps_cells. intros p. apply cell_emit.
Qed.

Lemma keeps_run_calls res rej calls s : keeps s (run_calls res rej calls s).
Proof.
  unfold run_calls. revert s.
  induction calls as [|c calls IH]; intros s; [apply keeps_refl|]. simpl.
  eapply keeps_trans; [|apply IH]. apply keeps_call_finish.
Qed.

Lemma keeps_set_cell q c s :
  (forall y, cell q s = Some y -> p_state y = Pending) ->
  keeps s (set_cell q c s).
Proof.
  intros Hq p x Hx Hp.
  assert (p <> q) as Hne by (intros ->; by apply Hp, Hq).
  destruct p as [n|n|n], q as [m|m|m]; simpl in *; try done;
    rewrite list_lookup_insert_ne; congruence.
Qed.

Lemma pass_state s d st js :
  Inv s -> jobs s = Pass d st :: js -> forall t, st <> Following t.
Proof.
  intros [Hb Hph] Hj.
  destruct Hph as [H1 H2 H3 H4|H1 H2 H3 H4|rest x H1 H2 H3 H4 H5 H6 H7|
                   v H1 H2 H3|H1 H2 H3 H4 H5]; try congruence.
  rewrite Hj in H1. apply Forall_cons in H1 as [(k & r & [= -> ->]) _]. done.
Qed.

Lemma calm_settle p st s :
  (forall t, st <> Following t) -> calm s -> calm (settle p st s).
Proof.
  intros Hst [H1 H2]. split.
  - rewrite settle_links. destruct p; try done.
    by apply settle_in_not_following.
  - rewrite settle_inners. destruct p; try done.
    by apply settle_in_not_following.
Qed.

Lemma calm_follow d i s : calm s -> calm (follow d (Inner i) s).
Proof.
  intros [H1 H2].
  destruct (follow_fields d i s) as (_ & F & _). split; [by rewrite F|].
  clear F. unfold follow. simpl.
  destruct (inners s !! i) as [c|] eqn:E; [|done].
  pose proof (Forall_lookup_1 _ _ _ _ H2 E) as Hc.
  destruct (p_state c) eqn:Ec; simpl; try done.
  - apply Forall_insert; [done|]. by intros t.
  - by destruct (Hc t).
Qed.

Lemma calm_istep lp ev s : Inv s -> calm s -> calm (istep lp ev s).
Proof.
  intros [Hb Hph] [H1 H2]. destruct ev as [fn|fn| |n].
  - destruct lp as [c|]; [|done].
    destruct (istep_submitted c false fn s Hb) as (g & Htail & Heq).
    change (submit false fn) with (Push fn) in Heq. rewrite Heq.
    split; [|done]. simpl.
    assert (H' : Forall not_following (links s ++ [pending (p_ctor g)])).
    { apply Forall_app. split; [done|]. by apply Forall_singleton. }
    pose proof (Forall_lookup_1 _ _ _ _ H1 Htail) as Hg.
    destruct (p_state g) eqn:Eg; try done.
    + apply Forall_insert; [done|]. by intros t.
    + by destruct (Hg t).
  - destruct lp as [c|]; [|done].
    destruct (istep_submitted c true fn s Hb) as (g & Htail & Heq).
    change (submit true fn) with (Unshift fn) in Heq. rewrite Heq.
    split; [|done]. simpl.
    assert (H' : Forall not_following (links s ++ [pending (p_ctor g)])).
    { apply Forall_app. split; [done|]. by apply Forall_singleton. }
    pose proof (Forall_lookup_1 _ _ _ _ H1 Htail) as Hg.
    destruct (p_state g) eqn:Eg; try done.
    + apply Forall_insert; [done|]. by intros t.
    + by destruct (Hg t).
  - unfold istep. rewrite tick_spec.
    destruct (jobs s) as [|[d|d st] js] eqn:Hj; [done| |].
    + destruct lp as [c|]; [|by apply calm_settle].
      apply calm_follow.
      destruct (_promiseFunctionArray (self s)) as [|e rest] eqn:Harr.
      * apply calm_settle; [done|]. split; [done|]. simpl.
        apply Forall_app. split; [done|]. by apply Forall_singleton.
      * assert (Hb0 : base (set_jobs (fun _ => js) s))
          by by apply base_set_jobs.
        destruct (stepped_fields c e rest _ Hb0 Harr) as (_ & F2 & _ & F4 & _).
        split; [by rewrite F2|]. rewrite F4. simpl.
        apply Forall_app. split; [done|]. apply Forall_singleton.
        intros t. apply inner_state_not_following.
    + apply calm_settle; [|done]. by eapply pass_state.
  - unfold istep, timer.
    destruct (issued s !! n) as [[[f res] rej]|] eqn:E; [|done].
    destruct (b_handles _ Hb _ _ E) as (e & He & Hx).
    destruct (handles_of_for e n _ (base_invoked_wf _ _ _ Hb He))
      as (j & _ & _ & Hres & Hrej).
    rewrite <- Hx in Hres, Hrej. simpl in Hres, Hrej.
    destruct (run_calls_fields res rej (async f) s j n Hres Hrej
                (b_quiet _ Hb)) as (_ & R2 & _ & R4 & _).
    split; [by rewrite R2|]. rewrite R4.
    destruct (nonempty (async f)); [|done].
    by apply settle_in_not_following.
Qed.

Lemma calm_new c : calm (Pique_new c).
Proof. split; [|done]. by apply Forall_singleton. Qed.

Lemma calm_irun evs s : Inv s -> calm s -> calm (irun evs s).
Proof.
  revert s. induction evs as [|[lp ev] evs IH]; intros s Hi Hc; [done|].
  simpl. apply IH; [by apply Inv_istep|by apply calm_istep].
Qed.

Lemma keeps_follow d i s :
  (forall y, cell i s = Some y -> not_following y) -> keeps s (follow d i s).
Proof.
  intros Hi. unfold follow. destruct (cell i s) as [c|] eqn:E; [|apply keeps_refl].
  destruct (p_state c) eqn:Ec; try by apply keeps_cells; intros [].
  - apply keeps_set_cell. intros y Hy. congruence.
  - by destruct (Hi c eq_refl t).
Qed.

Lemma keeps_more_inners c s : keeps s (set_inners (fun h => h ++ [c]) s).
Proof.
  intros [n|n|n] x Hx _; simpl in *; try done.
  rewrite lookup_app_l; [done|]. by eapply lookup_lt_Some.
Qed.

Lemma keeps_stepped c e rest s : keeps s (stepped c e rest s).
Proof.
  unfold stepped, thrown.
  assert (H : keeps s (started c e rest s)).
  { intros [n|n|n] x Hx _; simpl in *; try done.
    rewrite lookup_app_l; [done|]. by eapply lookup_lt_Some. }
  eapply keeps_trans; [exact H|].
  eapply keeps_trans; [apply keeps_run_calls|].
  destruct (throws (fn e)); [apply keeps_settle|apply keeps_refl].
Qed.

Lemma keeps_submitted c front fn g s :
  links s !! pred (length (links s)) = Some g -> not_following g ->
  keeps s (submitted c front fn (pred (length (links s))) g s).
Proof.
  intros Hg Hnf [n|n|n] x Hx Hp; simpl in *.
  - rewrite lookup_app_l; [done|]. by eapply lookup_lt_Some.
  - done.
  - pose proof (lookup_lt_Some _ _ _ Hx) as Hlt.
    destruct (p_state g) eqn:Eg; try by rewrite lookup_app_l.
    + rewrite list_lookup_insert_ne; [by rewrite lookup_app_l|].
      intros <-. congruence.
    + by destruct (Hnf t).
Qed.

Lemma keeps_istep lp ev s : base s -> calm s -> keeps s (istep lp ev s).
Proof.
  intros Hb [Hc1 Hc2]. destruct ev as [fn|fn| |n].
  - destruct lp as [c|]; [|apply keeps_refl].
    destruct (istep_submitted c false fn s Hb) as (g & Htail & Heq).
    change (submit false fn) with (Push fn) in Heq. rewrite Heq.
    apply keeps_submitted; [done|]. apply (Forall_lookup_1 _ _ _ _ Hc1 Htail).
  - destruct lp as [c|]; [|apply keeps_refl].
    destruct (istep_submitted c true fn s Hb) as (g & Htail & Heq).
    change (submit true fn) with (Unshift fn) in Heq. rewrite Heq.
    apply keeps_submitted; [done|]. apply (Forall_lookup_1 _ _ _ _ Hc1 Htail).
  - unfold istep. rewrite tick_spec.
    assert (Hj : forall js, keeps s (set_jobs (fun _ => js) s)).
    { intros js. apply keeps_cells. by intros []. }
    destruct (jobs s) as [|[d|d st] js]; [apply keeps_refl| |].
    + destruct lp as [c|].
      * assert (Hb0 : base (set_jobs (fun _ => js) s))
          by by apply base_set_jobs.
        destruct (_promiseFunctionArray (self s)) as [|e rest] eqn:Harr.
        -- eapply keeps_trans; [|apply keeps_follow].
           ++ eapply keeps_trans; [apply (Hj js)|].
              eapply keeps_trans; [|apply keeps_settle].
              apply keeps_more_inners.
           ++ simpl. rewrite settle_inners. simpl. intros y Hy.
              refine (Forall_lookup_1 _ _ _ _ _ Hy).
              apply settle_in_not_following; [done|].
              apply Forall_app. split; [done|]. by apply Forall_singleton.
        -- eapply keeps_trans; [|apply keeps_follow].
           ++ eapply keeps_trans; [apply (Hj js)|]. apply keeps_stepped.
           ++ simpl.
              destruct (stepped_fields c e rest _ Hb0 Harr)
                as (_ & _ & _ & F4 & _).
              rewrite F4. intros y Hy.
              refine (Forall_lookup_1 _ _ _ _ _ Hy).
              apply Forall_app. split; [done|]. apply Forall_singleton.
              intros t. apply inner_state_not_following.
      * eapply keeps_trans; [apply (Hj js)|apply keeps_settle].
    + eapply keeps_trans; [apply (Hj js)|apply keeps_settle].
  - unfold istep, timer.
    destruct (issued s !! n) as [[[f res] rej]|]; [|apply keeps_refl].
    apply keeps_run_calls.
Qed.

(** X12: a promise that is settled (a caller's future, a promise of the
    driver or a chain link) keeps its state for ever: no later submission,
    job or call on a handle changes it. *)
Theorem settled_promises_never_change (c0 : ctor)
    (evs0 evs : list (option ctor * event)) (p : pid) (x : promise) :
  let s := irun evs0 (Pique_new c0) in
  cell p s = Some x -> p_state x <> Pending ->
  cell p (irun evs s) = Some x.
Proof.
  intros s. pose proof (Good_reach c0 evs0) as Hg. fold s in Hg.
  assert (Hc : calm s).
  { apply calm_irun; [apply Inv_new|apply calm_new]. }
  revert p x. change (keeps s (irun evs s)).
  generalize dependent s. induction evs as [|[lp ev] evs IH]; intros s Hg Hc.
  - apply keeps_refl.
  - simpl. eapply keeps_trans; [apply keeps_istep; [apply Hg|done]|].
    apply IH; [by apply Good_istep|].
    apply calm_istep; [|done]. split; apply Hg.
Qed.

(** ** A unit that never reports *)

Lemma running_phase s :
  Inv s -> awaiting s = true ->
  exists rest c,
    chain (length (issued s)) (links s) /\ jobs s = [] /\
    inners s = rest ++ [c] /\ Forall is_fulfilled rest /\
    p_state c = Pending.
Proof.
  intros [Hb Hph] Haw.
  destruct Hph as [H1 H2 H3 H4|H1 H2 H3 H4|rest x H1 H2 H3 H4 H5 H6 H7|
                   v H1 H2 H3|H1 H2 H3 H4 H5].
  - by rewrite awaiting_fulfilled in Haw.
  - by rewrite awaiting_fulfilled in Haw.
  - by exists rest, x.
  - by rewrite awaiting_fulfilled in Haw.
  - unfold awaiting in Haw. destruct (last (inners s)) as [y|] eqn:E; [|done].
    apply last_Some in E as [h Hh]. rewrite Hh in H2.
    apply Forall_app in H2 as [_ H2].
    rewrite Forall_singleton in H2. simpl in Haw.
    destruct (p_state y) eqn:Ey; congruence.
Qed.

Lemma stalled_istep lp ev s :
  Good s -> stalled s ->
  stalled (istep lp ev s) /\
  invoked (log (istep lp ev s)) = invoked (log s).
Proof.
  intros (Hb & Hph & Ht) [Haw Hlast].
  destruct (running_phase s (conj Hb Hph) Haw)
    as (rest & y & Hch & Hj & Hin & Hrest & Hy).
  assert (Hsub : forall c front fn,
            stalled (istep (Some c) (submit front fn) s) /\
            invoked (log (istep (Some c) (submit front fn) s)) =
              invoked (log s)).
  { intros c front fn.
    destruct (submit_effect c front fn s Hb) as (E1 & E2 & E3 & _).
    split; [|by rewrite E1]. unfold stalled, awaiting. by rewrite E2, E3. }
  destruct ev as [fn|fn| |n].
  - destruct lp as [c|]; [apply (Hsub c false fn)|done].
  - destruct lp as [c|]; [apply (Hsub c true fn)|done].
  - unfold istep. rewrite tick_spec, Hj. done.
  - unfold istep, timer.
    destruct (issued s !! n) as [[[f res] rej]|] eqn:E; [|done].
    split; [|by rewrite run_calls_invoked].
    destruct (b_handles _ Hb _ _ E) as (e & He & Hx).
    destruct (handles_of_for e n _ (base_invoked_wf _ _ _ Hb He))
      as (j & _ & _ & Hres & Hrej).
    rewrite <- Hx in Hres, Hrej. simpl in Hres, Hrej.
    destruct (run_calls_fields res rej (async f) s j n Hres Hrej
                (b_quiet _ Hb)) as (R1 & R2 & R3 & R4 & R5 & _).
    pose proof (lookup_lt_Some _ _ _ E) as Hn.
    pose proof (b_issued _ Hb) as Hlen1. pose proof (b_inners _ Hb) as Hlen2.
    rewrite Hin, length_app in Hlen2. simpl in Hlen2.
    unfold stalled, awaiting. rewrite R3.
    destruct (decide (n = length rest)) as [->|Hne].
    + assert (Hl : last (issued s) = Some (f, res, rej)).
      { rewrite last_lookup. rewrite <- E. f_equal. lia. }
      pose proof (Hlast _ Hl) as Ha. simpl in Ha. rewrite R4, Ha. simpl.
      split; [apply Haw|apply Hlast].
    + assert (Hsame : inners (run_calls res rej (async f) s) = inners s).
      { rewrite R4. destruct (nonempty (async f)); [|done].
        apply settle_in_settled. intros z Hz. rewrite Hin in Hz.
        rewrite lookup_app_l in Hz by lia.
        destruct (proj1 (Forall_lookup _ _) Hrest _ _ Hz) as [w Hw].
        congruence. }
      rewrite Hsame. split; [apply Haw|apply Hlast].
Qed.

Lemma stalled_irun evs s :
  Good s -> stalled s ->
  stalled (irun evs s) /\ invoked (log (irun evs s)) = invoked (log s).
Proof.
  revert s. induction evs as [|[lp ev] evs IH]; intros s Hg Hs; [done|].
  simpl. destruct (stalled_istep lp ev s Hg Hs) as [Hs' Hi].
  destruct (IH (istep lp ev s) (Good_istep _ _ _ Hg) Hs') as [H1 H2].
  split; [done|]. by rewrite H2.
Qed.

(** X13: while the unit in flight has not called a handle and makes no
    call later, the queue stalls: whatever is submitted or run afterwards,
    no further unit is invoked and every pending entry stays pending with
    its future unsettled. *)
Theorem silent_unit_stalls_the_queue (c0 : ctor)
    (evs0 evs : list (option ctor * event)) :
  let s := irun evs0 (Pique_new c0) in
  let s' := irun evs s in
  awaiting s = true ->
  (forall x, last (issued s) = Some x -> async x.1.1 = []) ->
  awaiting s' = true /\
  invoked (log s') = invoked (log s) /\
  forall e, e ∈ _promiseFunctionArray (self s) ->
    e ∈ _promiseFunctionArray (self s') /\
    exists x, cell (future_of e) s' = Some x /\ p_state x = Pending.
Proof.
  intros s s' Haw Hlast.
  pose proof (Good_reach c0 evs0) as Hg. fold s in Hg.
  destruct (stalled_irun evs s Hg (conj Haw Hlast)) as [[Haw' _] Hi].
  fold s' in Haw', Hi.
  assert (Hg' : Good s') by by apply Good_irun.
  split_and!; [done..|].
  intros e He.
  assert (He' : e ∈ _promiseFunctionArray (self s')).
  { apply timeline_pending.
    - eapply elem_of_sublist; [|apply (timeline_sublist_irun evs)].
      unfold timeline. apply elem_of_app. by right.
    - rewrite Hi. by apply pending_not_invoked. }
  split; [done|]. by apply pending_future.
Qed.

(** ** The properties above at concrete runs *)

Lemma single_shot_witness :
  let f1 := finishPromise (ResolveOf (Future 0)) (ResolveOf (Inner 0)) in
  let f2 := finishPromise (RejectOf (Future 0)) (ResolveOf (Inner 0)) in
  let s := irun (on lie [Push (after (VNum 1)); Tick]) (Pique_new "lie") in
  call_finish f2 (VNum 2) (call_finish f1 (VNum 1) s) =
    emit (Called f2 (VNum 2)) (call_finish f1 (VNum 1) s).
Proof.
  intros f1 f2 s.
  exact (handles_are_single_shot f1 f2 (VNum 1) (VNum 2) s eq_refl eq_refl).
Defined.

Lemma idle_queue_witness :
  let evs := on lie [Push (now (VNum 1)); Tick; Tick] in
  let s := irun evs (Pique_new "lie") in
  let s1 := istep (Some "lie"%string) (submit true (now (VNum 2))) s in
  invoked (log (tick (Some "lie"%string) s1)) =
    invoked (log s) ++ [new_entry (now (VNum 2)) s].
Proof.
  intros evs s s1.
  refine (proj1 (proj2 (proj2 (proj2
    (idle_queue_runs_next_submission "lie" "lie" "lie" evs true
       (now (VNum 2)) _ _)))));
    vm_compute; reflexivity.
Defined.

Lemma silent_throw_witness :
  let evs := on lie [Push (throwing (VStr "boom"))] in
  let s := irun evs (Pique_new "lie") in
  exists e rest,
    _promiseFunctionArray (self s) = e :: rest /\
    invoked (log (tick (Some "lie"%string) s)) = invoked (log s) ++ [e] /\
    (alive (tick (Some "lie"%string) s) = false <->
     sync (fn e) = [] /\ throws (fn e) <> None).
Proof.
  intros evs s.
  exact (silent_throw_wedges_the_queue "lie" "lie" evs (Link 1) [] eq_refl).
Defined.

Lemma wedged_queue_witness :
  let evs0 := on lie [Push (throwing (VStr "boom")); Push (now (VNum 1)); Tick] in
  let evs := on lie [Tick; Push (now (VNum 2)); Tick; Tick] in
  let s := irun evs0 (Pique_new "lie") in
  invoked (log (irun evs s)) = invoked (log s).
Proof.
  intros evs0 evs s.
  refine (proj1 (proj2 (wedged_queue_never_recovers "lie" evs0 evs _))).
  vm_compute; reflexivity.
Defined.

Lemma step_without_implementation_witness :
  let evs := on lie [Push (now (VNum 1))] in
  alive (tick None (irun evs (Pique_new "lie"))) = false.
Proof.
  intros evs.
  exact (proj1 (step_without_implementation_wedges "lie" evs (Link 1) []
                  eq_refl)).
Defined.

Lemma pending_entries_witness :
  let evs := on lie [Push (after (VNum 1)); Push (now (VNum 2)); Tick] in
  let s := irun evs (Pique_new "lie") in
  let e := {| fn := now (VNum 2); localResolve := ResolveOf (Future 1);
              localReject := RejectOf (Future 1) |} in
  exists x, cell (future_of e) s = Some x /\ p_state x = Pending.
Proof.
  intros evs s e.
  refine (proj1 (proj2 (pending_entries_are_untouched "lie" evs e _))).
  vm_compute. apply list_elem_of_here.
Defined.

Lemma push_after_witness :
  let evs0 := on lie [Push (after VUndefined); Unshift (now (VStr "first"))] in
  let fn := now (VStr "second") in
  let e := {| fn := now (VStr "first"); localResolve := ResolveOf (Future 1);
              localReject := RejectOf (Future 1) |} in
  let s := irun evs0 (Pique_new "lie") in
  let e' := new_entry fn s in
  let sf := irun [] (istep (Some "lie"%string) (Push fn) s) in
  precedes (invoked (log (complete (Some "lie"%string) 20 sf))) e e'.
Proof.
  intros evs0 fn e s e' sf.
  assert (He : e ∈ timeline s).
  { vm_compute. apply list_elem_of_here. }
  refine (proj2 (proj2
    (push_runs_after_earlier_submissions "lie" "lie" evs0 [] fn e 20 He))
    eq_refl eq_refl _).
  vm_compute. lia.
Defined.

Lemma settled_witness :
  let evs0 := on lie [Push (fail_now (VNum 1)); Tick] in
  let evs := on lie [Timer 0; Tick; Push (now (VNum 2)); Tick; Tick] in
  let x := {| p_ctor := "lie"; p_state := Rejected (VNum 1);
              p_reactions := [] |} in
  cell (Future 0) (irun evs (irun evs0 (Pique_new "lie"))) = Some x.
Proof.
  intros evs0 evs x.
  refine (settled_promises_never_change "lie" evs0 evs (Future 0) x _ _).
  - vm_compute; reflexivity.
  - discriminate.
Defined.

Lemma silent_unit_witness :
  let evs0 := on lie [Push silent; Push (now (VNum 1)); Tick] in
  let evs := on lie [Tick; Timer 0; Unshift (now (VNum 2)); Tick] in
  let s := irun evs0 (Pique_new "lie") in
  invoked (log (irun evs s)) = invoked (log s).
Proof.
  intros evs0 evs s.
  refine (proj1 (proj2 (silent_unit_stalls_the_queue "lie" evs0 evs _ _))).
  - vm_compute; reflexivity.
  - intros x Hx. vm_compute in Hx. injection Hx as <-. reflexivity.
Defined.

(** ** Submissions in a row *)

Lemma submissions_array evs s :
  Good s -> only_submissions evs = true ->
  fn <$> _promiseFunctionArray (self (irun evs s)) =
    rev (unshifted evs) ++ (fn <$> _promiseFunctionArray (self s)) ++ pushed evs /\
  log (irun evs s) = log s.
Proof.
  revert s. induction evs as [|[lp ev] evs IH]; intros s Hg Hev.
  - simpl. by rewrite app_nil_r.
  - simpl in Hev. apply andb_true_iff in Hev as [Hev1 Hev2].
    cbn [irun fold_left]. change (fold_left _ evs ?x) with (irun evs x).
    destruct (IH (istep lp ev s) (Good_istep lp ev s Hg) Hev2) as [IH1 IH2].
    cbn [fst snd] in *. rewrite IH1, IH2. pose proof Hg as (Hb & _ & _).
    destruct ev as [f|f| |n]; try done; destruct lp as [c|]; try done.
    + destruct (submit_effect c false f s Hb) as (E1 & _ & _ & E4 & _).
      change (submit false f) with (Push f) in E1, E4. rewrite E1, E4.
      split; [|done]. simpl. rewrite fmap_app. simpl.
      by rewrite <- !app_assoc.
    + destruct (submit_effect c true f s Hb) as (E1 & _ & _ & E4 & _).
      change (submit true f) with (Unshift f) in E1, E4. rewrite E1, E4.
      split; [|done]. simpl. by rewrite <- !app_assoc.
Qed.

Lemma irun_app evs1 evs2 s : irun (evs1 ++ evs2) s = irun evs2 (irun evs1 s).
Proof. apply fold_left_app. Qed.

(** X14: submissions made one after the other, with no job running in
    between, leave the trace alone and build the pending sequence as: the
    unshifted units, last submitted first, then the entries that were
    already pending, then the pushed units in submission order. When an
    implementation stays configured and every unit reports, the run to
    completion invokes them in exactly that order. *)
Theorem submissions_run_in_array_order (c0 c : ctor)
    (evs0 evs : list (option ctor * event)) :
  let s := irun evs0 (Pique_new c0) in
  let s' := irun evs s in
  let sf := complete (Some c)
              (3 * length (_promiseFunctionArray (self s')) + 2) s' in
  only_submissions evs = true ->
  executed s' = executed s /\
  fn <$> _promiseFunctionArray (self s') =
    rev (unshifted evs) ++ (fn <$> _promiseFunctionArray (self s)) ++
    pushed evs /\
  (behaved (evs0 ++ evs) = true ->
   executed sf =
     executed s ++ rev (unshifted evs) ++
     (fn <$> _promiseFunctionArray (self s)) ++ pushed evs).
Proof.
  intros s s' sf Hev. pose proof (Good_reach c0 evs0) as Hg. fold s in Hg.
  destruct (submissions_array evs s Hg Hev) as [H1 H2]. fold s' in H1, H2.
  split_and!; [unfold executed; by rewrite H2|done|].
  intros Hbeh.
  assert (Hl : Live s').
  { unfold s', s. rewrite <- irun_app. by apply Live_reach. }
  destruct (Live_complete c _ s' Hl (weight_bound s')) as (Hinv & _ & _).
  fold sf in Hinv. unfold executed. rewrite Hinv, fmap_app, H1. by rewrite H2.
Qed.

Lemma submissions_witness :
  let evs := on lie [Unshift (after VUndefined);
                     Push (fail_now (VStr "first"));
                     Unshift (now (VStr "second"));
                     Push (now (VStr "third"));
                     Unshift (fail_now (VStr "fourth"))] in
  let s := irun [] (Pique_new "lie") in
  let s' := irun evs s in
  let sf := complete (Some "lie"%string)
              (3 * length (_promiseFunctionArray (self s')) + 2) s' in
  executed sf =
    executed s ++ rev (unshifted evs) ++
    (fn <$> _promiseFunctionArray (self s)) ++ pushed evs.
Proof.
  intros evs s s' sf.
  exact (proj2 (proj2
    (submissions_run_in_array_order "lie" "lie" [] evs eq_refl)) eq_refl).
Defined.

(** ** Every future holds the first report of its unit *)








